(** * tools/bibtex_to_json.py: a shallow embedding and its properties

    The script converts a BibTeX export into a JSON array for the web
    site.  This development embeds its functions
    ([_strip_outer_braces], [_clean_tex], [_parse_value], [parse_bibtex],
    [entry_to_publication] and [main]) and proves properties of the parser,
    of the projection to publication records, of the sort and of the two
    output artifacts.

    Modelling conventions.

    - A Python [str] is a [list ascii]; a character is a code point below
      256 (the Latin-1 block of Unicode), and the classification of
      characters ([str.isspace], [\s], [\d], [str.lower], the line
      boundaries of [str.splitlines]) is the one CPython uses on that block.
    - Indexing [text[i]] raises [IndexError] out of range: [get] returns in
      the [result] monad.  Slices, [str.find], [str.strip] and the regular
      expressions never raise and are pure functions.
    - Every [while] loop is a [Fixpoint] on a fuel argument that returns
      [OutOfFuel] when the fuel is used up; termination is a theorem, not
      an assumption.
    - A [dict] is an association list in insertion order. *)

From Stdlib Require Import Ascii String Bool Arith ZArith NArith Lia List.
From Stdlib Require Import Permutation Sorted DecimalString.
Import ListNotations.

Set Implicit Arguments.

(** ** Characters and strings *)

Definition str := list ascii.

(** A string literal of the source. *)
Definition lit (x : string) : str := list_ascii_of_string x.

Definition code (c : ascii) : N := N_of_ascii c.

Definition in_range (lo hi : N) (c : ascii) : bool :=
  (lo <=? code c)%N && (code c <=? hi)%N.

(** [str.isspace] on one character, which is also the class [\s] of [re]
    on [str] patterns: TAB..CR, FS..US, SPACE, NEL and NBSP. *)
Definition isspace (c : ascii) : bool :=
  in_range 9 13 c || in_range 28 32 c || (code c =? 133)%N || (code c =? 160)%N.

(** The class [[A-Za-z]]. *)
Definition is_alpha (c : ascii) : bool := in_range 65 90 c || in_range 97 122 c.

(** The class [\d] (the decimal digits below code point 256). *)
Definition is_digit (c : ascii) : bool := in_range 48 57 c.

(** The class [[A-Za-z0-9_\-]]. *)
Definition is_name_char (c : ascii) : bool :=
  is_alpha c || is_digit c || (code c =? 95)%N || (code c =? 45)%N.

Definition is_lower_ascii (c : ascii) : bool := in_range 97 122 c.

(** [str.lower] on one character: A-Z and the upper-case letters of
    Latin-1 (all of U+00C0..U+00DE but the multiplication sign). *)
Definition lower_char (c : ascii) : ascii :=
  if in_range 65 90 c || (in_range 192 222 c && negb (code c =? 215)%N)
  then ascii_of_N (code c + 32) else c.

Definition lower (x : str) : str := map lower_char x.

Definition ceq (a b : ascii) : bool := Ascii.eqb a b.

Fixpoint str_eqb (a b : str) : bool :=
  match a, b with
  | [], [] => true
  | x :: a', y :: b' => ceq x y && str_eqb a' b'
  | _, _ => false
  end.

(** [c in chars] for a one-character [c]. *)
Definition char_in (c : ascii) (chars : str) : bool := existsb (ceq c) chars.

Arguments char_in : simpl never.

Definition nonempty (x : str) : bool :=
  match x with [] => false | _ => true end.

(** [x.startswith(p)]. *)
Fixpoint startswith (p x : str) : bool :=
  match p, x with
  | [], _ => true
  | a :: p', b :: x' => ceq a b && startswith p' x'
  | _ :: _, [] => false
  end.

(** [x.endswith(p)]. *)
Definition endswith (p x : str) : bool := startswith (rev p) (rev x).

(** [x[a:b]] for non-negative [a] and [b] (a slice never raises). *)
Definition slice (x : str) (a b : nat) : str := firstn (b - a) (skipn a x).

(** [x[:-k]] for [k > 0]. *)
Definition drop_last (k : nat) (x : str) : str := firstn (length x - k) x.

Fixpoint drop_while (p : ascii -> bool) (x : str) : str :=
  match x with
  | [] => []
  | c :: r => if p c then drop_while p r else x
  end.

Fixpoint take_while (p : ascii -> bool) (x : str) : str :=
  match x with
  | [] => []
  | c :: r => if p c then c :: take_while p r else []
  end.

Definition lstrip (x : str) : str := drop_while isspace x.
Definition rstrip (x : str) : str := rev (drop_while isspace (rev x)).
Definition strip (x : str) : str := rstrip (lstrip x).

(** [x.rstrip(",")]: every trailing comma goes. *)
Definition rstrip_commas (x : str) : str :=
  rev (drop_while (ceq ","%char) (rev x)).

(** [x.find(c, i)] for a one-character [c]: [None] stands for [-1]. *)
Fixpoint find_in (c : ascii) (x : str) (pos : nat) : option nat :=
  match x with
  | [] => None
  | d :: r => if ceq d c then Some pos else find_in c r (S pos)
  end.

Definition find (c : ascii) (x : str) (i : nat) : option nat :=
  find_in c (skipn i x) i.

(** ** Exceptions and fuel *)

Inductive exn : Type := IndexError | KeyError | ValueError | AttributeError | OSError.

Inductive result (A : Type) : Type :=
| Ok (a : A)
| Raise (e : exn)
| OutOfFuel.

Arguments Ok {A} a.
Arguments Raise {A} e.
Arguments OutOfFuel {A}.

Definition bind {A B : Type} (m : result A) (k : A -> result B) : result B :=
  match m with
  | Ok a => k a
  | Raise e => Raise e
  | OutOfFuel => OutOfFuel
  end.

Declare Scope result_scope.
Delimit Scope result_scope with result.
Notation "x <- m ;; k" := (bind m (fun x => k))
  (at level 61, m at next level, right associativity) : result_scope.
Notation "' pat <- m ;; k" := (bind m (fun x => match x with pat => k end))
  (at level 61, pat pattern, m at next level, right associativity) : result_scope.
Local Open Scope result_scope.

(** [text[i]] for [0 <= i]. *)
Definition get (text : str) (i : nat) : result ascii :=
  match nth_error text i with
  | Some c => Ok c
  | None => Raise IndexError
  end.

(** [l[0]]. *)
Definition get_first {A : Type} (l : list A) : result A :=
  match l with
  | x :: _ => Ok x
  | [] => Raise IndexError
  end.

(** The characters the source names. *)
Definition LF : ascii := ascii_of_N 10.
Definition CR : ascii := ascii_of_N 13.
Definition TAB : ascii := ascii_of_N 9.
Definition DQUOTE : ascii := ascii_of_N 34.
Definition BACKSLASH : ascii := ascii_of_N 92.
Definition LBRACE : ascii := "{"%char.
Definition RBRACE : ascii := "}"%char.
Definition COMMA : ascii := ","%char.

(** ** Dictionaries *)

Definition dict (V : Type) : Type := list (str * V).

Fixpoint dict_get {V : Type} (d : dict V) (k : str) : option V :=
  match d with
  | [] => None
  | (k', v) :: r => if str_eqb k' k then Some v else dict_get r k
  end.

(** [d[k] = v]: an existing key keeps its place, a new one goes last. *)
Fixpoint dict_set {V : Type} (d : dict V) (k : str) (v : V) : dict V :=
  match d with
  | [] => [(k, v)]
  | (k', v') :: r =>
      if str_eqb k' k then (k', v) :: r else (k', v') :: dict_set r k v
  end.

(** [d.pop(k)], the value dropped. *)
Fixpoint dict_pop {V : Type} (d : dict V) (k : str) : dict V :=
  match d with
  | [] => []
  | (k', v) :: r => if str_eqb k' k then r else (k', v) :: dict_pop r k
  end.

(** [d.get(k, default)] with the empty string as the default. *)
Definition dict_get_str (d : dict str) (k : str) : str :=
  match dict_get d k with Some v => v | None => [] end.

(** ** The data model *)

Record BibEntry : Type := mkBibEntry {
  entry_type : str;
  citekey : str;
  fields : dict str
}.

(** ** _strip_outer_braces and _clean_tex *)

Definition _strip_outer_braces (value : str) : result str :=
  let value := rstrip_commas (strip value) in
  if 2 <=? length value then
    first <- get value 0;;
    last <- get value (length value - 1);;
    if (ceq first LBRACE && ceq last RBRACE) || (ceq first DQUOTE && ceq last DQUOTE)
    then Ok (strip (slice value 1 (length value - 1)))
    else Ok value
  else Ok value.

(** [re.sub(r"\s+", " ", value)]: [in_run] tells that the previous
    character was white space, already replaced. *)
Fixpoint collapse_spaces (value : str) (in_run : bool) : str :=
  match value with
  | [] => []
  | c :: r =>
      if isspace c
      then (if in_run then collapse_spaces r true else " "%char :: collapse_spaces r true)
      else c :: collapse_spaces r false
  end.

Definition not_brace (c : ascii) : bool := negb (ceq c LBRACE || ceq c RBRACE).

(** [re.sub(r"\{([^{}]+)\}", r"\1", value)], left to right over the
    matches, which do not overlap.  The class [[^{}]] and the two braces
    are disjoint, so the greedy run is the only candidate at a [{].
    [skip] counts the characters of a match still to pass over. *)
Fixpoint unwrap_braces (value : str) (skip : nat) : str :=
  match value with
  | [] => []
  | c :: r =>
      match skip with
      | S k => unwrap_braces r k
      | O =>
          if ceq c LBRACE then
            let inner := take_while not_brace r in
            if nonempty inner && startswith [RBRACE] (skipn (length inner) r)
            then inner ++ unwrap_braces r (length inner + 1)
            else c :: unwrap_braces r 0
          else c :: unwrap_braces r 0
      end
  end.

Definition _clean_tex (value : str) : str :=
  let value := collapse_spaces value false in
  let value := unwrap_braces value 0 in
  strip value.

(** ** _parse_value *)

(** [while i < n and text[i].isspace(): i += 1] *)
Fixpoint skip_spaces (k : nat) (text : str) (i : nat) : result nat :=
  match k with
  | O => OutOfFuel
  | S k' =>
      if i <? length text then
        ch <- get text i;;
        if isspace ch then skip_spaces k' text (i + 1) else Ok i
      else Ok i
  end.

(** The loop of the [{...}] case; the result is the final [i]. *)
Fixpoint scan_braces (k : nat) (text : str) (i : nat) (depth : Z) : result nat :=
  match k with
  | O => OutOfFuel
  | S k' =>
      if i <? length text then
        ch <- get text i;;
        if ceq ch LBRACE then scan_braces k' text (i + 1) (depth + 1)%Z
        else if ceq ch RBRACE then
          let depth := (depth - 1)%Z in
          if (depth =? 0)%Z then Ok (i + 1) else scan_braces k' text (i + 1) depth
        else scan_braces k' text (i + 1) depth
      else Ok i
  end.

(** The loop of the ["..."] case with the [return] after it. *)
Fixpoint scan_quoted (k : nat) (text : str) (start i : nat) (escaped : bool)
  : result (str * nat) :=
  match k with
  | O => OutOfFuel
  | S k' =>
      if i <? length text then
        ch <- get text i;;
        if escaped then scan_quoted k' text start (i + 1) false
        else if ceq ch BACKSLASH then scan_quoted k' text start (i + 1) true
        else if ceq ch DQUOTE then Ok (DQUOTE :: slice text start i ++ [DQUOTE], i + 1)
        else scan_quoted k' text start (i + 1) escaped
      else Ok (DQUOTE :: slice text start i ++ [DQUOTE], i)
  end.

(** [while i < n and text[i] not in ",\n\r}": i += 1] *)
Fixpoint scan_bareword (k : nat) (text : str) (i : nat) : result nat :=
  match k with
  | O => OutOfFuel
  | S k' =>
      if i <? length text then
        ch <- get text i;;
        if negb (char_in ch [COMMA; LF; CR; RBRACE])
        then scan_bareword k' text (i + 1) else Ok i
      else Ok i
  end.

Definition _parse_value (fuel : nat) (text : str) (i : nat) : result (str * nat) :=
  let n := length text in
  i <- skip_spaces fuel text i;;
  if n <=? i then Ok ([], i)
  else
    ch <- get text i;;
    if ceq ch LBRACE then
      let start := i in
      i <- scan_braces fuel text i 0;;
      Ok (strip (slice text start i), i)
    else
      ch <- get text i;;
      if ceq ch DQUOTE then
        let i := i + 1 in
        scan_quoted fuel text i i false
      else
        let start := i in
        i <- scan_bareword fuel text i;;
        Ok (strip (slice text start i), i).

(** ** parse_bibtex *)

(** The line boundaries of [str.splitlines] below code point 256: LF, VT,
    FF, CR, FS, GS, RS and NEL (CR LF counts as one). *)
Definition is_linebreak (c : ascii) : bool :=
  in_range 10 13 c || in_range 28 30 c || (code c =? 133)%N.

(** [raw.splitlines()]; [cur] is the line read so far and [started] tells
    that it has begun (a text that ends in a line boundary has no empty
    last line). *)
Fixpoint splitlines_from (raw : str) (cur : str) (started : bool) : list str :=
  match raw with
  | [] => if started then [cur] else []
  | c :: r =>
      if is_linebreak c then
        match r with
        | d :: r' =>
            if ceq c CR && ceq d LF
            then cur :: splitlines_from r' [] false
            else cur :: splitlines_from r [] false
        | [] => cur :: splitlines_from r [] false
        end
      else splitlines_from r (cur ++ [c]) true
  end.

Definition splitlines (raw : str) : list str := splitlines_from raw [] false.

(** [sep.join(lines)]. *)
Fixpoint join (sep : str) (lines : list str) : str :=
  match lines with
  | [] => []
  | [x] => x
  | x :: r => x ++ sep ++ join sep r
  end.

(** The comprehension that drops the full-line comments. *)
Definition drop_comment_lines (raw : str) : str :=
  join [LF]
    (filter (fun line => negb (startswith (lit "%") (lstrip line))) (splitlines raw)).

(** [re.match(r"([A-Za-z]+)\s*\{", x)]: group 1 and [m.end(0)].  Letters,
    white space and the brace are disjoint classes, so the greedy runs are
    the only way to match. *)
Definition match_entry_type (x : str) : option (str * nat) :=
  let g := take_while is_alpha x in
  let w := take_while isspace (skipn (length g) x) in
  match g, skipn (length g + length w) x with
  | _ :: _, c :: _ =>
      if ceq c LBRACE then Some (g, length g + length w + 1) else None
  | _, _ => None
  end.

(** [re.match] of the field-name pattern (group 1 is a letter followed by
    any number of letters, digits, underscores and hyphens; then any white
    space; then the equals sign): group 1 and [m.end(0)].  Again the
    greedy runs are the only candidates. *)
Definition match_field_name (x : str) : option (str * nat) :=
  match x with
  | c :: r =>
      if is_alpha c then
        let g := c :: take_while is_name_char r in
        let w := take_while isspace (skipn (length g) x) in
        match skipn (length g + length w) x with
        | e :: _ =>
            if ceq e "="%char then Some (g, length g + length w + 1) else None
        | [] => None
        end
      else None
  | [] => None
  end.

(** The brace-depth loop that finds the end of the entry. *)
Fixpoint scan_entry (k : nat) (raw : str) (i : nat) (depth : Z) : result nat :=
  match k with
  | O => OutOfFuel
  | S k' =>
      if (i <? length raw) && (0 <? depth)%Z then
        ch <- get raw i;;
        if ceq ch LBRACE then scan_entry k' raw (i + 1) (depth + 1)%Z
        else if ceq ch RBRACE then scan_entry k' raw (i + 1) (depth - 1)%Z
        else scan_entry k' raw (i + 1) depth
      else Ok i
  end.

(** [while j < len(fields_text) and fields_text[j] in "\n\r\t ,": j += 1] *)
Fixpoint skip_separators (k : nat) (fields_text : str) (j : nat) : result nat :=
  match k with
  | O => OutOfFuel
  | S k' =>
      if j <? length fields_text then
        ch <- get fields_text j;;
        if char_in ch [LF; CR; TAB; " "%char; COMMA]
        then skip_separators k' fields_text (j + 1) else Ok j
      else Ok j
  end.

(** The loop that consumes the trailing text up to the next comma, or to
    the end of the line. *)
Fixpoint skip_to_comma (k : nat) (fields_text : str) (j : nat) : result nat :=
  match k with
  | O => OutOfFuel
  | S k' =>
      if j <? length fields_text then
        ch <- get fields_text j;;
        if negb (char_in ch [COMMA]) then
          ch <- get fields_text j;;
          if ceq ch LF then Ok j else skip_to_comma k' fields_text (j + 1)
        else Ok j
      else Ok j
  end.

(** One pass of the field loop is either a [break] or a new [j] and field
    map. *)
Inductive field_step : Type :=
| FieldBreak
| FieldNext (j : nat) (fields : dict str).

Definition field_body (fuel : nat) (fields_text : str) (j : nat) (fields : dict str)
  : result field_step :=
  j <- skip_separators fuel fields_text j;;
  if length fields_text <=? j then Ok FieldBreak
  else
    match match_field_name (skipn j fields_text) with
    | None => Ok FieldBreak
    | Some (g, mend) =>
        let name := lower g in
        let j := j + mend in
        '(value, j) <- _parse_value fuel fields_text j;;
        fields <- (if nonempty value
                   then v <- _strip_outer_braces value;;
                        Ok (dict_set fields name (_clean_tex v))
                   else Ok fields);;
        j <- skip_to_comma fuel fields_text j;;
        j <- (if j <? length fields_text
              then ch <- get fields_text j;; Ok (if ceq ch COMMA then j + 1 else j)
              else Ok j);;
        Ok (FieldNext j fields)
    end.

(** [while j < len(fields_text): ...]; [k] bounds the passes of this loop
    and [fuel] those of each loop inside. *)
Fixpoint field_loop (k fuel : nat) (fields_text : str) (j : nat) (fields : dict str)
  : result (dict str) :=
  match k with
  | O => OutOfFuel
  | S k' =>
      if j <? length fields_text then
        st <- field_body fuel fields_text j fields;;
        match st with
        | FieldBreak => Ok fields
        | FieldNext j' fields' => field_loop k' fuel fields_text j' fields'
        end
      else Ok fields
  end.

(** One pass of the main loop: a [break], or the new [i] and entries (the
    [continue] and the end of the body). *)
Inductive main_step : Type :=
| MainBreak
| MainNext (i : nat) (entries : list BibEntry).

Definition main_body (fuel : nat) (raw : str) (i : nat) (entries : list BibEntry)
  : result main_step :=
  match find "@"%char raw i with
  | None => Ok MainBreak
  | Some at_ =>
      let i := at_ + 1 in
      match match_entry_type (skipn i raw) with
      | None => Ok (MainNext i entries)
      | Some (g, mend) =>
          let entry_type := lower g in
          let i := i + mend in
          match find COMMA raw i with
          | None => Ok MainBreak
          | Some comma =>
              let citekey := strip (slice raw i comma) in
              let i := comma + 1 in
              let fields_text_start := i in
              i <- scan_entry fuel raw i 1;;
              let fields_text := slice raw fields_text_start (i - 1) in
              fields <- field_loop fuel fuel fields_text 0 [];;
              Ok (MainNext i (entries ++ [mkBibEntry entry_type citekey fields]))
          end
      end
  end.

Fixpoint main_loop (k fuel : nat) (raw : str) (i : nat) (entries : list BibEntry)
  : result (list BibEntry) :=
  match k with
  | O => OutOfFuel
  | S k' =>
      if i <? length raw then
        st <- main_body fuel raw i entries;;
        match st with
        | MainBreak => Ok entries
        | MainNext i' entries' => main_loop k' fuel raw i' entries'
        end
      else Ok entries
  end.

(** [parse_bibtex(raw)], every loop allowed [fuel] passes. *)
Definition parse_bibtex (fuel : nat) (raw : str) : result (list BibEntry) :=
  let raw := drop_comment_lines raw in
  main_loop fuel fuel raw 0 [].

(** Fuel that is enough for every loop on [raw]. *)
Definition enough (raw : str) : nat := length raw + 1.

(** ** entry_to_publication *)

(** The values a publication record holds. *)
Inductive pyval : Type :=
| VStr (x : str)
| VList (items : list str)
| VInt (z : Z)
| VNone
| VDict (d : dict str).

Definition pub : Type := dict pyval.

(** [not v]. *)
Definition falsy (v : pyval) : bool :=
  match v with
  | VStr [] | VList [] | VDict [] | VNone => true
  | VInt z => (z =? 0)%Z
  | _ => false
  end.

(** [x.split(sep)] for a non-empty [sep], left to right; [skip] counts the
    characters of a separator still to pass over. *)
Fixpoint split_from (sep x cur : str) (skip : nat) : list str :=
  match x with
  | [] => [cur]
  | c :: r =>
      match skip with
      | S k => split_from sep r cur k
      | O =>
          if startswith sep x
          then cur :: split_from sep r [] (length sep - 1)
          else split_from sep r (cur ++ [c]) 0
      end
  end.

Definition split (sep x : str) : list str := split_from sep x [] 0.

(** [re.findall(r"\d{4}", x)]: the matches from left to right, the search
    resuming after each one. *)
Fixpoint findall_4digits (x : str) (skip : nat) : list str :=
  match x with
  | [] => []
  | _ :: r =>
      match skip with
      | S k => findall_4digits r k
      | O =>
          match x with
          | d1 :: d2 :: d3 :: d4 :: _ =>
              if is_digit d1 && is_digit d2 && is_digit d3 && is_digit d4
              then [d1; d2; d3; d4] :: findall_4digits r 3
              else findall_4digits r 0
          | _ => findall_4digits r 0
          end
      end
  end.

Definition digit_value (c : ascii) : Z := Z.of_N (code c) - 48.

(** [int(x)] for a text of decimal digits; the only argument it receives
    here is a match of four digits.  Anything else is a [ValueError]. *)
Definition int_of (x : str) : result Z :=
  if nonempty x && forallb is_digit x
  then Ok (fold_left (fun acc c => acc * 10 + digit_value c)%Z x 0%Z)
  else Raise ValueError.

(** [f.get(k)] when it is truthy ([None] and the empty string are not). *)
Definition get_truthy (f : dict str) (k : str) : option str :=
  match dict_get f k with
  | Some v => if nonempty v then Some v else None
  | None => None
  end.

(** [a or b]. *)
Definition or_else (a : option str) (b : option str) : option str :=
  match a with Some _ => a | None => b end.

Definition pub_title (e : BibEntry) : str := strip (dict_get_str (fields e) (lit "title")).

Definition pub_authors (e : BibEntry) : list str :=
  let authors_raw := dict_get_str (fields e) (lit "author") in
  if nonempty authors_raw
  then filter nonempty (map strip (split (lit " and ") authors_raw))
  else [].

(** The [try] block: an empty list of matches raises [IndexError] at
    [[0]], and every exception leaves [None]. *)
Definition pub_year (e : BibEntry) : pyval :=
  let year_str := strip (dict_get_str (fields e) (lit "year")) in
  if nonempty year_str then
    match (m <- get_first (findall_4digits year_str 0);; int_of m) with
    | Ok z => VInt z
    | _ => VNone
    end
  else VNone.

Definition pub_venue (e : BibEntry) : str :=
  let f := fields e in
  strip
    (match or_else (get_truthy f (lit "journal"))
             (or_else (get_truthy f (lit "booktitle"))
                (or_else (get_truthy f (lit "publisher"))
                   (get_truthy f (lit "school")))) with
     | Some v => v
     | None => []
     end).

(** [f[k]] is read only where [f.get(k)] is truthy, so it cannot raise. *)
Definition pub_links (e : BibEntry) : dict str :=
  let f := fields e in
  let links := [] in
  let links :=
    match get_truthy f (lit "doi") with
    | Some v => dict_set links (lit "doi") (strip v)
    | None => links
    end in
  match get_truthy f (lit "url") with
  | Some v => dict_set links (lit "url") (strip v)
  | None => links
  end.

(** [if test(pub[k]): pub.pop(k)]; the key is one of the literal above. *)
Definition pop_if (test : pyval -> bool) (p : pub) (k : str) : pub :=
  match dict_get p k with
  | Some v => if test v then dict_pop p k else p
  | None => p
  end.

Definition is_none (v : pyval) : bool :=
  match v with VNone => true | _ => false end.

Definition entry_to_publication (e : BibEntry) : pub :=
  let pub :=
    [ (lit "title", VStr (pub_title e));
      (lit "authors", VList (pub_authors e));
      (lit "year", pub_year e);
      (lit "venue", VStr (pub_venue e));
      (lit "type", VStr (entry_type e));
      (lit "links", VDict (pub_links e)) ] in
  let pub := pop_if falsy pub (lit "authors") in
  let pub := pop_if is_none pub (lit "year") in
  let pub := pop_if falsy pub (lit "venue") in
  let pub := pop_if falsy pub (lit "links") in
  pub.

(** ** main: the sort *)

(** [a < b] on [str]: lexicographic on the code points. *)
Fixpoint str_ltb (a b : str) : bool :=
  match a, b with
  | _, [] => false
  | [], _ :: _ => true
  | x :: a', y :: b' =>
      (code x <? code y)%N || ((code x =? code y)%N && str_ltb a' b')
  end.

Definition sortkey : Type := (Z * str)%type.

(** [a < b] on the key tuples. *)
Definition key_ltb (a b : sortkey) : bool :=
  (fst a <? fst b)%Z || ((fst a =? fst b)%Z && str_ltb (snd a) (snd b)).

(** [sort_key(p)]: [title.lower()] needs a [str]. *)
Definition sort_key (p : pub) : result sortkey :=
  let year := match dict_get p (lit "year") with Some v => v | None => VInt 0 end in
  let title := match dict_get p (lit "title") with Some v => v | None => VStr [] end in
  lowered <- match title with
             | VStr x => Ok (lower x)
             | _ => Raise AttributeError
             end;;
  Ok (match year with VInt z => (- z)%Z | _ => 0%Z end, lowered).

(** [list.sort] belongs to the interpreter.  Its documented contract
    (ascending on the keys, compared with [<] only, and stable) fixes the
    result, which this insertion sort computes: an item goes before the
    first one of the sorted rest whose key is not below its own. *)
Fixpoint insert_by_key {A : Type} (x : sortkey * A) (l : list (sortkey * A))
  : list (sortkey * A) :=
  match l with
  | [] => [x]
  | y :: r => if key_ltb (fst y) (fst x) then y :: insert_by_key x r else x :: l
  end.

Fixpoint sort_decorated {A : Type} (l : list (sortkey * A)) : list (sortkey * A) :=
  match l with
  | [] => []
  | x :: r => insert_by_key x (sort_decorated r)
  end.

(** The keys are computed first, one call per item; an exception in a call
    leaves the sort. *)
Fixpoint decorate (pubs : list pub) : result (list (sortkey * pub)) :=
  match pubs with
  | [] => Ok []
  | p :: r =>
      k <- sort_key p;;
      rest <- decorate r;;
      Ok ((k, p) :: rest)
  end.

(** [pubs.sort(key=sort_key)]. *)
Definition sort_pubs (pubs : list pub) : result (list pub) :=
  decorated <- decorate pubs;;
  Ok (map snd (sort_decorated decorated)).

(** The records [main] writes: parsed, projected and sorted. *)
Definition publications (fuel : nat) (raw : str) : result (list pub) :=
  entries <- parse_bibtex fuel raw;;
  let pubs := map entry_to_publication entries in
  sort_pubs pubs.

(** ** main: the two artifacts *)

(** What a run leaves behind: the exit status, the files written (path and
    content, in the order of the writes) and the two streams. *)
Record outcome : Type := mkOutcome {
  exit_status : Z;
  written : list (str * str);
  stdout : str;
  stderr : str
}.

Definition decimal (n : nat) : str :=
  lit (DecimalString.NilZero.string_of_uint (Nat.to_uint n)).

Section Main.

(** [json.dumps(pubs, ensure_ascii=False, indent=indent)] belongs to the
    standard library; [None] is the compact form. *)
Variable json_dumps : option nat -> list pub -> str.

(** [main(argv)] on the files [fs], a map from a path to the text that
    [f.read()] returns for it; opening a missing input raises.  A file
    whose bytes are not UTF-8 (reading it raises before anything is
    parsed) is not in the model, and the writes are taken to succeed. *)
Definition main (fuel : nat) (fs : dict str) (argv : list str) : result outcome :=
  match argv with
  | [_; inp; outp] =>
      raw <- match dict_get fs inp with
             | Some content => Ok content
             | None => Raise OSError
             end;;
      pubs <- publications fuel raw;;
      let w1 := (outp, json_dumps (Some 2) pubs ++ [LF]) in
      let msg := lit "Wrote " ++ decimal (length pubs) ++ lit " publications to " ++ outp in
      if endswith (lit ".json") (lower outp) then
        let js_outp := drop_last 5 outp ++ lit ".js" in
        let w2 := (js_outp,
                   lit "// Auto-generated from BibTeX. Do not edit by hand." ++ [LF]
                   ++ lit "window.PUBLICATIONS = "
                   ++ json_dumps None pubs
                   ++ lit ";" ++ [LF]) in
        Ok (mkOutcome 0 [w1; w2] (msg ++ lit " and " ++ js_outp ++ [LF]) [])
      else
        Ok (mkOutcome 0 [w1] (msg ++ [LF]) [])
  | _ =>
      Ok (mkOutcome 2 []
            []
            (lit "Usage: python3 tools/bibtex_to_json.py INPUT.bib OUTPUT.json" ++ [LF]))
  end.

End Main.

(** * Specification vocabulary *)

(** What the field loop stores under a key: the cleaned form of a parsed
    value that was not empty, under the lower-cased field name. *)
Definition stored_from (k v : str) : Prop :=
  exists name value stripped,
    k = lower name /\ value <> [] /\
    _strip_outer_braces value = Ok stripped /\ v = _clean_tex stripped.

Definition fields_ok (f : dict str) : Prop :=
  forall k v, dict_get f k = Some v -> stored_from k v.

(** A non-empty text of lower-case ASCII letters. *)
Definition type_ok (t : str) : Prop :=
  t <> [] /\ forallb is_lower_ascii t = true.

Definition entry_ok (e : BibEntry) : Prop :=
  type_ok (entry_type e) /\ fields_ok (fields e).

(** The year a record sorts by (0 when it has none) and its title in
    lower case. *)
Definition year_of (p : pub) : Z :=
  match dict_get p (lit "year") with
  | Some (VInt z) => z
  | _ => 0%Z
  end.

Definition title_key (p : pub) : str :=
  match dict_get p (lit "title") with
  | Some (VStr x) => lower x
  | _ => []
  end.

Definition key_of (p : pub) : sortkey := ((- year_of p)%Z, title_key p).

(** [a <= b] on [str], lexicographic on the code points. *)
Definition str_leb (a b : str) : bool := negb (str_ltb b a).

(** The composite order of the sort: a later year first, and within a
    year the titles ascending, case ignored. *)
Definition precedes (p q : pub) : Prop :=
  (year_of q < year_of p)%Z \/
  (year_of p = year_of q /\ str_leb (title_key p) (title_key q) = true).

Definition same_key (p q : pub) : bool :=
  (year_of p =? year_of q)%Z && str_eqb (title_key p) (title_key q).

(** Four decimal digits in a row somewhere in [x]. *)
Definition has_run4 (x : str) : Prop :=
  exists pre d1 d2 d3 d4 post,
    x = pre ++ [d1; d2; d3; d4] ++ post /\
    is_digit d1 = true /\ is_digit d2 = true /\
    is_digit d3 = true /\ is_digit d4 = true.

(** The leftmost four digits in a row, if any. *)
Fixpoint first_run4 (x : str) : option str :=
  match x with
  | [] => None
  | d1 :: r =>
      match r with
      | d2 :: d3 :: d4 :: _ =>
          if is_digit d1 && is_digit d2 && is_digit d3 && is_digit d4
          then Some [d1; d2; d3; d4]
          else first_run4 r
      | _ => first_run4 r
      end
  end.

(** The number four digits denote. *)
Definition value4 (d1 d2 d3 d4 : ascii) : Z :=
  (1000 * digit_value d1 + 100 * digit_value d2 + 10 * digit_value d3 + digit_value d4)%Z.

(** An entry with a title and, possibly, a year. *)
Definition titled (year : option str) (title : str) : BibEntry :=
  mkBibEntry (lit "article") (lit "k")
    (match year with
     | Some y => [(lit "title", title); (lit "year", y)]
     | None => [(lit "title", title)]
     end).

(** [a <= b] on decorated items: the key of [b] is not below that of [a]. *)
Definition key_le {A : Type} (a b : sortkey * A) : Prop :=
  key_ltb (fst b) (fst a) = false.

(** A test that holds of items of one key only. *)
Definition one_key {A : Type} (f : sortkey * A -> bool) : Prop :=
  forall a b, f a = true -> f b = true -> fst a = fst b.

(** The decoration of an item is the key of the item. *)
Definition key_eqb_pair (kp : sortkey * pub) : bool :=
  (fst (fst kp) =? fst (key_of (snd kp)))%Z
  && str_eqb (snd (fst kp)) (snd (key_of (snd kp))).

(** A value that is neither [None] nor empty. *)
Definition nonnull (v : pyval) : bool :=
  match v with
  | VStr [] | VList [] | VDict [] | VNone => false
  | _ => true
  end.

(** An item of a record that may stay: [title], [type], or a value that
    is not empty. *)
Definition item_ok (kv : str * pyval) : bool :=
  str_eqb (fst kv) (lit "title") || str_eqb (fst kv) (lit "type") || nonnull (snd kv).

(** The entry of the round-trip example and its record. *)
Definition study_bib : str :=
  lit "@article{k2023, title={A Study}, author={A. One and B. Two}, year={2023}, journal={Nature}, doi={10.1/x}}".

Definition study_pub : pub :=
  [ (lit "title", VStr (lit "A Study"));
    (lit "authors", VList [lit "A. One"; lit "B. Two"]);
    (lit "year", VInt 2023);
    (lit "venue", VStr (lit "Nature"));
    (lit "type", VStr (lit "article"));
    (lit "links", VDict [(lit "doi", lit "10.1/x")]) ].

(** An entry whose title is the empty pair of braces. *)
Definition empty_title_bib : str := lit "@misc{k, title={}}".

(** The text of the [.js] artifact around the compact JSON [body]: the
    header line, the assignment prefix, the body, a semicolon and a new
    line. *)
Definition js_text (body : str) : str :=
  lit "// Auto-generated from BibTeX. Do not edit by hand." ++ [LF]
  ++ lit "window.PUBLICATIONS = " ++ body ++ lit ";" ++ [LF].

(** [outp] ends in [.json], whatever the case of the letters: it is
    [stem] followed by a suffix that is [.json] in lower case. *)
Definition json_suffixed (outp stem : str) : Prop :=
  exists suffix, outp = stem ++ suffix /\ lower suffix = lit ".json".

(** An entry without the comma after its key, followed by a well-formed
    entry. *)
Definition swallowed_bib : str :=
  lit "@article{a}" ++ [LF] ++ lit "@book{b, title={T}}".

Definition book_bib : str := lit "@book{b, title={T}}".

Definition book_entry : BibEntry :=
  mkBibEntry (lit "book") (lit "b") [(lit "title", lit "T")].

(** A text whose first [@] has no entry type behind it. *)
Definition bad_header_bib : str := lit "@12{k, a=b} @book{b, title={T}}".

(** The same text from behind that [@], and a prefix without any [@]. *)
Definition after_bad_header : str := lit "12{k, a=b} @book{b, title={T}}".

(** A field block whose second field has no name. *)
Definition bad_field_block : str := lit " title={T}, =oops, note={N}".

(** Stand-ins for a run of [main]: a serializer that only counts the
    records, and a file system with one input. *)
Definition count_dumps (indent : option nat) (pubs : list pub) : str :=
  decimal (length pubs).

Definition one_file : dict str := [(lit "refs.bib", study_bib)].

(** The characters of the lines, one more for each line. *)
Definition lines_size (ls : list str) : nat :=
  fold_right (fun l acc => length l + 1 + acc) 0 ls.

(** [spec P F r]: [r] raises nothing; if it is a value, [P] holds of it;
    if the fuel ran out, [F] holds (the fuel was too small). *)
Definition spec {A : Type} (P : A -> Prop) (F : Prop) (r : result A) : Prop :=
  match r with
  | Ok a => P a
  | Raise _ => False
  | OutOfFuel => F
  end.

(** * Further vocabulary: what the parser and the projection keep *)

(** A character of a stored field name after its first one. *)
Definition is_key_char (c : ascii) : bool :=
  is_lower_ascii c || is_digit c || (code c =? 95)%N || (code c =? 45)%N.

(** A stored field name: a lower-case ASCII letter, then lower-case
    letters, digits, underscores and hyphens. *)
Definition key_ok (k : str) : bool :=
  match k with
  | c :: r => is_lower_ascii c && forallb is_key_char r
  | [] => false
  end.

(** No white space at either end. *)
Definition trimmed (x : str) : Prop := strip x = x.

(** The white space of [x] is plain spaces only. *)
Definition plain_spaces (x : str) : bool :=
  forallb (fun c => negb (isspace c) || ceq c " "%char) x.

Definition field_wf (kv : str * str) : Prop :=
  key_ok (fst kv) = true /\ trimmed (snd kv) /\ plain_spaces (snd kv) = true.

(** A field map: no key twice, every item well formed. *)
Definition fields_wf (f : dict str) : Prop :=
  NoDup (map fst f) /\ Forall field_wf f.

Definition citekey_wf (k : str) : Prop := trimmed k /\ ~ In COMMA k.

(** The first character is not white space. *)
Definition no_lead (x : str) : Prop :=
  match x with
  | c :: _ => isspace c = false
  | [] => True
  end.

(** A line of text: no line boundary in it. *)
Definition one_line (x : str) : Prop := forallb (fun c => negb (is_linebreak c)) x = true.

(** A full-line comment: a line whose first character after the leading
    white space is the percent sign. *)
Definition comment_line (x : str) : Prop :=
  one_line x /\ startswith (lit "%") (lstrip x) = true.

(** [sep] occurs in [x]. *)
Definition contains (sep x : str) : Prop := exists u w, x = u ++ sep ++ w.

(** [a] is [b] with some items left out, the order kept. *)
Fixpoint subseq (a b : list str) : bool :=
  match a, b with
  | [], _ => true
  | _ :: _, [] => false
  | x :: a', y :: b' => if str_eqb x y then subseq a' b' else subseq a b'
  end.

(** The keys of a record, in the order of the literal in the source. *)
Definition record_keys : list str :=
  [lit "title"; lit "authors"; lit "year"; lit "venue"; lit "type"; lit "links"].


(** A separator between fields that is not a line boundary. *)
Definition is_pad (c : ascii) : bool := char_in c [TAB; " "%char; COMMA].



(** A field name as the pattern wants it. *)
Definition name_shape (name : str) : Prop :=
  match name with
  | c :: r => is_alpha c = true /\ forallb is_name_char r = true
  | [] => False
  end.

(** The text of an entry with one field whose value is in braces. *)
Definition braced_entry (ty key pad name body : str) : str :=
  "@"%char :: ty ++ LBRACE :: key ++ COMMA :: pad ++ name
  ++ "="%char :: LBRACE :: body ++ [RBRACE; RBRACE].



(** * Further vocabulary: runs of digits, balanced braces, entries in a row *)

(** The words of the specification for the year: a run of exactly four
    digits, that is four digits in a row with no digit right before them
    and none right after. *)
Definition exact_run4 (x : str) : Prop :=
  exists pre d1 d2 d3 d4 post,
    x = pre ++ [d1; d2; d3; d4] ++ post /\
    is_digit d1 && is_digit d2 && is_digit d3 && is_digit d4 = true /\
    match rev pre with c :: _ => is_digit c = false | [] => True end /\
    match post with c :: _ => is_digit c = false | [] => True end.

(** A character the field loop skips before a field name. *)
Definition is_separator (c : ascii) : bool := char_in c [LF; CR; TAB; " "%char; COMMA].

(** The brace depth behind [x], starting from [depth], when it stays
    above zero all along [x]. *)
Fixpoint stays_open (x : str) (depth : Z) : option Z :=
  match x with
  | [] => Some depth
  | c :: r =>
      let d := if ceq c LBRACE then (depth + 1)%Z
               else if ceq c RBRACE then (depth - 1)%Z else depth in
      if (0 <? d)%Z then stays_open r d else None
  end.

(** The braces of a field block are balanced: inside the entry the depth
    never falls to zero and it is back at one at the end. *)
Definition balanced (x : str) : Prop := stays_open x 1 = Some 1%Z.

(** The text of an entry with a field in braces, a comma and then [junk]
    where the next field should be. *)
Definition truncated_entry (ty key pad name body junk : str) : str :=
  "@"%char :: ty ++ LBRACE :: key ++ COMMA :: pad ++ name
  ++ "="%char :: LBRACE :: body ++ RBRACE :: COMMA :: junk ++ [RBRACE].

(** A field block of two fields in braces. *)
Definition two_fields (pad1 name1 body1 pad2 name2 body2 : str) : str :=
  pad1 ++ name1 ++ "="%char :: LBRACE :: body1 ++ RBRACE :: COMMA
  :: pad2 ++ name2 ++ "="%char :: LBRACE :: body2 ++ [RBRACE].

(** An entry whose second field has no name, followed by a well-formed
    entry, and the entry it is read as. *)
Definition bad_field_bib : str :=
  lit "@misc{k, a={x}, =oops, b={y}}" ++ [LF] ++ book_bib.

Definition misc_entry : BibEntry :=
  mkBibEntry (lit "misc") (lit "k") [(lit "a", lit "x")].

(** A well-formed entry followed by an entry without any comma. *)
Definition no_comma_bib : str := book_bib ++ [LF] ++ lit "@article{a}".

(** * Properties *)

(** ** A small program logic for [result] *)

Lemma spec_bind {A B : Type} (P : A -> Prop) (Q : B -> Prop) (F : Prop)
      (m : result A) (k : A -> result B) :
  spec P F m -> (forall a, P a -> spec Q F (k a)) -> spec Q F (bind m k).
Proof.
  destruct m as [a| |]; simpl; intros Hm Hk; auto.
Qed.

Lemma spec_weaken {A : Type} (P P' : A -> Prop) (F F' : Prop) (r : result A) :
  spec P F r -> (forall a, P a -> P' a) -> (F -> F') -> spec P' F' r.
Proof.
  destruct r as [a| |]; simpl; auto.
Qed.

Lemma spec_ok {A : Type} (P : A -> Prop) (F : Prop) (r : result A) :
  spec P F r -> ~ F -> exists a, r = Ok a /\ P a.
Proof.
  destruct r as [a| |]; simpl; intros H HF; try contradiction; eauto.
Qed.

Lemma spec_no_raise {A : Type} (P : A -> Prop) (F : Prop) (r : result A) e :
  spec P F r -> r <> Raise e.
Proof.
  destruct r; simpl; intros H; try discriminate; contradiction.
Qed.

Lemma get_in_range (text : str) (i : nat) :
  i < length text -> exists c, get text i = Ok c.
Proof.
  intros H. unfold get.
  destruct (nth_error text i) eqn:E; eauto.
  apply nth_error_None in E. lia.
Qed.

(** ** Characters *)

Lemma ceq_true (a b : ascii) : ceq a b = true <-> a = b.
Proof. apply Ascii.eqb_eq. Qed.

Lemma str_eqb_true (a b : str) : str_eqb a b = true <-> a = b.
Proof.
  revert b; induction a as [|x a IH]; intros [|y b]; simpl; split; intros H;
    try discriminate; auto.
  - apply andb_true_iff in H as [H1 H2].
    apply ceq_true in H1. apply IH in H2. congruence.
  - injection H as -> ->. apply andb_true_iff. split.
    + now apply ceq_true.
    + now apply IH.
Qed.

Lemma lower_alpha_is_lower (c : ascii) :
  is_alpha c = true -> is_lower_ascii (lower_char c) = true.
Proof.
  destruct c as [[|] [|] [|] [|] [|] [|] [|] [|]]; vm_compute; congruence.
Qed.

Lemma digit_not_space (c : ascii) : is_digit c = true -> isspace c = false.
Proof.
  destruct c as [[|] [|] [|] [|] [|] [|] [|] [|]]; vm_compute; congruence.
Qed.

(** ** The scanning loops: no exception, forward only, bounded fuel *)

Ltac loop_step IH :=
  match goal with
  | |- context [?i <? length ?text] =>
      destruct (Nat.ltb_spec i (length text)) as [Hlt|Hge]; simpl; [|lia];
      destruct (get_in_range text Hlt) as [ch Hch]; rewrite ?Hch; simpl
  end.

Ltac by_IH IH :=
  eapply spec_weaken; [apply IH | simpl; intros; lia | simpl; intros; lia].

Lemma skip_spaces_spec (k : nat) (text : str) (i : nat) :
  spec (fun i' => i <= i') (k <= length text - i) (skip_spaces k text i).
Proof.
  revert i; induction k as [|k IH]; intros i; simpl; [lia|].
  loop_step IH. destruct (isspace ch); simpl; [by_IH IH | lia].
Qed.

Lemma scan_braces_spec (k : nat) (text : str) (i : nat) (depth : Z) :
  spec (fun i' => i <= i') (k <= length text - i) (scan_braces k text i depth).
Proof.
  revert i depth; induction k as [|k IH]; intros i depth; simpl; [lia|].
  loop_step IH.
  destruct (ceq ch LBRACE); [by_IH IH|].
  destruct (ceq ch RBRACE); [|by_IH IH].
  destruct (depth - 1 =? 0)%Z; simpl; [lia | by_IH IH].
Qed.

Lemma scan_quoted_spec (k : nat) (text : str) (start i : nat) (escaped : bool) :
  spec (fun r => i <= snd r /\ fst r <> []) (k <= length text - i)
       (scan_quoted k text start i escaped).
Proof.
  revert i escaped; induction k as [|k IH]; intros i escaped; simpl; [lia|].
  destruct (Nat.ltb_spec i (length text)) as [Hlt|Hge]; simpl;
    [|split; [lia | discriminate]].
  destruct (get_in_range text Hlt) as [ch Hch]; rewrite Hch; simpl.
  destruct escaped.
  { eapply spec_weaken; [apply IH | simpl; intros a [? ?]; split; [lia|auto] | lia]. }
  destruct (ceq ch BACKSLASH).
  { eapply spec_weaken; [apply IH | simpl; intros a [? ?]; split; [lia|auto] | lia]. }
  destruct (ceq ch DQUOTE); simpl.
  { split; [lia | discriminate]. }
  eapply spec_weaken; [apply IH | simpl; intros a [? ?]; split; [lia|auto] | lia].
Qed.

Lemma scan_bareword_spec (k : nat) (text : str) (i : nat) :
  spec (fun i' => i <= i') (k <= length text - i) (scan_bareword k text i).
Proof.
  revert i; induction k as [|k IH]; intros i; simpl; [lia|].
  loop_step IH.
  destruct (negb (char_in ch [COMMA; LF; CR; RBRACE])); simpl; [by_IH IH | lia].
Qed.

Lemma scan_entry_spec (k : nat) (raw : str) (i : nat) (depth : Z) :
  spec (fun i' => i <= i') (k <= length raw - i) (scan_entry k raw i depth).
Proof.
  revert i depth; induction k as [|k IH]; intros i depth; simpl; [lia|].
  destruct (Nat.ltb_spec i (length raw)) as [Hlt|Hge]; simpl; [|lia].
  destruct (0 <? depth)%Z; simpl; [|lia].
  destruct (get_in_range raw Hlt) as [ch Hch]; rewrite Hch; simpl.
  destruct (ceq ch LBRACE); [by_IH IH|].
  destruct (ceq ch RBRACE); by_IH IH.
Qed.

Lemma skip_separators_spec (k : nat) (text : str) (j : nat) :
  spec (fun j' => j <= j') (k <= length text - j) (skip_separators k text j).
Proof.
  revert j; induction k as [|k IH]; intros j; simpl; [lia|].
  loop_step IH.
  destruct (char_in ch [LF; CR; TAB; " "%char; COMMA]); simpl; [by_IH IH | lia].
Qed.

Lemma skip_to_comma_spec (k : nat) (text : str) (j : nat) :
  spec (fun j' => j <= j') (k <= length text - j) (skip_to_comma k text j).
Proof.
  revert j; induction k as [|k IH]; intros j; simpl; [lia|].
  loop_step IH.
  destruct (negb (char_in ch [COMMA])); simpl; [|lia].
  destruct (ceq ch LF); simpl; [lia | by_IH IH].
Qed.

(** ** Values, field names and the field loop *)

Lemma _strip_outer_braces_total (value : str) :
  exists v, _strip_outer_braces value = Ok v.
Proof.
  unfold _strip_outer_braces.
  set (w := rstrip_commas (strip value)).
  destruct (Nat.leb_spec 2 (length w)) as [H|H]; [|eauto].
  destruct (@get_in_range w 0) as [c0 H0]; [lia|].
  destruct (@get_in_range w (length w - 1)) as [c1 H1]; [lia|].
  rewrite H0, H1. simpl.
  destruct (_ || _); eauto.
Qed.

Lemma _parse_value_spec (fuel : nat) (text : str) (i : nat) :
  spec (fun r => i <= snd r) (fuel <= length text) (_parse_value fuel text i).
Proof.
  unfold _parse_value.
  eapply spec_bind with (P := fun i1 => i <= i1).
  { eapply spec_weaken; [apply skip_spaces_spec | auto | lia]. }
  intros i1 Hi1.
  destruct (Nat.leb_spec (length text) i1) as [Hge|Hlt]; simpl; [lia|].
  destruct (get_in_range text Hlt) as [ch Hch]; rewrite Hch; simpl.
  destruct (ceq ch LBRACE).
  { eapply spec_bind with (P := fun i2 => i1 <= i2).
    - eapply spec_weaken; [apply scan_braces_spec | auto | lia].
    - intros i2 Hi2. simpl. lia. }
  destruct (ceq ch DQUOTE).
  { eapply spec_weaken;
      [apply scan_quoted_spec | intros [v i2] [? _]; simpl in *; lia | intros; lia]. }
  eapply spec_bind with (P := fun i2 => i1 <= i2).
  - eapply spec_weaken; [apply scan_bareword_spec | auto | lia].
  - intros i2 Hi2. simpl. lia.
Qed.

Lemma match_field_name_end (x g : str) (mend : nat) :
  match_field_name x = Some (g, mend) -> 1 <= mend.
Proof.
  unfold match_field_name. destruct x as [|c r]; [discriminate|].
  destruct (is_alpha c); [|discriminate].
  destruct (skipn _ _) as [|e ?]; [discriminate|].
  destruct (ceq e "="%char); [|discriminate].
  intros H. injection H as _ <-. lia.
Qed.

Lemma dict_get_set {V : Type} (d : dict V) (k k' : str) (v v' : V) :
  dict_get (dict_set d k v) k' = Some v' ->
  (k' = k /\ v' = v) \/ dict_get d k' = Some v'.
Proof.
  induction d as [|[k0 v0] d IH]; simpl.
  - destruct (str_eqb k k') eqn:E; [|discriminate].
    apply str_eqb_true in E. intros H. injection H as <-. auto.
  - destruct (str_eqb k0 k) eqn:E0; simpl.
    + apply str_eqb_true in E0. subst k0.
      destruct (str_eqb k k') eqn:E; auto.
      apply str_eqb_true in E. intros H. injection H as <-. auto.
    + destruct (str_eqb k0 k'); auto.
Qed.

Lemma fields_ok_nil : fields_ok [].
Proof. intros k v H. discriminate. Qed.

Lemma fields_ok_set (f : dict str) (name value stripped : str) :
  fields_ok f -> value <> [] -> _strip_outer_braces value = Ok stripped ->
  fields_ok (dict_set f (lower name) (_clean_tex stripped)).
Proof.
  intros Hf Hv Hs k v H.
  apply dict_get_set in H as [[-> ->]|H]; [|now apply Hf].
  exists name, value, stripped. auto.
Qed.

Lemma field_body_spec (fuel : nat) (ft : str) (j : nat) (fields : dict str) :
  fields_ok fields ->
  spec (fun st => match st with
                  | FieldBreak => True
                  | FieldNext j' fields' => j < j' /\ fields_ok fields'
                  end)
       (fuel <= length ft) (field_body fuel ft j fields).
Proof.
  intros Hf. unfold field_body.
  eapply spec_bind with (P := fun j1 => j <= j1).
  { eapply spec_weaken; [apply skip_separators_spec | auto | lia]. }
  intros j1 Hj1.
  destruct (length ft <=? j1); simpl; auto.
  destruct (match_field_name (skipn j1 ft)) as [[g mend]|] eqn:Ename; simpl; auto.
  apply match_field_name_end in Ename.
  eapply spec_bind with (P := fun r => j1 + mend <= snd r).
  { apply _parse_value_spec. }
  intros [value j3] Hj3. simpl in Hj3.
  eapply spec_bind with (P := fields_ok).
  { destruct value as [|c value]; simpl; auto.
    destruct (_strip_outer_braces_total (c :: value)) as [v Hv].
    rewrite Hv. simpl. apply fields_ok_set with (value := c :: value); auto.
    discriminate. }
  intros fields' Hf'.
  eapply spec_bind with (P := fun j4 => j3 <= j4).
  { eapply spec_weaken; [apply skip_to_comma_spec | auto | lia]. }
  intros j4 Hj4.
  eapply spec_bind with (P := fun j5 => j4 <= j5).
  { destruct (Nat.ltb_spec j4 (length ft)) as [Hlt|Hge]; simpl; [|lia].
    destruct (get_in_range ft Hlt) as [ch Hch]; rewrite Hch; simpl.
    destruct (ceq ch COMMA); lia. }
  intros j5 Hj5. simpl. split; [lia | auto].
Qed.

Lemma field_loop_spec (k fuel : nat) (ft : str) (j : nat) (fields : dict str) :
  fields_ok fields ->
  spec fields_ok (fuel <= length ft \/ k <= length ft - j)
       (field_loop k fuel ft j fields).
Proof.
  revert j fields; induction k as [|k IH]; intros j fields Hf; simpl; [lia|].
  destruct (Nat.ltb_spec j (length ft)) as [Hlt|Hge]; simpl; auto.
  eapply spec_bind.
  { eapply spec_weaken; [apply field_body_spec; exact Hf | intros a Ha; exact Ha | auto]. }
  intros [|j' fields'] Hst; simpl; auto.
  destruct Hst as [Hj Hf'].
  eapply spec_weaken; [apply IH; exact Hf' | auto | lia].
Qed.

(** ** The main loop *)

Lemma slice_length (x : str) (a b : nat) : length (slice x a b) <= length x.
Proof.
  unfold slice. rewrite length_firstn, length_skipn. lia.
Qed.

Lemma find_in_ge (c : ascii) (x : str) (pos p : nat) :
  find_in c x pos = Some p -> pos <= p.
Proof.
  revert pos; induction x as [|d x IH]; intros pos; simpl; [discriminate|].
  destruct (ceq d c).
  - intros H. injection H as <-. lia.
  - intros H. apply IH in H. lia.
Qed.

Lemma find_ge (c : ascii) (x : str) (i p : nat) : find c x i = Some p -> i <= p.
Proof. apply find_in_ge. Qed.

Lemma take_while_all (p : ascii -> bool) (x : str) :
  forallb p (take_while p x) = true.
Proof.
  induction x as [|c x IH]; simpl; auto.
  destruct (p c) eqn:E; simpl; auto. now rewrite E.
Qed.

Lemma match_entry_type_group (x g : str) (mend : nat) :
  match_entry_type x = Some (g, mend) -> g <> [] /\ forallb is_alpha g = true.
Proof.
  unfold match_entry_type.
  pose proof (take_while_all is_alpha x) as Hall.
  destruct (take_while is_alpha x) as [|c g0]; [discriminate|].
  destruct (skipn _ x) as [|d ?]; [discriminate|].
  destruct (ceq d LBRACE); [|discriminate].
  intros H. injection H as <- _. split; [discriminate | exact Hall].
Qed.

Lemma lower_letters_type_ok (g : str) :
  g <> [] -> forallb is_alpha g = true -> type_ok (lower g).
Proof.
  intros Hne Hall. split.
  - destruct g; [contradiction | discriminate].
  - unfold lower. clear Hne. induction g as [|c g IH]; simpl; auto.
    simpl in Hall. apply andb_true_iff in Hall as [Hc Hg].
    rewrite (lower_alpha_is_lower c Hc). simpl. auto.
Qed.

Lemma main_body_spec (fuel : nat) (raw : str) (i : nat) (entries : list BibEntry) :
  Forall entry_ok entries ->
  spec (fun st => match st with
                  | MainBreak => True
                  | MainNext i' entries' =>
                      i < i' /\ Forall entry_ok entries' /\
                      exists new, entries' = entries ++ new
                  end)
       (fuel <= length raw) (main_body fuel raw i entries).
Proof.
  intros Hes. unfold main_body.
  destruct (find "@"%char raw i) as [at_|] eqn:Eat; simpl; auto.
  apply find_ge in Eat.
  destruct (match_entry_type _) as [[g mend]|] eqn:Etype; simpl.
  2: { split; [lia|]. split; [auto|]. exists []. now rewrite app_nil_r. }
  apply match_entry_type_group in Etype as [Hne Hall].
  destruct (find COMMA raw (at_ + 1 + mend)) as [comma|] eqn:Ecomma; simpl; auto.
  apply find_ge in Ecomma.
  eapply spec_bind with (P := fun i1 => comma + 1 <= i1).
  { eapply spec_weaken; [apply scan_entry_spec | auto | intros; lia]. }
  intros i1 Hi1.
  eapply spec_bind with (P := fields_ok).
  { eapply spec_weaken; [apply field_loop_spec, fields_ok_nil | auto |].
    pose proof (slice_length raw (comma + 1) (i1 - 1)). lia. }
  intros fields Hf. simpl. split; [lia|]. split.
  - apply Forall_app. split; auto. constructor; auto.
    split; simpl; auto. now apply lower_letters_type_ok.
  - eauto.
Qed.

Lemma main_loop_spec (k fuel : nat) (raw : str) (i : nat) (entries : list BibEntry) :
  Forall entry_ok entries ->
  spec (fun es => Forall entry_ok es /\ exists new, es = entries ++ new)
       (fuel <= length raw \/ k <= length raw - i)
       (main_loop k fuel raw i entries).
Proof.
  revert i entries; induction k as [|k IH]; intros i entries Hes; simpl; [lia|].
  assert (Hrefl : exists new, entries = entries ++ new)
    by (exists []; now rewrite app_nil_r).
  destruct (Nat.ltb_spec i (length raw)) as [Hlt|Hge]; simpl; auto.
  eapply spec_bind.
  { eapply spec_weaken; [apply main_body_spec; exact Hes | intros a Ha; exact Ha | auto]. }
  intros [|i' entries'] Hst; simpl; auto.
  destruct Hst as (Hi & Hes' & new & ->).
  eapply spec_weaken; [apply IH; exact Hes' | | lia].
  intros es [H1 [new' ->]]. split; auto.
  exists (new ++ new'). now rewrite app_assoc.
Qed.

(** ** The comment filter does not lengthen the text *)

Lemma splitlines_from_size_le (n : nat) :
  forall (raw cur : str) (started : bool),
    length raw <= n ->
    lines_size (splitlines_from raw cur started) <= length raw + length cur + 1.
Proof.
  induction n as [|n IH]; intros raw cur started Hn.
  - destruct raw; [|simpl in Hn; lia]. simpl. destruct started; simpl; lia.
  - destruct raw as [|c r]; [simpl; destruct started; simpl; lia|].
    simpl in Hn. cbn [splitlines_from]. destruct (is_linebreak c).
    + destruct r as [|d r'].
      * simpl. lia.
      * destruct (ceq c CR && ceq d LF); cbn [lines_size fold_right].
        -- pose proof (IH r' [] false) as H. simpl in Hn.
           unfold lines_size in H. simpl in *. lia.
        -- pose proof (IH (d :: r') [] false) as H.
           unfold lines_size in H. simpl in *. lia.
    + pose proof (IH r (cur ++ [c]) true) as H.
      rewrite length_app in H. simpl in *. lia.
Qed.

Lemma lines_size_filter (p : str -> bool) (ls : list str) :
  lines_size (filter p ls) <= lines_size ls.
Proof.
  induction ls as [|l ls IH]; simpl; auto.
  destruct (p l); simpl; lia.
Qed.

Lemma join_length (ls : list str) : length (join [LF] ls) <= lines_size ls - 1.
Proof.
  induction ls as [|l ls IH]; simpl; auto.
  destruct ls as [|l' ls'].
  - simpl. lia.
  - rewrite !length_app. simpl in *. lia.
Qed.

Lemma drop_comment_lines_length (raw : str) :
  length (drop_comment_lines raw) <= length raw.
Proof.
  unfold drop_comment_lines, splitlines.
  etransitivity; [apply join_length|].
  pose proof (lines_size_filter
                (fun line => negb (startswith (lit "%") (lstrip line)))
                (splitlines_from raw [] false)).
  pose proof (@splitlines_from_size_le (length raw) raw [] false (le_n _)).
  simpl in *. lia.
Qed.

(** ** The parser as a whole *)

Lemma parse_bibtex_spec (fuel : nat) (raw : str) :
  spec (Forall entry_ok) (fuel <= length raw) (parse_bibtex fuel raw).
Proof.
  unfold parse_bibtex.
  eapply spec_weaken; [apply main_loop_spec; constructor | intros es [H _]; exact H |].
  pose proof (drop_comment_lines_length raw). lia.
Qed.

Lemma parse_bibtex_enough (raw : str) :
  exists es, parse_bibtex (enough raw) raw = Ok es /\ Forall entry_ok es.
Proof.
  apply spec_ok with (F := enough raw <= length raw).
  - apply parse_bibtex_spec.
  - unfold enough. lia.
Qed.

(** ** More fuel changes nothing *)

Lemma bind_ok_inv {A B : Type} (m : result A) (k : A -> result B) (b : B) :
  bind m k = Ok b -> exists a, m = Ok a /\ k a = Ok b.
Proof.
  destruct m as [a| |]; simpl; intros H; try discriminate; eauto.
Qed.

Ltac mono_loop IH :=
  let k' := fresh "k'" in
  let H := fresh "H" in
  let Hle := fresh "Hle" in
  intros k' Hle H;
  destruct k' as [|k']; [lia|];
  simpl in H |- *;
  repeat match goal with
         | H : context [if ?c then _ else _] |- _ =>
             destruct c; simpl in H |- *; auto
         | H : context [bind (get ?t ?i) _] |- _ =>
             destruct (get t i); simpl in H |- *; try discriminate
         end;
  try (eapply IH; [|exact H]; lia).

Lemma skip_spaces_mono (k : nat) (text : str) (i v : nat) :
  forall k', k <= k' -> skip_spaces k text i = Ok v -> skip_spaces k' text i = Ok v.
Proof.
  revert i; induction k as [|k IH]; intros i; [discriminate|]. mono_loop IH.
Qed.

Lemma scan_braces_mono (k : nat) (text : str) (i : nat) (depth : Z) (v : nat) :
  forall k', k <= k' ->
    scan_braces k text i depth = Ok v -> scan_braces k' text i depth = Ok v.
Proof.
  revert i depth; induction k as [|k IH]; intros i depth; [discriminate|]. mono_loop IH.
Qed.

Lemma scan_quoted_mono (k : nat) (text : str) (start i : nat) (escaped : bool)
      (v : str * nat) :
  forall k', k <= k' ->
    scan_quoted k text start i escaped = Ok v ->
    scan_quoted k' text start i escaped = Ok v.
Proof.
  revert i escaped; induction k as [|k IH]; intros i escaped; [discriminate|].
  mono_loop IH.
Qed.

Lemma scan_bareword_mono (k : nat) (text : str) (i v : nat) :
  forall k', k <= k' -> scan_bareword k text i = Ok v -> scan_bareword k' text i = Ok v.
Proof.
  revert i; induction k as [|k IH]; intros i; [discriminate|]. mono_loop IH.
Qed.

Lemma scan_entry_mono (k : nat) (raw : str) (i : nat) (depth : Z) (v : nat) :
  forall k', k <= k' ->
    scan_entry k raw i depth = Ok v -> scan_entry k' raw i depth = Ok v.
Proof.
  revert i depth; induction k as [|k IH]; intros i depth; [discriminate|]. mono_loop IH.
Qed.

Lemma skip_separators_mono (k : nat) (text : str) (j v : nat) :
  forall k', k <= k' ->
    skip_separators k text j = Ok v -> skip_separators k' text j = Ok v.
Proof.
  revert j; induction k as [|k IH]; intros j; [discriminate|]. mono_loop IH.
Qed.

Lemma skip_to_comma_mono (k : nat) (text : str) (j v : nat) :
  forall k', k <= k' -> skip_to_comma k text j = Ok v -> skip_to_comma k' text j = Ok v.
Proof.
  revert j; induction k as [|k IH]; intros j; [discriminate|]. mono_loop IH.
Qed.

Ltac inv_bind H :=
  let a := fresh "a" in
  let Ha := fresh "Ha" in
  apply bind_ok_inv in H; destruct H as (a & Ha & H).

Lemma _parse_value_mono (fuel fuel' : nat) (text : str) (i : nat) (v : str * nat) :
  fuel <= fuel' ->
  _parse_value fuel text i = Ok v -> _parse_value fuel' text i = Ok v.
Proof.
  intros Hle H. unfold _parse_value in *.
  inv_bind H. rewrite (skip_spaces_mono _ _ Hle Ha). simpl.
  destruct (length text <=? a); auto.
  destruct (get text a) as [ch| |]; simpl in *; try discriminate.
  destruct (ceq ch LBRACE).
  { inv_bind H. rewrite (scan_braces_mono _ _ _ Hle Ha0). exact H. }
  destruct (ceq ch DQUOTE).
  { now apply scan_quoted_mono with (k := fuel). }
  inv_bind H. rewrite (scan_bareword_mono _ _ Hle Ha0). exact H.
Qed.

Lemma field_body_mono (fuel fuel' : nat) (ft : str) (j : nat) (fields : dict str)
      (st : field_step) :
  fuel <= fuel' ->
  field_body fuel ft j fields = Ok st -> field_body fuel' ft j fields = Ok st.
Proof.
  intros Hle H. unfold field_body in *.
  inv_bind H. rewrite (skip_separators_mono _ _ Hle Ha). simpl.
  destruct (length ft <=? a); auto.
  destruct (match_field_name (skipn a ft)) as [[g mend]|]; auto.
  inv_bind H. rewrite (_parse_value_mono _ _ Hle Ha0). simpl.
  destruct a0 as [value j3].
  inv_bind H. rewrite Ha1. simpl.
  inv_bind H. rewrite (skip_to_comma_mono _ _ Hle Ha2). simpl.
  exact H.
Qed.

Lemma field_loop_mono (k fuel : nat) (ft : str) (j : nat) (fields v : dict str) :
  forall k' fuel', k <= k' -> fuel <= fuel' ->
    field_loop k fuel ft j fields = Ok v -> field_loop k' fuel' ft j fields = Ok v.
Proof.
  revert j fields; induction k as [|k IH]; intros j fields k' fuel' Hk Hf H;
    [discriminate|].
  destruct k' as [|k']; [lia|]. simpl in *.
  destruct (j <? length ft); auto.
  inv_bind H. rewrite (field_body_mono _ _ _ Hf Ha). simpl.
  destruct a as [|j' fields']; auto.
  eapply IH; [| |exact H]; lia.
Qed.

Lemma main_body_mono (fuel fuel' : nat) (raw : str) (i : nat)
      (entries : list BibEntry) (st : main_step) :
  fuel <= fuel' ->
  main_body fuel raw i entries = Ok st -> main_body fuel' raw i entries = Ok st.
Proof.
  intros Hle H. unfold main_body in *.
  destruct (find "@"%char raw i) as [at_|]; auto.
  destruct (match_entry_type _) as [[g mend]|]; auto.
  destruct (find COMMA raw _) as [comma|]; auto.
  inv_bind H. rewrite (scan_entry_mono _ _ _ Hle Ha). simpl.
  inv_bind H. rewrite (field_loop_mono _ _ _ Hle Hle Ha0). simpl.
  exact H.
Qed.

Lemma main_loop_mono (k fuel : nat) (raw : str) (i : nat)
      (entries v : list BibEntry) :
  forall k' fuel', k <= k' -> fuel <= fuel' ->
    main_loop k fuel raw i entries = Ok v -> main_loop k' fuel' raw i entries = Ok v.
Proof.
  revert i entries; induction k as [|k IH]; intros i entries k' fuel' Hk Hf H;
    [discriminate|].
  destruct k' as [|k']; [lia|]. simpl in *.
  destruct (i <? length raw); auto.
  inv_bind H. rewrite (main_body_mono _ _ _ Hf Ha). simpl.
  destruct a as [|i' entries']; auto.
  eapply IH; [| |exact H]; lia.
Qed.

Lemma parse_bibtex_mono (fuel fuel' : nat) (raw : str) (es : list BibEntry) :
  fuel <= fuel' -> parse_bibtex fuel raw = Ok es -> parse_bibtex fuel' raw = Ok es.
Proof.
  intros Hle. unfold parse_bibtex. now apply main_loop_mono.
Qed.

Lemma main_body_progress (fuel : nat) (raw : str) (i : nat) (entries : list BibEntry) :
  spec (fun st => match st with
                  | MainBreak => True
                  | MainNext i' _ => i < i'
                  end)
       (fuel <= length raw) (main_body fuel raw i entries).
Proof.
  unfold main_body.
  destruct (find "@"%char raw i) as [at_|] eqn:Eat; simpl; auto.
  apply find_ge in Eat.
  destruct (match_entry_type _) as [[g mend]|] eqn:Etype; simpl; [|lia].
  destruct (find COMMA raw (at_ + 1 + mend)) as [comma|] eqn:Ecomma; simpl; auto.
  apply find_ge in Ecomma.
  eapply spec_bind with (P := fun i1 => comma + 1 <= i1).
  { eapply spec_weaken; [apply scan_entry_spec | auto | intros; lia]. }
  intros i1 Hi1.
  eapply spec_bind with (P := fields_ok).
  { eapply spec_weaken; [apply field_loop_spec, fields_ok_nil | auto |].
    pose proof (slice_length raw (comma + 1) (i1 - 1)). lia. }
  intros fields Hf. simpl. lia.
Qed.

(** ** The parser never raises and always returns *)

(** C7: on every input text, arbitrarily malformed ones included,
    [parse_bibtex] raises no exception, whatever the fuel (no index out of
    range in it or in [_parse_value], no failed conversion), and with the
    fuel [enough raw] it returns a list of entries. *)
Theorem parse_bibtex_never_raises (raw : str) :
  (forall fuel e, parse_bibtex fuel raw <> Raise e) /\
  (forall fuel i e, _parse_value fuel raw i <> Raise e) /\
  (exists es, parse_bibtex (enough raw) raw = Ok es).
Proof.
  split; [|split].
  - intros fuel e. eapply spec_no_raise. apply parse_bibtex_spec.
  - intros fuel i e. eapply spec_no_raise. apply _parse_value_spec.
  - destruct (parse_bibtex_enough raw) as (es & H & _). eauto.
Qed.

(** C8: [parse_bibtex] terminates on every text: some list of entries is
    its result for every fuel above the length of the text.  Each pass of
    the main loop that does not leave it moves the scan position forward;
    in particular, when the entry-type pattern does not match after an
    [@], the pass ends right after that [@], at least one character
    further. *)
Theorem parse_bibtex_terminates (raw : str) :
  (exists es, forall fuel, length raw < fuel -> parse_bibtex fuel raw = Ok es) /\
  (forall fuel i entries i' entries',
      main_body fuel raw i entries = Ok (MainNext i' entries') -> i < i') /\
  (forall fuel i at_ entries,
      find "@"%char raw i = Some at_ ->
      match_entry_type (skipn (at_ + 1) raw) = None ->
      main_body fuel raw i entries = Ok (MainNext (at_ + 1) entries) /\
      i + 1 <= at_ + 1).
Proof.
  split; [|split].
  - destruct (parse_bibtex_enough raw) as (es & H & _).
    exists es. intros fuel Hf.
    apply parse_bibtex_mono with (fuel := enough raw); auto.
    unfold enough. lia.
  - intros fuel i entries i' entries' H.
    pose proof (main_body_progress fuel raw i entries) as Hp.
    rewrite H in Hp. exact Hp.
  - intros fuel i at_ entries Hat Hm. unfold main_body.
    rewrite Hat, Hm. split; auto.
    apply find_ge in Hat. lia.
Qed.

(** ** The order on the sort keys *)

Lemma code_inj (a b : ascii) : code a = code b -> a = b.
Proof.
  unfold code. intros H.
  rewrite <- (ascii_N_embedding a), <- (ascii_N_embedding b). now rewrite H.
Qed.

Lemma str_ltb_irrefl (a : str) : str_ltb a a = false.
Proof.
  induction a as [|x a IH]; simpl; auto.
  rewrite N.ltb_irrefl, N.eqb_refl, IH. reflexivity.
Qed.

Lemma str_ltb_trans (a b c : str) :
  str_ltb a b = true -> str_ltb b c = true -> str_ltb a c = true.
Proof.
  revert b c; induction a as [|x a IH]; intros [|y b] [|z c]; simpl; auto;
    try discriminate.
  intros H1 H2.
  apply orb_true_iff in H1. apply orb_true_iff in H2. apply orb_true_iff.
  destruct H1 as [H1|H1], H2 as [H2|H2].
  - left. apply N.ltb_lt in H1, H2. apply N.ltb_lt. lia.
  - apply andb_true_iff in H2 as [H2 _]. apply N.eqb_eq in H2.
    left. apply N.ltb_lt in H1. apply N.ltb_lt. lia.
  - apply andb_true_iff in H1 as [H1 _]. apply N.eqb_eq in H1.
    left. apply N.ltb_lt in H2. apply N.ltb_lt. lia.
  - apply andb_true_iff in H1 as [H1 H1']. apply andb_true_iff in H2 as [H2 H2'].
    right. apply N.eqb_eq in H1, H2. apply andb_true_iff. split.
    + apply N.eqb_eq. congruence.
    + eapply IH; eauto.
Qed.

Lemma str_ltb_total (a b : str) :
  str_ltb a b = false -> str_ltb b a = false -> a = b.
Proof.
  revert b; induction a as [|x a IH]; intros [|y b]; simpl; auto; try discriminate.
  intros H1 H2.
  apply orb_false_iff in H1 as [H1 H1']. apply orb_false_iff in H2 as [H2 H2'].
  apply N.ltb_ge in H1, H2.
  assert (E : code x = code y) by lia.
  rewrite E, N.eqb_refl in H1', H2'. simpl in *.
  apply code_inj in E. subst y. f_equal. now apply IH.
Qed.

Lemma str_leb_trans (a b c : str) :
  str_ltb b a = false -> str_ltb c b = false -> str_ltb c a = false.
Proof.
  intros H1 H2.
  destruct (str_ltb c a) eqn:Hca; auto.
  destruct (str_ltb a b) eqn:Hab.
  - rewrite (str_ltb_trans _ _ _ Hca Hab) in H2. discriminate.
  - assert (a = b) by (now apply str_ltb_total). subst b. congruence.
Qed.

Lemma key_ltb_irrefl (a : sortkey) : key_ltb a a = false.
Proof.
  unfold key_ltb. rewrite Z.ltb_irrefl, Z.eqb_refl, str_ltb_irrefl. reflexivity.
Qed.

Lemma key_leb_trans (a b c : sortkey) :
  key_ltb b a = false -> key_ltb c b = false -> key_ltb c a = false.
Proof.
  unfold key_ltb. destruct a as [ya ta], b as [yb tb], c as [yc tc]. simpl.
  intros H1 H2.
  apply orb_false_iff in H1 as [H1 H1']. apply orb_false_iff in H2 as [H2 H2'].
  apply Z.ltb_ge in H1, H2.
  apply orb_false_iff. split; [apply Z.ltb_ge; lia|].
  destruct (Z.eqb_spec yc ya) as [E|E]; simpl; auto.
  subst yc. assert (yb = ya) by lia. subst yb.
  rewrite Z.eqb_refl in H1', H2'. simpl in *.
  eapply str_leb_trans; eauto.
Qed.

Lemma key_ltb_asym (a b : sortkey) : key_ltb a b = true -> key_ltb b a = false.
Proof.
  unfold key_ltb. destruct a as [ya ta], b as [yb tb]. simpl.
  intros H. apply orb_true_iff in H. apply orb_false_iff.
  destruct H as [H|H].
  - apply Z.ltb_lt in H. split; [apply Z.ltb_ge; lia|].
    destruct (Z.eqb_spec yb ya); simpl; auto. lia.
  - apply andb_true_iff in H as [H H']. apply Z.eqb_eq in H. subst yb.
    rewrite Z.ltb_irrefl, Z.eqb_refl. simpl. split; auto.
    destruct (str_ltb tb ta) eqn:E; auto.
    pose proof (str_ltb_trans _ _ _ H' E) as C.
    rewrite str_ltb_irrefl in C. discriminate.
Qed.

(** ** The insertion sort: a sorted, stable permutation *)

Section Sort.

Variable A : Type.

Lemma insert_by_key_perm (x : sortkey * A) (l : list (sortkey * A)) :
  Permutation (x :: l) (insert_by_key x l).
Proof.
  induction l as [|y r IH]; simpl; auto.
  destruct (key_ltb (fst y) (fst x)); auto.
  rewrite perm_swap. now constructor.
Qed.

Lemma sort_decorated_perm (l : list (sortkey * A)) :
  Permutation l (sort_decorated l).
Proof.
  induction l as [|x r IH]; simpl; auto.
  rewrite <- insert_by_key_perm. now constructor.
Qed.

Lemma insert_by_key_sorted (x : sortkey * A) (l : list (sortkey * A)) :
  StronglySorted key_le l -> StronglySorted key_le (insert_by_key x l).
Proof.
  induction l as [|y r IH]; intros Hs; simpl.
  - repeat constructor.
  - inversion Hs as [|? ? Hr Hy]; subst.
    destruct (key_ltb (fst y) (fst x)) eqn:E.
    + constructor; [now apply IH|].
      rewrite <- insert_by_key_perm. constructor; auto.
      unfold key_le. now apply key_ltb_asym.
    + constructor; auto. constructor; [exact E|].
      eapply Forall_impl; [|exact Hy].
      intros z Hz. unfold key_le in *. eapply key_leb_trans; eauto.
Qed.

Lemma sort_decorated_sorted (l : list (sortkey * A)) :
  StronglySorted key_le (sort_decorated l).
Proof.
  induction l as [|x r IH]; simpl; [constructor|].
  now apply insert_by_key_sorted.
Qed.

Lemma insert_by_key_filter (f : sortkey * A -> bool) (x : sortkey * A)
      (l : list (sortkey * A)) :
  one_key f -> filter f (insert_by_key x l) = filter f (x :: l).
Proof.
  intros Hf. induction l as [|y r IH]; simpl; auto.
  destruct (key_ltb (fst y) (fst x)) eqn:E; simpl; auto.
  simpl in IH. rewrite IH.
  destruct (f y) eqn:Ey, (f x) eqn:Ex; auto.
  rewrite (Hf _ _ Ey Ex), key_ltb_irrefl in E. discriminate.
Qed.

Lemma sort_decorated_stable (f : sortkey * A -> bool) (l : list (sortkey * A)) :
  one_key f -> filter f (sort_decorated l) = filter f l.
Proof.
  intros Hf. induction l as [|x r IH]; simpl; auto.
  rewrite insert_by_key_filter by exact Hf. simpl. now rewrite IH.
Qed.

End Sort.

(** ** The keys of a publication record *)

Lemma pub_year_cases (e : BibEntry) :
  pub_year e = VNone \/ exists z, pub_year e = VInt z.
Proof.
  unfold pub_year. destruct (nonempty _); auto.
  destruct (bind _ _); eauto.
Qed.

Lemma entry_to_publication_lookup (e : BibEntry) :
  let p := entry_to_publication e in
  dict_get p (lit "title") = Some (VStr (pub_title e)) /\
  dict_get p (lit "type") = Some (VStr (entry_type e)) /\
  dict_get p (lit "authors")
    = match pub_authors e with [] => None | l => Some (VList l) end /\
  dict_get p (lit "year")
    = match pub_year e with VNone => None | v => Some v end /\
  dict_get p (lit "venue")
    = match pub_venue e with [] => None | v => Some (VStr v) end /\
  dict_get p (lit "links")
    = match pub_links e with [] => None | d => Some (VDict d) end.
Proof.
  unfold entry_to_publication.
  destruct (pub_year_cases e) as [Hy|[z Hy]]; rewrite Hy;
    generalize (pub_title e) (entry_type e); intros title type;
    destruct (pub_authors e) as [|a authors];
    destruct (pub_venue e) as [|c venue];
    destruct (pub_links e) as [|l links];
    repeat split; reflexivity.
Qed.

Lemma sort_key_projected (e : BibEntry) :
  sort_key (entry_to_publication e) = Ok (key_of (entry_to_publication e)).
Proof.
  destruct (entry_to_publication_lookup e) as (Ht & _ & _ & Hy & _).
  unfold sort_key, key_of, year_of, title_key.
  rewrite Ht, Hy. simpl.
  destruct (pub_year_cases e) as [H|[z H]]; rewrite H; reflexivity.
Qed.

Lemma decorate_projected (es : list BibEntry) :
  decorate (map entry_to_publication es)
  = Ok (map (fun p => (key_of p, p)) (map entry_to_publication es)).
Proof.
  induction es as [|e es IH]; simpl; auto.
  rewrite sort_key_projected. simpl. rewrite IH. reflexivity.
Qed.

Lemma key_le_precedes (p q : pub) :
  key_ltb (key_of q) (key_of p) = false -> precedes p q.
Proof.
  unfold key_ltb, key_of, precedes, str_leb. simpl. intros H.
  apply orb_false_iff in H as [H1 H2]. apply Z.ltb_ge in H1.
  destruct (Z.eqb_spec (- year_of q) (- year_of p)) as [E|E]; simpl in H2.
  - right. split; [lia|]. now rewrite H2.
  - left. lia.
Qed.

Lemma same_key_one_key (p : pub) :
  one_key (fun kp : sortkey * pub => same_key p (snd kp) && key_eqb_pair kp).
Proof.
  intros [ka a] [kb b]. unfold key_eqb_pair, same_key, key_of. simpl.
  intros Ha Hb.
  repeat match goal with
         | H : _ && _ = true |- _ => apply andb_true_iff in H; destruct H
         | H : (_ =? _)%Z = true |- _ => apply Z.eqb_eq in H
         | H : str_eqb _ _ = true |- _ => apply str_eqb_true in H
         end.
  destruct ka, kb; simpl in *. f_equal; congruence.
Qed.

Lemma key_eqb_pair_true (kp : sortkey * pub) :
  key_eqb_pair kp = true <-> fst kp = key_of (snd kp).
Proof.
  unfold key_eqb_pair, key_of. destruct kp as [[y t] p]. simpl.
  rewrite andb_true_iff, Z.eqb_eq, str_eqb_true. split.
  - intros [-> ->]. reflexivity.
  - intros H. injection H as -> ->. auto.
Qed.

Lemma sorted_keys_precede (l : list (sortkey * pub)) :
  StronglySorted key_le l ->
  Forall (fun kp => fst kp = key_of (snd kp)) l ->
  StronglySorted precedes (map snd l).
Proof.
  induction 1 as [|kp l Hs IH Hall]; intros Hk; simpl; [constructor|].
  inversion Hk as [|? ? Hkp Hl]; subst.
  constructor; [now apply IH|].
  apply Forall_map. rewrite Forall_forall in *.
  intros kq Hin. apply key_le_precedes.
  rewrite <- Hkp, <- (Hl _ Hin). now apply Hall.
Qed.

Lemma filter_map_snd (f : pub -> bool) (l : list (sortkey * pub)) :
  filter f (map snd l) = map snd (filter (fun kp => f (snd kp)) l).
Proof.
  induction l as [|kp l IH]; simpl; auto.
  destruct (f (snd kp)); simpl; now rewrite IH.
Qed.

Lemma sort_pubs_spec (pubs : list pub) :
  decorate pubs = Ok (map (fun p => (key_of p, p)) pubs) ->
  exists sorted,
    sort_pubs pubs = Ok sorted /\
    Permutation pubs sorted /\
    StronglySorted precedes sorted /\
    forall p, filter (same_key p) sorted = filter (same_key p) pubs.
Proof.
  intros Hd. unfold sort_pubs. rewrite Hd. simpl.
  set (l := map (fun p => (key_of p, p)) pubs).
  assert (Hsnd : map snd l = pubs).
  { unfold l. rewrite map_map. simpl. apply map_id. }
  assert (Hl : Forall (fun kp => fst kp = key_of (snd kp)) l).
  { unfold l. apply Forall_map. apply Forall_forall. reflexivity. }
  assert (Hs : Forall (fun kp => fst kp = key_of (snd kp)) (sort_decorated l)).
  { eapply Permutation_Forall; [apply sort_decorated_perm | exact Hl]. }
  eexists. split; [reflexivity|]. split; [|split].
  - rewrite <- Hsnd at 1. apply Permutation_map, sort_decorated_perm.
  - apply sorted_keys_precede; [apply sort_decorated_sorted | exact Hs].
  - intros p. rewrite <- Hsnd. rewrite !filter_map_snd. f_equal.
    transitivity (filter (fun kp => same_key p (snd kp) && key_eqb_pair kp)
                         (sort_decorated l)).
    + apply filter_ext_in. intros kp Hin.
      rewrite Forall_forall in Hs.
      rewrite (proj2 (key_eqb_pair_true kp) (Hs _ Hin)).
      now rewrite andb_true_r.
    + rewrite sort_decorated_stable by apply same_key_one_key.
      apply filter_ext_in. intros kp Hin.
      rewrite Forall_forall in Hl.
      rewrite (proj2 (key_eqb_pair_true kp) (Hl _ Hin)).
      now rewrite andb_true_r.
Qed.

(** C1 (as the code has it): the records of the projection are sorted,
    stably, by the composite key: the year descending, a missing year
    counting as 0, then the title ascending with the case ignored.  The
    result is a permutation of the records, every record precedes those
    after it, and records of one key keep their order.  For the years
    2020, 2022 and none with the titles B, A and C the order is 2022 (A),
    2020 (B), none (C): a record without a year sorts as year 0, after the
    dated ones. *)
Theorem sort_by_year_descending_then_title (es : list BibEntry) :
  let pubs := map entry_to_publication es in
  (exists sorted,
      sort_pubs pubs = Ok sorted /\
      Permutation pubs sorted /\
      StronglySorted precedes sorted /\
      forall p, filter (same_key p) sorted = filter (same_key p) pubs) /\
  sort_pubs (map entry_to_publication
               [titled (Some (lit "2020")) (lit "B");
                titled (Some (lit "2022")) (lit "A");
                titled None (lit "C")])
  = Ok (map entry_to_publication
          [titled (Some (lit "2022")) (lit "A");
           titled (Some (lit "2020")) (lit "B");
           titled None (lit "C")]).
Proof.
  split.
  - apply sort_pubs_spec, decorate_projected.
  - vm_compute. reflexivity.
Qed.

(** C1, the claim as the specification words it, fails: the sorted order
    of the three records is 2022 (A), 2020 (B), none (C), which is not the
    order with the record without a year first. *)
Lemma missing_year_does_not_sort_first :
  sort_pubs (map entry_to_publication
               [titled (Some (lit "2020")) (lit "B");
                titled (Some (lit "2022")) (lit "A");
                titled None (lit "C")])
  = Ok (map entry_to_publication
          [titled (Some (lit "2022")) (lit "A");
           titled (Some (lit "2020")) (lit "B");
           titled None (lit "C")]) /\
  map entry_to_publication
      [titled (Some (lit "2022")) (lit "A");
       titled (Some (lit "2020")) (lit "B");
       titled None (lit "C")]
  <> map entry_to_publication
         [titled None (lit "C");
          titled (Some (lit "2022")) (lit "A");
          titled (Some (lit "2020")) (lit "B")].
Proof.
  split; [vm_compute; reflexivity|].
  vm_compute. discriminate.
Qed.

(** C5: every record of the projection has the keys [title] and [type],
    whose values may be empty; each of [authors], [year], [venue] and
    [links] is in the record exactly when its value is not empty (not
    [None] for the year), and then with that value; no item other than
    [title] and [type] holds an empty list, text or dictionary, or
    [None]. *)
Theorem record_keys_present_iff_nonempty (e : BibEntry) :
  let p := entry_to_publication e in
  dict_get p (lit "title") = Some (VStr (pub_title e)) /\
  dict_get p (lit "type") = Some (VStr (entry_type e)) /\
  dict_get p (lit "authors")
    = match pub_authors e with [] => None | l => Some (VList l) end /\
  dict_get p (lit "year")
    = match pub_year e with VNone => None | v => Some v end /\
  dict_get p (lit "venue")
    = match pub_venue e with [] => None | v => Some (VStr v) end /\
  dict_get p (lit "links")
    = match pub_links e with [] => None | d => Some (VDict d) end /\
  (pub_year e = VNone \/ exists z, pub_year e = VInt z) /\
  forallb item_ok p = true.
Proof.
  intros p.
  destruct (entry_to_publication_lookup e) as (H1 & H2 & H3 & H4 & H5 & H6).
  repeat (split; [assumption|]).
  split; [apply pub_year_cases|].
  unfold p, entry_to_publication.
  destruct (pub_year_cases e) as [Hy|[z Hy]]; rewrite Hy;
    generalize (pub_title e) (entry_type e); intros title type;
    destruct (pub_authors e) as [|a authors];
    destruct (pub_venue e) as [|c venue];
    destruct (pub_links e) as [|l links];
    reflexivity.
Qed.

(** C10: the [type] of every record that [main] writes is a non-empty
    text of lower-case ASCII letters: the parser makes an entry only when
    the type matches the letters-only pattern, and stores it in lower
    case. *)
Theorem emitted_type_is_lowercase_letters (raw : str) :
  exists pubs,
    publications (enough raw) raw = Ok pubs /\
    Forall (fun p => exists t,
                dict_get p (lit "type") = Some (VStr t) /\
                t <> [] /\ forallb is_lower_ascii t = true) pubs.
Proof.
  destruct (parse_bibtex_enough raw) as (es & Hparse & Hes).
  destruct (@sort_pubs_spec _ (decorate_projected es)) as (sorted & Hsort & Hperm & _).
  exists sorted. unfold publications. rewrite Hparse. simpl. split; [exact Hsort|].
  eapply Permutation_Forall; [exact Hperm|].
  apply Forall_map. eapply Forall_impl; [|exact Hes].
  intros e [Ht _]. exists (entry_type e). split; [|exact Ht].
  apply (entry_to_publication_lookup e).
Qed.

(** C4: the entry of the round-trip example is parsed and projected to
    exactly the record with the title, the two authors, the year 2023, the
    venue, the type and the DOI link. *)
Theorem study_round_trip :
  (es <- parse_bibtex (enough study_bib) study_bib;;
   Ok (map entry_to_publication es)) = Ok [study_pub] /\
  publications (enough study_bib) study_bib = Ok [study_pub].
Proof.
  split; vm_compute; reflexivity.
Qed.

(** C3, the claim as the specification words it, fails: for [title={}]
    the key [title] is stored, with the empty text. *)
Lemma empty_title_is_stored :
  parse_bibtex (enough empty_title_bib) empty_title_bib
  = Ok [mkBibEntry (lit "misc") (lit "k") [(lit "title", [])]] /\
  exists es e,
    parse_bibtex (enough empty_title_bib) empty_title_bib = Ok es /\
    In e es /\ dict_get (fields e) (lit "title") = Some [].
Proof.
  split; [vm_compute; reflexivity|].
  eexists. eexists. split; [vm_compute; reflexivity|].
  split; [left; reflexivity | reflexivity].
Qed.

Lemma field_body_effect (fuel : nat) (ft : str) (j j' : nat) (fields fields' : dict str) :
  field_body fuel ft j fields = Ok (FieldNext j' fields') ->
  exists j1 g mend value j3,
    skip_separators fuel ft j = Ok j1 /\
    match_field_name (skipn j1 ft) = Some (g, mend) /\
    _parse_value fuel ft (j1 + mend) = Ok (value, j3) /\
    ((value = [] /\ fields' = fields) \/
     (value <> [] /\ exists stripped,
         _strip_outer_braces value = Ok stripped /\
         fields' = dict_set fields (lower g) (_clean_tex stripped))).
Proof.
  unfold field_body. intros H.
  inv_bind H. rename a into j1.
  destruct (length ft <=? j1); [discriminate|].
  destruct (match_field_name (skipn j1 ft)) as [[g mend]|] eqn:En; [|discriminate].
  inv_bind H. destruct a as [value j3].
  inv_bind H. inv_bind H. inv_bind H. injection H as _ <-.
  exists j1, g, mend, value, j3. repeat (split; [assumption || reflexivity|]).
  destruct value as [|c value]; simpl in Ha1.
  - left. split; congruence.
  - right. split; [discriminate|].
    inv_bind Ha1. exists a2. split; congruence.
Qed.

(** C3 (as the code has it): the test before a field is stored is on the
    parsed value, before it is cleaned.  Every value in the field map of a
    parsed entry is the cleaned form of a parsed value that was not empty,
    under the lower-cased field name, and a pass of the field loop stores
    the cleaned value exactly when the parsed value is not empty; the
    cleaned value itself may be empty. *)
Theorem fields_hold_cleaned_nonempty_raw_values (raw : str) :
  (exists es,
      parse_bibtex (enough raw) raw = Ok es /\
      Forall (fun e => forall k v, dict_get (fields e) k = Some v ->
                exists name value stripped,
                  k = lower name /\ value <> [] /\
                  _strip_outer_braces value = Ok stripped /\
                  v = _clean_tex stripped) es) /\
  (forall fuel ft j j' fields fields',
      field_body fuel ft j fields = Ok (FieldNext j' fields') ->
      exists j1 g mend value j3,
        skip_separators fuel ft j = Ok j1 /\
        match_field_name (skipn j1 ft) = Some (g, mend) /\
        _parse_value fuel ft (j1 + mend) = Ok (value, j3) /\
        ((value = [] /\ fields' = fields) \/
         (value <> [] /\ exists stripped,
             _strip_outer_braces value = Ok stripped /\
             fields' = dict_set fields (lower g) (_clean_tex stripped)))).
Proof.
  split.
  - destruct (parse_bibtex_enough raw) as (es & Hparse & Hes).
    exists es. split; [exact Hparse|].
    eapply Forall_impl; [|exact Hes]. intros e [_ Hf]. exact Hf.
  - intros fuel ft j j' fields fields'. apply field_body_effect.
Qed.

(** ** The year: the leftmost four digits in a row *)

Lemma space_not_digit (c : ascii) : isspace c = true -> is_digit c = false.
Proof.
  intros H. destruct (is_digit c) eqn:E; auto.
  apply digit_not_space in E. congruence.
Qed.

Lemma first_run4_nondigit (c : ascii) (r : str) :
  is_digit c = false -> first_run4 (c :: r) = first_run4 r.
Proof.
  intros H. destruct r as [|d2 [|d3 [|d4 r]]]; simpl; auto.
  now rewrite H.
Qed.

Lemma findall_head_is_first_run4 (x : str) :
  get_first (findall_4digits x 0)
  = match first_run4 x with Some m => Ok m | None => Raise IndexError end.
Proof.
  induction x as [|d1 r IH]; simpl; auto.
  destruct r as [|d2 [|d3 [|d4 r']]]; try exact IH.
  destruct (is_digit d1 && is_digit d2 && is_digit d3 && is_digit d4); auto.
Qed.

Lemma first_run4_digits (x m : str) :
  first_run4 x = Some m ->
  exists d1 d2 d3 d4,
    m = [d1; d2; d3; d4] /\
    is_digit d1 = true /\ is_digit d2 = true /\
    is_digit d3 = true /\ is_digit d4 = true.
Proof.
  induction x as [|d1 r IH]; simpl; [discriminate|].
  destruct r as [|d2 [|d3 [|d4 r']]]; try exact IH.
  destruct (is_digit d1 && is_digit d2 && is_digit d3 && is_digit d4) eqn:E;
    [|exact IH].
  intros H. injection H as <-.
  do 3 (apply andb_true_iff in E; destruct E as [E ?]).
  exists d1, d2, d3, d4. repeat split; assumption || reflexivity.
Qed.

Lemma has_run4_cons (c : ascii) (x : str) : has_run4 x -> has_run4 (c :: x).
Proof.
  intros (pre & d1 & d2 & d3 & d4 & post & -> & H).
  exists (c :: pre), d1, d2, d3, d4, post. split; [reflexivity | exact H].
Qed.

Lemma has_run4_here (d1 d2 d3 d4 : ascii) (post : str) :
  is_digit d1 && is_digit d2 && is_digit d3 && is_digit d4 = true ->
  has_run4 (d1 :: d2 :: d3 :: d4 :: post).
Proof.
  intros E. do 3 (apply andb_true_iff in E; destruct E as [E ?]).
  exists [], d1, d2, d3, d4, post. repeat split; assumption || reflexivity.
Qed.

Lemma first_run4_some_has_run4 (x m : str) : first_run4 x = Some m -> has_run4 x.
Proof.
  induction x as [|d1 r IH]; simpl; [discriminate|].
  destruct r as [|d2 [|d3 [|d4 r']]];
    try (intros H; apply has_run4_cons, IH, H).
  destruct (is_digit d1 && is_digit d2 && is_digit d3 && is_digit d4) eqn:E.
  - intros _. now apply has_run4_here.
  - intros H. apply has_run4_cons, IH, H.
Qed.

Lemma first_run4_none (x : str) : ~ has_run4 x -> first_run4 x = None.
Proof.
  intros H. destruct (first_run4 x) eqn:E; auto.
  apply first_run4_some_has_run4 in E. contradiction.
Qed.

Lemma first_run4_leftmost (pre : str) (d1 d2 d3 d4 : ascii) (post : str) :
  is_digit d1 && is_digit d2 && is_digit d3 && is_digit d4 = true ->
  ~ has_run4 (pre ++ [d1; d2; d3]) ->
  first_run4 (pre ++ [d1; d2; d3; d4] ++ post) = Some [d1; d2; d3; d4].
Proof.
  intros Hd. induction pre as [|c pre IH]; intros Hno.
  - simpl. now rewrite Hd.
  - assert (Hno' : ~ has_run4 (pre ++ [d1; d2; d3])).
    { intros H. apply Hno. simpl. now apply has_run4_cons. }
    specialize (IH Hno').
    destruct pre as [|a [|b [|c' pre']]]; simpl in *.
    + destruct (is_digit c && is_digit d1 && is_digit d2 && is_digit d3) eqn:E.
      * exfalso. apply Hno. now apply has_run4_here.
      * exact IH.
    + destruct (is_digit c && is_digit a && is_digit d1 && is_digit d2) eqn:E.
      * exfalso. apply Hno. now apply has_run4_here.
      * exact IH.
    + destruct (is_digit c && is_digit a && is_digit b && is_digit d1) eqn:E.
      * exfalso. apply Hno. now apply has_run4_here.
      * exact IH.
    + destruct (is_digit c && is_digit a && is_digit b && is_digit c') eqn:E.
      * exfalso. apply Hno. now apply has_run4_here.
      * exact IH.
Qed.

Lemma first_run4_spaces (ws : str) :
  forallb isspace ws = true -> first_run4 ws = None.
Proof.
  induction ws as [|c r IH]; simpl; auto.
  intros H. apply andb_true_iff in H as [Hc Hr].
  change (first_run4 (c :: r) = None).
  rewrite first_run4_nondigit by now apply space_not_digit. auto.
Qed.

Lemma first_run4_app_spaces (y ws : str) :
  forallb isspace ws = true -> first_run4 (y ++ ws) = first_run4 y.
Proof.
  intros Hws. induction y as [|c y IH].
  - simpl. now apply first_run4_spaces.
  - destruct (is_digit c) eqn:Ec.
    2: { change ((c :: y) ++ ws) with (c :: (y ++ ws)).
         now rewrite !first_run4_nondigit. }
    assert (Hw : forall w r, ws = w :: r -> is_digit w = false).
    { intros w r ->. simpl in Hws. apply andb_true_iff in Hws as [H _].
      now apply space_not_digit. }
    destruct y as [|a [|b [|d y']]].
    + simpl in *. rewrite <- IH.
      destruct ws as [|w1 [|w2 [|w3 ws']]]; simpl; auto.
      rewrite (Hw w1 _ eq_refl). now rewrite andb_false_r.
    + simpl in *. rewrite <- IH.
      destruct ws as [|w1 [|w2 ws']]; simpl; auto.
      rewrite (Hw w1 _ eq_refl). now rewrite !andb_false_r.
    + simpl in *. rewrite <- IH.
      destruct ws as [|w1 ws']; simpl; auto.
      rewrite (Hw w1 _ eq_refl). now rewrite !andb_false_r.
    + simpl in *. now rewrite IH.
Qed.

Lemma take_drop_while (p : ascii -> bool) (l : str) :
  l = take_while p l ++ drop_while p l.
Proof.
  induction l as [|c l IH]; simpl; auto.
  destruct (p c); simpl; auto. now f_equal.
Qed.

Lemma forallb_rev (p : ascii -> bool) (l : str) :
  forallb p l = true -> forallb p (rev l) = true.
Proof.
  rewrite !forallb_forall. intros H c Hin. apply H. now apply in_rev.
Qed.

Lemma rstrip_spaces (x : str) :
  exists ws, x = rstrip x ++ ws /\ forallb isspace ws = true.
Proof.
  unfold rstrip. exists (rev (take_while isspace (rev x))). split.
  - rewrite <- rev_app_distr, <- take_drop_while. now rewrite rev_involutive.
  - apply forallb_rev, take_while_all.
Qed.

Lemma first_run4_lstrip (x : str) : first_run4 (lstrip x) = first_run4 x.
Proof.
  unfold lstrip. induction x as [|c r IH]; simpl; auto.
  destruct (isspace c) eqn:E; auto.
  change (first_run4 (drop_while isspace r) = first_run4 (c :: r)).
  rewrite first_run4_nondigit by now apply space_not_digit. exact IH.
Qed.

Lemma first_run4_strip (x : str) : first_run4 (strip x) = first_run4 x.
Proof.
  unfold strip.
  destruct (rstrip_spaces (lstrip x)) as (ws & Hx & Hws).
  transitivity (first_run4 (lstrip x)); [|apply first_run4_lstrip].
  rewrite <- (first_run4_app_spaces (rstrip (lstrip x)) ws Hws).
  now rewrite <- Hx.
Qed.

Lemma int_of_four_digits (d1 d2 d3 d4 : ascii) :
  is_digit d1 = true -> is_digit d2 = true ->
  is_digit d3 = true -> is_digit d4 = true ->
  int_of [d1; d2; d3; d4] = Ok (value4 d1 d2 d3 d4).
Proof.
  intros H1 H2 H3 H4. unfold int_of. simpl.
  rewrite H1, H2, H3, H4. simpl. unfold value4. f_equal. lia.
Qed.

Lemma pub_year_first_run4 (e : BibEntry) :
  pub_year e
  = match first_run4 (dict_get_str (fields e) (lit "year")) with
    | Some m => match int_of m with Ok z => VInt z | _ => VNone end
    | None => VNone
    end.
Proof.
  unfold pub_year.
  rewrite <- (first_run4_strip (dict_get_str (fields e) (lit "year"))).
  destruct (strip (dict_get_str (fields e) (lit "year"))) as [|c y] eqn:E.
  - reflexivity.
  - cbn [nonempty]. unfold bind at 1.
    rewrite findall_head_is_first_run4.
    destruct (first_run4 (c :: y)); reflexivity.
Qed.

(** C2 (as the code has it): the [year] of a record is the number that
    the first four digits in a row of [fields["year"]] denote, wherever
    they are in the text (of five digits in a row the first four count);
    the record has no [year] key when the field is absent or has no four
    digits in a row. *)
Theorem year_is_first_four_digits (e : BibEntry) :
  let p := entry_to_publication e in
  (forall y pre d1 d2 d3 d4 post,
      dict_get (fields e) (lit "year") = Some y ->
      y = pre ++ [d1; d2; d3; d4] ++ post ->
      is_digit d1 && is_digit d2 && is_digit d3 && is_digit d4 = true ->
      ~ has_run4 (pre ++ [d1; d2; d3]) ->
      dict_get p (lit "year") = Some (VInt (value4 d1 d2 d3 d4))) /\
  (dict_get (fields e) (lit "year") = None -> dict_get p (lit "year") = None) /\
  (forall y,
      dict_get (fields e) (lit "year") = Some y -> ~ has_run4 y ->
      dict_get p (lit "year") = None).
Proof.
  intros p.
  destruct (entry_to_publication_lookup e) as (_ & _ & _ & Hy & _).
  fold p in Hy. rewrite Hy, pub_year_first_run4. unfold dict_get_str.
  split; [|split].
  - intros y pre d1 d2 d3 d4 post Hf -> Hd Hleft. rewrite Hf.
    rewrite (first_run4_leftmost pre d1 d2 d3 d4 post Hd Hleft).
    do 3 (apply andb_true_iff in Hd; destruct Hd as [Hd ?]).
    now rewrite int_of_four_digits.
  - intros ->. reflexivity.
  - intros y Hf Hno. rewrite Hf, (first_run4_none Hno). reflexivity.
Qed.

(** C2, the claim as the specification words it, fails when the digits go
    on: [12345] holds no run of exactly four digits (four digits with no
    digit right before or after them), yet the record has the year 1234. *)
Lemma five_digits_give_a_year :
  dict_get (entry_to_publication (titled (Some (lit "12345")) (lit "T"))) (lit "year")
  = Some (VInt 1234) /\
  ~ exact_run4 (lit "12345").
Proof.
  split; [reflexivity|].
  intros (pre & d1 & d2 & d3 & d4 & post & E & _ & Hpre & Hpost).
  destruct pre as [|p0 [|p1 pre]]; cbn [app] in E.
  - injection E as _ _ _ _ E. subst post. vm_compute in Hpost. discriminate.
  - injection E as E0 _ _ _ _ _. subst p0. vm_compute in Hpre. discriminate.
  - injection E as _ _ E. apply (f_equal (@length ascii)) in E.
    rewrite length_app in E. simpl in E. lia.
Qed.

(** ** The two artifacts *)

Lemma startswith_iff (p x : str) : startswith p x = true <-> exists r, x = p ++ r.
Proof.
  revert x; induction p as [|a p IH]; intros x; simpl.
  - split; eauto.
  - destruct x as [|b x]; [split; [discriminate | intros [r H]; discriminate]|].
    rewrite andb_true_iff, ceq_true, IH. split.
    + intros [-> [r ->]]. eauto.
    + intros [r H]. injection H as -> ->. eauto.
Qed.

Lemma endswith_iff (p x : str) : endswith p x = true <-> exists pre, x = pre ++ p.
Proof.
  unfold endswith. rewrite startswith_iff. split.
  - intros [r H]. exists (rev r).
    rewrite <- (rev_involutive x), H, rev_app_distr. now rewrite rev_involutive.
  - intros [pre ->]. exists (rev pre). apply rev_app_distr.
Qed.

Lemma lower_length (x : str) : length (lower x) = length x.
Proof. apply length_map. Qed.

Lemma json_suffix_test (outp : str) :
  endswith (lit ".json") (lower outp) = true
  <-> json_suffixed outp (drop_last 5 outp).
Proof.
  rewrite endswith_iff. unfold json_suffixed, drop_last. split.
  - intros [pre H].
    assert (Hlen : length outp = length pre + 5).
    { rewrite <- lower_length, H, length_app. reflexivity. }
    exists (skipn (length outp - 5) outp). split.
    + symmetry. apply firstn_skipn.
    + unfold lower in *. rewrite <- skipn_map, H.
      replace (length outp - 5) with (length pre) by lia.
      rewrite skipn_app, skipn_all, Nat.sub_diag. reflexivity.
  - intros (suffix & H & Hs). exists (lower (firstn (length outp - 5) outp)).
    rewrite H at 1. unfold lower in *. now rewrite map_app, Hs.
Qed.

Lemma json_suffixed_stem (outp stem : str) :
  json_suffixed outp stem -> drop_last 5 outp = stem.
Proof.
  intros (suffix & -> & Hs). unfold drop_last.
  assert (Hlen : length suffix = 5).
  { rewrite <- lower_length, Hs. reflexivity. }
  rewrite length_app, Hlen.
  replace (length stem + 5 - 5) with (length stem + 0) by lia.
  rewrite firstn_app_2. simpl. apply app_nil_r.
Qed.

Lemma publications_total (fuel : nat) (raw : str) :
  length raw < fuel -> exists pubs, publications fuel raw = Ok pubs.
Proof.
  intros Hf. destruct (parse_bibtex_enough raw) as (es & Hparse & _).
  destruct (@sort_pubs_spec _ (decorate_projected es)) as (sorted & Hsort & _).
  exists sorted. unfold publications.
  rewrite (@parse_bibtex_mono (enough raw) fuel raw es); auto.
  unfold enough. lia.
Qed.

Lemma main_written (json_dumps : option nat -> list pub -> str) (fuel : nat)
      (fs : dict str) (prog inp outp raw : str) (pubs : list pub) :
  dict_get fs inp = Some raw ->
  publications fuel raw = Ok pubs ->
  exists out,
    main json_dumps fuel fs [prog; inp; outp] = Ok out /\
    exit_status out = 0%Z /\
    (forall stem, json_suffixed outp stem ->
        written out = [(outp, json_dumps (Some 2) pubs ++ [LF]);
                       (stem ++ lit ".js", js_text (json_dumps None pubs))]) /\
    ((forall stem, ~ json_suffixed outp stem) ->
        written out = [(outp, json_dumps (Some 2) pubs ++ [LF])]).
Proof.
  intros Hin Hp. unfold main. rewrite Hin. cbn [bind]. rewrite Hp. cbn [bind].
  destruct (endswith (lit ".json") (lower outp)) eqn:E.
  - eexists. split; [reflexivity|]. split; [reflexivity|]. split.
    + intros stem Hs. cbn [written]. rewrite (json_suffixed_stem Hs). reflexivity.
    + intros Hno. apply json_suffix_test in E. now apply Hno in E.
  - eexists. split; [reflexivity|]. split; [reflexivity|]. split.
    + intros stem Hs.
      assert (endswith (lit ".json") (lower outp) = true).
      { apply json_suffix_test. now rewrite (json_suffixed_stem Hs). }
      congruence.
    + reflexivity.
Qed.

(** C9: [main] writes the [.js] sibling exactly when the output path ends
    in [.json], the case of the letters ignored: then the files written
    are the JSON document and, at the path with [.js] in place of the
    suffix, the header line, the prefix [window.PUBLICATIONS = ], the
    records as compact JSON, a semicolon and a new line; otherwise only the
    JSON document is written.  For [pubs.JSON] the sibling is [pubs.js];
    for [pubs.txt] there is none. *)
Theorem js_sibling_iff_json_suffix
        (json_dumps : option nat -> list pub -> str) (fuel : nat)
        (fs : dict str) (prog inp raw : str) :
  dict_get fs inp = Some raw ->
  length raw < fuel ->
  exists pubs,
    publications fuel raw = Ok pubs /\
    (forall outp, exists out,
        main json_dumps fuel fs [prog; inp; outp] = Ok out /\
        exit_status out = 0%Z /\
        (forall stem, json_suffixed outp stem ->
            written out = [(outp, json_dumps (Some 2) pubs ++ [LF]);
                           (stem ++ lit ".js", js_text (json_dumps None pubs))]) /\
        ((forall stem, ~ json_suffixed outp stem) ->
            written out = [(outp, json_dumps (Some 2) pubs ++ [LF])])) /\
    (exists out,
        main json_dumps fuel fs [prog; inp; lit "pubs.JSON"] = Ok out /\
        written out = [(lit "pubs.JSON", json_dumps (Some 2) pubs ++ [LF]);
                       (lit "pubs.js", js_text (json_dumps None pubs))]) /\
    (exists out,
        main json_dumps fuel fs [prog; inp; lit "pubs.txt"] = Ok out /\
        written out = [(lit "pubs.txt", json_dumps (Some 2) pubs ++ [LF])]).
Proof.
  intros Hin Hf.
  destruct (publications_total raw Hf) as [pubs Hp].
  exists pubs. split; [exact Hp|]. split; [|split].
  - intros outp. now apply main_written with (raw := raw).
  - unfold main. rewrite Hin. simpl. rewrite Hp. simpl.
    eexists. split; reflexivity.
  - unfold main. rewrite Hin. simpl. rewrite Hp. simpl.
    eexists. split; reflexivity.
Qed.

(** ** The scan from a position on depends on the text from there on only *)

Lemma get_app_shift (a b : str) (i : nat) : get (a ++ b) (length a + i) = get b i.
Proof.
  unfold get. rewrite nth_error_app2 by lia.
  now replace (length a + i - length a) with i by lia.
Qed.

Lemma skipn_app_shift (a b : str) (i : nat) : skipn (length a + i) (a ++ b) = skipn i b.
Proof.
  rewrite skipn_app, skipn_all2 by lia.
  now replace (length a + i - length a) with i by lia.
Qed.

Lemma slice_app_shift (a b : str) (i j : nat) :
  slice (a ++ b) (length a + i) (length a + j) = slice b i j.
Proof.
  unfold slice. rewrite skipn_app_shift. f_equal. lia.
Qed.

Lemma find_in_shift (c : ascii) (x : str) (n pos : nat) :
  find_in c x (n + pos) = option_map (Nat.add n) (find_in c x pos).
Proof.
  revert pos; induction x as [|d x IH]; intros pos; simpl; auto.
  destruct (ceq d c); simpl; auto.
  replace (S (n + pos)) with (n + S pos) by lia. apply IH.
Qed.

Lemma find_app_shift (c : ascii) (a b : str) (i : nat) :
  find c (a ++ b) (length a + i) = option_map (Nat.add (length a)) (find c b i).
Proof.
  unfold find. rewrite skipn_app_shift. apply find_in_shift.
Qed.

Lemma scan_entry_app_shift (k : nat) (a b : str) (i : nat) (depth : Z) :
  scan_entry k (a ++ b) (length a + i) depth
  = (r <- scan_entry k b i depth;; Ok (length a + r)).
Proof.
  revert i depth; induction k as [|k IH]; intros i depth; simpl; auto.
  rewrite length_app, get_app_shift.
  replace (length a + i <? length a + length b) with (i <? length b).
  2: { destruct (Nat.ltb_spec i (length b)), (Nat.ltb_spec (length a + i) (length a + length b));
       auto; lia. }
  destruct ((i <? length b) && (0 <? depth)%Z); simpl; auto.
  destruct (get b i) as [ch| |]; simpl; auto.
  replace (length a + i + 1) with (length a + (i + 1)) by lia.
  destruct (ceq ch LBRACE); [apply IH|].
  destruct (ceq ch RBRACE); apply IH.
Qed.

Lemma scan_entry_ge (k : nat) (raw : str) (i r : nat) (depth : Z) :
  scan_entry k raw i depth = Ok r -> i <= r.
Proof.
  intros H. pose proof (scan_entry_spec k raw i depth) as Hs.
  rewrite H in Hs. exact Hs.
Qed.

Lemma main_body_app_shift (fuel : nat) (a b : str) (i : nat) (entries : list BibEntry) :
  main_body fuel (a ++ b) (length a + i) entries
  = (st <- main_body fuel b i [];;
     Ok (match st with
         | MainBreak => MainBreak
         | MainNext i' new => MainNext (length a + i') (entries ++ new)
         end)).
Proof.
  unfold main_body. rewrite find_app_shift.
  destruct (find "@"%char b i) as [at_|]; simpl; auto.
  replace (length a + at_ + 1) with (length a + (at_ + 1)) by lia.
  rewrite skipn_app_shift.
  destruct (match_entry_type (skipn (at_ + 1) b)) as [[g mend]|]; simpl.
  2: { now rewrite app_nil_r. }
  replace (length a + (at_ + 1) + mend) with (length a + (at_ + 1 + mend)) by lia.
  rewrite find_app_shift.
  destruct (find COMMA b (at_ + 1 + mend)) as [comma|]; simpl; auto.
  replace (length a + comma + 1) with (length a + (comma + 1)) by lia.
  rewrite scan_entry_app_shift, slice_app_shift.
  destruct (scan_entry fuel b (comma + 1) 1) as [i1| |] eqn:Escan; simpl; auto.
  apply scan_entry_ge in Escan.
  replace (length a + i1 - 1) with (length a + (i1 - 1)) by lia.
  rewrite slice_app_shift.
  destruct (field_loop fuel fuel _ 0 []); simpl; auto.
Qed.

Lemma main_loop_app_shift (k fuel : nat) :
  forall (a b : str) (i : nat) (entries : list BibEntry),
    main_loop k fuel (a ++ b) (length a + i) entries
    = (new <- main_loop k fuel b i [];; Ok (entries ++ new)).
Proof.
  induction k as [|k IH]; intros a b i entries; simpl; auto.
  rewrite length_app.
  replace (length a + i <? length a + length b) with (i <? length b).
  2: { destruct (Nat.ltb_spec i (length b)), (Nat.ltb_spec (length a + i) (length a + length b));
       auto; lia. }
  destruct (i <? length b); simpl; [|now rewrite app_nil_r].
  rewrite main_body_app_shift.
  destruct (main_body fuel b i []) as [[|i' new]| |]; simpl; auto.
  - now rewrite app_nil_r.
  - rewrite IH. pose proof (IH [] b i' new) as Hnew. simpl in Hnew.
    rewrite Hnew.
    destruct (main_loop k fuel b i' []); simpl; auto.
    now rewrite app_assoc.
Qed.

(** ** Malformed entries *)

Lemma find_in_first (c : ascii) (pre rest : str) (pos : nat) :
  find_in c pre pos = None ->
  find_in c (pre ++ c :: rest) pos = Some (pos + length pre).
Proof.
  revert pos; induction pre as [|d pre IH]; intros pos; simpl.
  - intros _. unfold ceq. rewrite Ascii.eqb_refl. f_equal. lia.
  - destruct (ceq d c); [discriminate|].
    intros H. rewrite (IH _ H). f_equal. lia.
Qed.

Lemma bind_ok_nil {A : Type} (m : result (list A)) :
  (new <- m;; Ok ([] ++ new)) = m.
Proof. destruct m; reflexivity. Qed.

Lemma skipped_header (k fuel : nat) (pre rest : str) :
  find "@"%char pre 0 = None ->
  match_entry_type rest = None ->
  main_loop (S k) fuel (pre ++ "@"%char :: rest) 0 [] = main_loop k fuel rest 0 [].
Proof.
  intros Hpre Hrest. cbn [main_loop].
  rewrite length_app. cbn [length].
  replace (0 <? length pre + S (length rest)) with true
    by (symmetry; apply Nat.ltb_lt; lia).
  unfold main_body. unfold find in *. cbn [skipn] in *.
  rewrite (@find_in_first _ pre rest 0 Hpre). cbn [Nat.add].
  replace (pre ++ "@"%char :: rest) with ((pre ++ ["@"%char]) ++ rest)
    by (now rewrite <- app_assoc).
  replace (length pre + 1) with (length (pre ++ ["@"%char]) + 0)
    by (rewrite length_app; simpl; lia).
  rewrite skipn_app_shift. cbn [skipn]. rewrite Hrest. cbn [bind].
  rewrite main_loop_app_shift. apply bind_ok_nil.
Qed.

Lemma failed_field_name (k fuel : nat) (ft : str) (j j1 : nat) (fields : dict str) :
  j < length ft ->
  skip_separators fuel ft j = Ok j1 ->
  match_field_name (skipn j1 ft) = None ->
  field_loop (S k) fuel ft j fields = Ok fields.
Proof.
  intros Hj Hsep Hname. cbn [field_loop].
  replace (j <? length ft) with true by (symmetry; now apply Nat.ltb_lt).
  unfold field_body. rewrite Hsep. cbn [bind].
  destruct (length ft <=? j1); [reflexivity|].
  rewrite Hname. reflexivity.
Qed.

(** C6, the claim as the specification words it, fails: after an entry
    without the comma behind its key, the well-formed entry that follows
    is not parsed as an entry; the key of the first one runs into it. *)
Lemma entry_after_missing_comma_is_swallowed :
  parse_bibtex (enough book_bib) book_bib = Ok [book_entry] /\
  parse_bibtex (enough swallowed_bib) swallowed_bib
  = Ok [mkBibEntry (lit "article") (lit "a}" ++ [LF] ++ lit "@book{b")
          [(lit "title", lit "T")]] /\
  forall es, parse_bibtex (enough swallowed_bib) swallowed_bib = Ok es ->
             ~ In book_entry es.
Proof.
  split; [vm_compute; reflexivity|].
  split; [vm_compute; reflexivity|].
  intros es H. vm_compute in H. injection H as <-.
  intros [E|[]]. discriminate.
Qed.

(** ** The theorems at concrete inputs *)

Lemma has_run4_found (x : str) : has_run4 x -> first_run4 x <> None.
Proof.
  intros (pre & d1 & d2 & d3 & d4 & post & -> & H1 & H2 & H3 & H4).
  induction pre as [|c pre IH].
  - simpl. rewrite H1, H2, H3, H4. discriminate.
  - destruct pre as [|a [|b [|c' pre']]]; simpl in *.
    + destruct (is_digit c && is_digit d1 && is_digit d2 && is_digit d3);
        [discriminate | exact IH].
    + destruct (is_digit c && is_digit a && is_digit d1 && is_digit d2);
        [discriminate | exact IH].
    + destruct (is_digit c && is_digit a && is_digit b && is_digit d1);
        [discriminate | exact IH].
    + destruct (is_digit c && is_digit a && is_digit b && is_digit c');
        [discriminate | exact IH].
Qed.

Lemma year_is_first_four_digits_witness :
  dict_get (entry_to_publication (titled (Some (lit "in 20235")) (lit "T"))) (lit "year")
  = Some (VInt 2023) /\
  dict_get (entry_to_publication (titled None (lit "T"))) (lit "year") = None /\
  dict_get (entry_to_publication (titled (Some (lit "n.d. 123")) (lit "T"))) (lit "year")
  = None.
Proof.
  split; [|split].
  - apply (proj1 (year_is_first_four_digits (titled (Some (lit "in 20235")) (lit "T")))
             (lit "in 20235") (lit "in ") "2"%char "0"%char "2"%char "3"%char (lit "5")).
    + reflexivity.
    + reflexivity.
    + reflexivity.
    + intros H. apply has_run4_found in H. apply H. reflexivity.
  - apply (proj1 (proj2 (year_is_first_four_digits (titled None (lit "T"))))).
    reflexivity.
  - apply (proj2 (proj2 (year_is_first_four_digits
                           (titled (Some (lit "n.d. 123")) (lit "T"))))
             (lit "n.d. 123")).
    + reflexivity.
    + intros H. apply has_run4_found in H. apply H. reflexivity.
Defined.

Lemma fields_hold_cleaned_nonempty_raw_values_witness :
  (exists es,
      parse_bibtex (enough empty_title_bib) empty_title_bib = Ok es /\
      Forall (fun e => forall k v, dict_get (fields e) k = Some v ->
                exists name value stripped,
                  k = lower name /\ value <> [] /\
                  _strip_outer_braces value = Ok stripped /\
                  v = _clean_tex stripped) es) /\
  exists j1 g mend value j3,
    skip_separators 30 bad_field_block 0 = Ok j1 /\
    match_field_name (skipn j1 bad_field_block) = Some (g, mend) /\
    _parse_value 30 bad_field_block (j1 + mend) = Ok (value, j3) /\
    ((value = [] /\ [(lit "title", lit "T")] = []) \/
     (value <> [] /\ exists stripped,
         _strip_outer_braces value = Ok stripped /\
         [(lit "title", lit "T")] = dict_set [] (lower g) (_clean_tex stripped))).
Proof.
  split.
  - exact (proj1 (fields_hold_cleaned_nonempty_raw_values empty_title_bib)).
  - apply (proj2 (fields_hold_cleaned_nonempty_raw_values empty_title_bib)
             30 bad_field_block 0 11 [] [(lit "title", lit "T")]).
    reflexivity.
Defined.

Lemma parse_bibtex_terminates_witness :
  (exists es, forall fuel, length bad_header_bib < fuel ->
                           parse_bibtex fuel bad_header_bib = Ok es) /\
  0 < 1 /\
  (main_body 40 bad_header_bib 0 [] = Ok (MainNext (0 + 1) []) /\ 0 + 1 <= 0 + 1).
Proof.
  split; [|split].
  - exact (proj1 (parse_bibtex_terminates bad_header_bib)).
  - apply (proj1 (proj2 (parse_bibtex_terminates bad_header_bib)) 40 0 [] 1 []).
    reflexivity.
  - apply (proj2 (proj2 (parse_bibtex_terminates bad_header_bib)) 40 0 0 []).
    + reflexivity.
    + reflexivity.
Defined.

Lemma js_sibling_iff_json_suffix_witness :
  exists pubs,
    publications 200 study_bib = Ok pubs /\
    (forall outp, exists out,
        main count_dumps 200 one_file [lit "bibtex_to_json.py"; lit "refs.bib"; outp]
        = Ok out /\
        exit_status out = 0%Z /\
        (forall stem, json_suffixed outp stem ->
            written out = [(outp, count_dumps (Some 2) pubs ++ [LF]);
                           (stem ++ lit ".js", js_text (count_dumps None pubs))]) /\
        ((forall stem, ~ json_suffixed outp stem) ->
            written out = [(outp, count_dumps (Some 2) pubs ++ [LF])])) /\
    (exists out,
        main count_dumps 200 one_file
             [lit "bibtex_to_json.py"; lit "refs.bib"; lit "pubs.JSON"] = Ok out /\
        written out = [(lit "pubs.JSON", count_dumps (Some 2) pubs ++ [LF]);
                       (lit "pubs.js", js_text (count_dumps None pubs))]) /\
    (exists out,
        main count_dumps 200 one_file
             [lit "bibtex_to_json.py"; lit "refs.bib"; lit "pubs.txt"] = Ok out /\
        written out = [(lit "pubs.txt", count_dumps (Some 2) pubs ++ [LF])]).
Proof.
  apply (@js_sibling_iff_json_suffix count_dumps 200 one_file
           (lit "bibtex_to_json.py") (lit "refs.bib") study_bib).
  - reflexivity.
  - apply Nat.ltb_lt. reflexivity.
Defined.

(** * Further properties of the code *)

(** ** Trimming *)

Lemma drop_while_no_head (p : ascii -> bool) (x : str) :
  match drop_while p x with c :: _ => p c = false | [] => True end.
Proof.
  induction x as [|c x IH]; simpl; auto.
  destruct (p c) eqn:E; auto.
Qed.

Lemma drop_while_id (p : ascii -> bool) (x : str) :
  match x with c :: _ => p c = false | [] => True end -> drop_while p x = x.
Proof.
  destruct x as [|c x]; simpl; auto. now intros ->.
Qed.

Lemma drop_while_snoc (p : ascii -> bool) (x : str) (c : ascii) :
  p c = false -> drop_while p (x ++ [c]) = drop_while p x ++ [c].
Proof.
  intros Hc. induction x as [|d x IH]; simpl.
  - now rewrite Hc.
  - destruct (p d); auto.
Qed.

Lemma drop_while_in (p : ascii -> bool) (x : str) (c : ascii) :
  In c (drop_while p x) -> In c x.
Proof.
  induction x as [|d x IH]; simpl; auto.
  destruct (p d); simpl; auto.
Qed.

Lemma lstrip_no_lead (x : str) : no_lead (lstrip x).
Proof. apply (drop_while_no_head isspace x). Qed.

Lemma rstrip_no_lead (x : str) : no_lead x -> no_lead (rstrip x).
Proof.
  unfold rstrip. destruct x as [|c x]; simpl; auto.
  intros Hc. rewrite drop_while_snoc by exact Hc.
  rewrite rev_app_distr. simpl. exact Hc.
Qed.

Lemma rstrip_rstrip (x : str) : rstrip (rstrip x) = rstrip x.
Proof.
  unfold rstrip. rewrite rev_involutive. f_equal.
  apply drop_while_id. apply drop_while_no_head.
Qed.

Lemma strip_no_lead (x : str) : no_lead (strip x).
Proof. apply rstrip_no_lead, lstrip_no_lead. Qed.

Lemma strip_idempotent (x : str) : strip (strip x) = strip x.
Proof.
  unfold strip at 1. unfold lstrip.
  rewrite drop_while_id by apply (strip_no_lead x).
  unfold strip. apply rstrip_rstrip.
Qed.

Lemma strip_in (x : str) (c : ascii) : In c (strip x) -> In c x.
Proof.
  unfold strip, rstrip, lstrip. intros H.
  apply in_rev, drop_while_in, in_rev, drop_while_in in H. exact H.
Qed.

Lemma strip_forallb (p : ascii -> bool) (x : str) :
  forallb p x = true -> forallb p (strip x) = true.
Proof.
  rewrite !forallb_forall. intros H c Hc. apply H. now apply strip_in.
Qed.

(** ** The shape of the stored names and values *)

Lemma collapse_spaces_plain (x : str) (in_run : bool) :
  plain_spaces (collapse_spaces x in_run) = true.
Proof.
  revert in_run; induction x as [|c x IH]; intros in_run; simpl; auto.
  destruct (isspace c) eqn:E.
  - destruct in_run; [apply IH|].
    change (plain_spaces (" "%char :: collapse_spaces x true) = true).
    unfold plain_spaces in *. simpl. apply IH.
  - unfold plain_spaces in *. simpl. rewrite E. simpl. apply IH.
Qed.

Lemma take_while_in (p : ascii -> bool) (x : str) (c : ascii) :
  In c (take_while p x) -> In c x.
Proof.
  induction x as [|d x IH]; simpl; auto.
  destruct (p d); simpl; [|contradiction]. intros [H|H]; auto.
Qed.

Lemma unwrap_braces_in (x : str) (skip : nat) (c : ascii) :
  In c (unwrap_braces x skip) -> In c x.
Proof.
  revert skip; induction x as [|d x IH]; intros skip; simpl; auto.
  destruct skip as [|k].
  - destruct (ceq d LBRACE).
    + destruct (nonempty _ && _).
      * intros H. apply in_app_or in H as [H|H].
        -- right. now apply take_while_in in H.
        -- right. now apply IH in H.
      * simpl. intros [H|H]; auto. right. now apply IH in H.
    + simpl. intros [H|H]; auto. right. now apply IH in H.
  - intros H. right. now apply IH in H.
Qed.

Lemma _clean_tex_shape (value : str) :
  trimmed (_clean_tex value) /\ plain_spaces (_clean_tex value) = true.
Proof.
  unfold _clean_tex, trimmed. split; [apply strip_idempotent|].
  apply strip_forallb. apply forallb_forall. intros c Hc.
  apply unwrap_braces_in in Hc.
  pose proof (collapse_spaces_plain value false) as H.
  unfold plain_spaces in H. rewrite forallb_forall in H. now apply H.
Qed.

Lemma lower_name_char (c : ascii) :
  is_name_char c = true -> is_key_char (lower_char c) = true.
Proof.
  destruct c as [[|] [|] [|] [|] [|] [|] [|] [|]]; vm_compute; congruence.
Qed.

Lemma match_field_name_key (x g : str) (mend : nat) :
  match_field_name x = Some (g, mend) -> key_ok (lower g) = true.
Proof.
  unfold match_field_name. destruct x as [|c r]; [discriminate|].
  destruct (is_alpha c) eqn:Ec; [|discriminate].
  destruct (skipn _ _) as [|e ?]; [discriminate|].
  destruct (ceq e "="%char); [|discriminate].
  intros H. injection H as <- _. simpl.
  rewrite (lower_alpha_is_lower c Ec). simpl.
  pose proof (take_while_all is_name_char r) as Hall.
  induction (take_while is_name_char r) as [|d tl IH]; simpl; auto.
  simpl in Hall. apply andb_true_iff in Hall as [Hd Hl].
  rewrite (lower_name_char d Hd). simpl. auto.
Qed.

(** ** The field map keeps its keys apart *)

Lemma dict_set_keys {V : Type} (d : dict V) (k k' : str) (v : V) :
  In k' (map fst (dict_set d k v)) -> k' = k \/ In k' (map fst d).
Proof.
  induction d as [|[k0 v0] d IH]; simpl.
  - intros [H|[]]. auto.
  - destruct (str_eqb k0 k); simpl.
    + intros [H|H]; auto.
    + intros [H|H]; auto. apply IH in H as [H|H]; auto.
Qed.

Lemma dict_set_nodup {V : Type} (d : dict V) (k : str) (v : V) :
  NoDup (map fst d) -> NoDup (map fst (dict_set d k v)).
Proof.
  induction d as [|[k0 v0] d IH]; simpl; intros H.
  - constructor; [intros []|constructor].
  - inversion H as [|? ? Hnot Hd]; subst.
    destruct (str_eqb k0 k) eqn:E; simpl.
    + constructor; auto.
    + constructor; [|now apply IH].
      intros Hin. apply dict_set_keys in Hin as [Hin|Hin]; auto.
      subst k0. assert (str_eqb k k = true) by now apply str_eqb_true.
      congruence.
Qed.

Lemma dict_set_forall {V : Type} (P : str * V -> Prop) (d : dict V) (k : str) (v : V) :
  (forall k', k' = k -> P (k', v)) -> Forall P d -> Forall P (dict_set d k v).
Proof.
  intros Hk. induction d as [|[k0 v0] d IH]; simpl; intros H.
  - constructor; auto.
  - inversion H as [|? ? H0 Hd]; subst.
    destruct (str_eqb k0 k) eqn:E.
    + apply str_eqb_true in E. constructor; auto.
    + constructor; auto.
Qed.


Lemma fields_wf_set (f : dict str) (x g : str) (mend : nat) (stripped : str) :
  match_field_name x = Some (g, mend) ->
  fields_wf f -> fields_wf (dict_set f (lower g) (_clean_tex stripped)).
Proof.
  intros Hm [Hnd Hall]. split; [now apply dict_set_nodup|].
  apply dict_set_forall; auto.
  intros k' ->. unfold field_wf. simpl. split.
  - eapply match_field_name_key; eauto.
  - apply _clean_tex_shape.
Qed.

Lemma field_loop_wf (k fuel : nat) (ft : str) (j : nat) (fields f' : dict str) :
  field_loop k fuel ft j fields = Ok f' -> fields_wf fields -> fields_wf f'.
Proof.
  revert j fields; induction k as [|k IH]; intros j fields H Hf; [discriminate|].
  simpl in H. destruct (j <? length ft).
  2: { injection H as <-. exact Hf. }
  apply bind_ok_inv in H as (st & Hst & H).
  destruct st as [|j' fields'].
  - injection H as <-. exact Hf.
  - apply IH in H; auto.
    apply field_body_effect in Hst
      as (j1 & g & mend & value & j3 & _ & Hm & _ & [[_ ->]|[_ (stripped & _ & ->)]]);
      auto.
    eapply fields_wf_set; eauto.
Qed.

(** ** The key of an entry *)

Lemma find_in_not_before (c : ascii) (x : str) (pos p : nat) :
  find_in c x pos = Some p -> ~ In c (firstn (p - pos) x).
Proof.
  revert pos; induction x as [|d x IH]; intros pos; simpl; [discriminate|].
  destruct (ceq d c) eqn:E.
  - intros H. injection H as <-. rewrite Nat.sub_diag. simpl. auto.
  - intros H. pose proof (find_in_ge _ _ _ H) as Hge.
    replace (p - pos) with (S (p - S pos)) by lia. simpl.
    intros [Hd|Hin].
    + subst d. unfold ceq in E. rewrite Ascii.eqb_refl in E. discriminate.
    + exact (IH _ H Hin).
Qed.

Lemma find_not_before (c : ascii) (x : str) (i p : nat) :
  find c x i = Some p -> ~ In c (slice x i p).
Proof. apply find_in_not_before. Qed.

Lemma citekey_wf_slice (raw : str) (i comma : nat) :
  find COMMA raw i = Some comma -> citekey_wf (strip (slice raw i comma)).
Proof.
  intros H. split; [apply strip_idempotent|].
  intros Hin. apply strip_in in Hin. exact (find_not_before _ _ _ H Hin).
Qed.

(** ** What a pass of the main loop adds *)

Lemma main_body_adds (fuel : nat) (raw : str) (i i' : nat)
      (entries entries' : list BibEntry) :
  main_body fuel raw i entries = Ok (MainNext i' entries') ->
  entries' = entries \/
  exists e, entries' = entries ++ [e] /\
            type_ok (entry_type e) /\ citekey_wf (citekey e) /\ fields_wf (fields e).
Proof.
  unfold main_body.
  destruct (find "@"%char raw i) as [at_|]; [|discriminate].
  destruct (match_entry_type _) as [[g mend]|] eqn:Etype.
  2: { intros H. injection H as _ <-. auto. }
  destruct (find COMMA raw _) as [comma|] eqn:Ecomma; [|discriminate].
  intros H.
  apply bind_ok_inv in H as (i1 & Hscan & H).
  apply bind_ok_inv in H as (fields & Hfields & H).
  injection H as _ <-. right. eexists. split; [reflexivity|]. simpl.
  apply match_entry_type_group in Etype as [Hne Hall].
  split; [now apply lower_letters_type_ok|].
  split; [now apply citekey_wf_slice|].
  eapply field_loop_wf; [exact Hfields|].
  split; constructor.
Qed.

Lemma main_loop_wf (k fuel : nat) (raw : str) (i : nat) (entries es : list BibEntry) :
  main_loop k fuel raw i entries = Ok es ->
  Forall (fun e => type_ok (entry_type e) /\ citekey_wf (citekey e)
                   /\ fields_wf (fields e)) entries ->
  Forall (fun e => type_ok (entry_type e) /\ citekey_wf (citekey e)
                   /\ fields_wf (fields e)) es.
Proof.
  revert i entries; induction k as [|k IH]; intros i entries H Hes; [discriminate|].
  simpl in H. destruct (i <? length raw).
  2: { injection H as <-. exact Hes. }
  apply bind_ok_inv in H as (st & Hst & H).
  destruct st as [|i' entries'].
  - injection H as <-. exact Hes.
  - apply IH in H; auto.
    apply main_body_adds in Hst as [->|(e & -> & He)]; auto.
    apply Forall_app. split; auto.
Qed.

Lemma parse_bibtex_wf (raw : str) :
  exists es,
    parse_bibtex (enough raw) raw = Ok es /\
    Forall (fun e => type_ok (entry_type e) /\ citekey_wf (citekey e)
                     /\ fields_wf (fields e)) es.
Proof.
  destruct (parse_bibtex_enough raw) as (es & H & _).
  exists es. split; auto.
  unfold parse_bibtex in H. eapply main_loop_wf; [exact H|constructor].
Qed.

(** X1: in every entry the parser returns, no field name occurs twice,
    every name is a lower-case ASCII letter followed by lower-case letters,
    digits, underscores and hyphens, and every value has no white space at
    either end and no white space inside other than plain spaces. *)
Theorem parsed_fields_are_well_formed (raw : str) :
  exists es,
    parse_bibtex (enough raw) raw = Ok es /\
    Forall (fun e =>
              NoDup (map fst (fields e)) /\
              Forall (fun kv => key_ok (fst kv) = true /\
                                strip (snd kv) = snd kv /\
                                plain_spaces (snd kv) = true) (fields e)) es.
Proof.
  destruct (parse_bibtex_wf raw) as (es & H & Hall).
  exists es. split; auto.
  eapply Forall_impl; [|exact Hall]. intros e (_ & _ & Hf). exact Hf.
Qed.

(** X2: the key of every entry the parser returns has no white space at
    either end and holds no comma. *)
Theorem parsed_citekey_is_trimmed_without_comma (raw : str) :
  exists es,
    parse_bibtex (enough raw) raw = Ok es /\
    Forall (fun e => strip (citekey e) = citekey e /\ ~ In COMMA (citekey e)) es.
Proof.
  destruct (parse_bibtex_wf raw) as (es & H & Hall).
  exists es. split; auto.
  eapply Forall_impl; [|exact Hall]. intros e (_ & Hk & _). exact Hk.
Qed.

(** ** The projection of a parsed entry takes the fields as they are *)







(** ** Texts without an entry, and comment lines *)

Lemma find_in_absent (c : ascii) (x : str) (pos : nat) :
  ~ In c x -> find_in c x pos = None.
Proof.
  revert pos; induction x as [|d x IH]; intros pos H; simpl; auto.
  destruct (ceq d c) eqn:E.
  - apply ceq_true in E. subst d. exfalso. apply H. now left.
  - apply IH. intros Hin. apply H. now right.
Qed.

Lemma skipn_in (x : str) (i : nat) (c : ascii) : In c (skipn i x) -> In c x.
Proof.
  intros H. rewrite <- (firstn_skipn i x). apply in_or_app. now right.
Qed.

Lemma main_loop_without_at (k fuel : nat) (raw : str) (i : nat)
      (entries : list BibEntry) :
  ~ In "@"%char raw -> 0 < k -> main_loop k fuel raw i entries = Ok entries.
Proof.
  intros Hno Hk. destruct k as [|k]; [lia|]. simpl.
  destruct (i <? length raw); auto.
  unfold main_body, find. rewrite find_in_absent; auto.
  intros Hin. apply Hno. eapply skipn_in. exact Hin.
Qed.

Lemma splitlines_from_in (n : nat) :
  forall (raw cur : str) (started : bool) (l : str) (c : ascii),
    length raw <= n ->
    In l (splitlines_from raw cur started) -> In c l -> In c cur \/ In c raw.
Proof.
  induction n as [|n IH]; intros raw cur started l c Hn Hl Hc.
  - destruct raw; [|simpl in Hn; lia]. simpl in Hl.
    destruct started; [|contradiction]. destruct Hl as [<-|[]]. auto.
  - destruct raw as [|d r].
    { simpl in Hl. destruct started; [|contradiction]. destruct Hl as [<-|[]]. auto. }
    simpl in Hn. cbn [splitlines_from] in Hl. destruct (is_linebreak d).
    + destruct r as [|d' r'].
      * simpl in Hl. destruct Hl as [<-|[]]. auto.
      * simpl in Hn. destruct (ceq d CR && ceq d' LF).
        -- destruct Hl as [<-|Hl]; auto.
           assert (Hr : length r' <= n) by lia.
           destruct (IH r' [] false l c Hr Hl Hc) as [[]|H].
           right. right. now right.
        -- destruct Hl as [<-|Hl]; auto.
           assert (Hr : length (d' :: r') <= n) by (simpl; lia).
           destruct (IH (d' :: r') [] false l c Hr Hl Hc) as [[]|H].
           right. now right.
    + assert (Hr : length r <= n) by lia.
      destruct (IH r (cur ++ [d]) true l c Hr Hl Hc) as [H|H].
      * apply in_app_or in H as [H|[<-|[]]]; auto. right. now left.
      * right. now right.
Qed.

Lemma join_in (sep : str) (ls : list str) (c : ascii) :
  In c (join sep ls) -> In c sep \/ exists l, In l ls /\ In c l.
Proof.
  induction ls as [|l ls IH]; simpl; [contradiction|].
  destruct ls as [|l' ls'].
  - intros H. right. exists l. auto.
  - intros H. apply in_app_or in H as [H|H].
    + right. exists l. auto.
    + apply in_app_or in H as [H|H]; auto.
      destruct (IH H) as [H'|(l0 & Hl0 & Hc)]; auto.
      right. exists l0. split; [now right | exact Hc].
Qed.

Lemma drop_comment_lines_in (raw : str) (c : ascii) :
  In c (drop_comment_lines raw) -> c = LF \/ In c raw.
Proof.
  unfold drop_comment_lines. intros H.
  apply join_in in H as [[<-|[]]|(l & Hl & Hc)]; auto.
  apply filter_In in Hl as [Hl _]. unfold splitlines in Hl.
  destruct (@splitlines_from_in (length raw) raw [] false l c (le_n _) Hl Hc)
    as [[]|H]; auto.
Qed.

(** X4: a text without any [@], the empty text included, has no entries:
    the parser returns the empty list, whatever the (positive) fuel. *)
Theorem text_without_at_has_no_entries (raw : str) (fuel : nat) :
  ~ In "@"%char raw -> 0 < fuel -> parse_bibtex fuel raw = Ok [].
Proof.
  intros Hno Hf. unfold parse_bibtex. apply main_loop_without_at; auto.
  intros Hin. apply drop_comment_lines_in in Hin as [H|H]; auto.
  discriminate H.
Qed.

Lemma text_without_at_has_no_entries_witness :
  parse_bibtex 1 [] = Ok [] /\
  parse_bibtex 1 (lit "article{k, title={T}}") = Ok [].
Proof.
  split.
  - apply text_without_at_has_no_entries; [intros [] | apply Nat.lt_0_1].
  - apply text_without_at_has_no_entries; [|apply Nat.lt_0_1].
    intros H. simpl in H.
    repeat (destruct H as [H|H]; [discriminate H|]). exact H.
Defined.

Lemma splitlines_from_app_lf (n : nat) :
  forall (a b cur : str) (started : bool),
    length a <= n ->
    splitlines_from (a ++ LF :: b) cur started
    = splitlines_from (a ++ [LF]) cur started ++ splitlines_from b [] false.
Proof.
  induction n as [|n IH]; intros a b cur started Hn.
  - destruct a; [|simpl in Hn; lia]. simpl. destruct b; reflexivity.
  - destruct a as [|c a']; [simpl; destruct b; reflexivity|].
    simpl in Hn. cbn [app splitlines_from]. destruct (is_linebreak c).
    + destruct a' as [|d a''].
      * cbn [app]. destruct (ceq c CR && ceq LF LF).
        -- simpl. reflexivity.
        -- destruct b; reflexivity.
      * cbn [app]. destruct (ceq c CR && ceq d LF).
        -- rewrite (IH a'' b [] false) by (simpl in Hn; lia). reflexivity.
        -- assert (Hd : length (d :: a'') <= n) by (simpl in *; lia).
           pose proof (IH (d :: a'') b [] false Hd) as E. cbn [app] in E.
           rewrite E. reflexivity.
    + apply IH. lia.
Qed.

Lemma splitlines_from_one_line (line cur : str) (started : bool) :
  one_line line -> splitlines_from (line ++ [LF]) cur started = [cur ++ line].
Proof.
  unfold one_line. revert cur started.
  induction line as [|c line IH]; intros cur started H.
  - simpl. now rewrite app_nil_r.
  - simpl in H. apply andb_true_iff in H as [Hc Hl].
    cbn [app splitlines_from].
    destruct (is_linebreak c); [discriminate|].
    rewrite IH by exact Hl. now rewrite <- app_assoc.
Qed.

Lemma splitlines_line_lf (a line rest : str) :
  one_line line ->
  splitlines (a ++ LF :: line ++ LF :: rest)
  = splitlines (a ++ [LF]) ++ [line] ++ splitlines rest.
Proof.
  intros Hl. unfold splitlines.
  rewrite (@splitlines_from_app_lf (length a) a (line ++ LF :: rest) [] false (le_n _)).
  f_equal.
  rewrite (@splitlines_from_app_lf (length line) line rest [] false (le_n _)).
  now rewrite splitlines_from_one_line.
Qed.

Lemma join_filter_app (p : str -> bool) (x y : list str) (line : str) :
  p line = false -> filter p (x ++ [line] ++ y) = filter p (x ++ y).
Proof.
  intros H. rewrite !filter_app. simpl. now rewrite H.
Qed.

Lemma drop_leading_comment (line rest : str) :
  comment_line line -> drop_comment_lines (line ++ LF :: rest) = drop_comment_lines rest.
Proof.
  intros [Hl Hc]. unfold drop_comment_lines, splitlines.
  rewrite (@splitlines_from_app_lf (length line) line rest [] false (le_n _)).
  rewrite splitlines_from_one_line by exact Hl.
  cbn [app filter]. rewrite Hc. reflexivity.
Qed.

Lemma drop_inner_comment (a line rest : str) :
  comment_line line ->
  drop_comment_lines (a ++ LF :: line ++ LF :: rest) = drop_comment_lines (a ++ LF :: rest).
Proof.
  intros [Hl Hc]. unfold drop_comment_lines.
  rewrite splitlines_line_lf by exact Hl.
  rewrite join_filter_app by (rewrite Hc; reflexivity).
  unfold splitlines.
  now rewrite (@splitlines_from_app_lf (length a) a rest [] false (le_n _)).
Qed.

(** X5: a full-line comment (a line whose first character after the
    leading white space is the percent sign) is dropped before the scan:
    the parser returns for a text with such a line, at the start or
    between two lines, what it returns for the text without it, even when
    the line holds an entry. *)
Theorem comment_lines_are_ignored (fuel : nat) (line : str) :
  comment_line line ->
  (forall rest, parse_bibtex fuel (line ++ LF :: rest) = parse_bibtex fuel rest) /\
  (forall a rest,
      parse_bibtex fuel (a ++ LF :: line ++ LF :: rest)
      = parse_bibtex fuel (a ++ LF :: rest)).
Proof.
  intros Hc. split.
  - intros rest. unfold parse_bibtex. now rewrite drop_leading_comment.
  - intros a rest. unfold parse_bibtex. now rewrite drop_inner_comment.
Qed.

Lemma comment_lines_are_ignored_witness :
  parse_bibtex 100 (lit "  % @misc{old, note={gone}}" ++ LF :: book_bib)
  = parse_bibtex 100 book_bib /\
  parse_bibtex 100 (book_bib ++ LF :: lit "%@misc{old, note={gone}}" ++ LF :: book_bib)
  = parse_bibtex 100 (book_bib ++ LF :: book_bib).
Proof.
  split.
  - apply (proj1 (@comment_lines_are_ignored 100 (lit "  % @misc{old, note={gone}}")
                    (conj eq_refl eq_refl))).
  - apply (proj2 (@comment_lines_are_ignored 100 (lit "%@misc{old, note={gone}}")
                    (conj eq_refl eq_refl))).
Defined.

(** ** The authors of a record *)

Lemma strip_infix (x : str) : exists a b, x = a ++ strip x ++ b.
Proof.
  unfold strip. destruct (rstrip_spaces (lstrip x)) as (ws & Hx & _).
  exists (take_while isspace x), ws.
  rewrite <- Hx. unfold lstrip. apply take_drop_while.
Qed.

Lemma contains_strip (sep x : str) : contains sep (strip x) -> contains sep x.
Proof.
  intros (u & w & H). destruct (strip_infix x) as (a & b & Hx).
  exists (a ++ u), (w ++ b). rewrite Hx at 1. rewrite H.
  now rewrite <- !app_assoc.
Qed.

Lemma startswith_app (sep w : str) : startswith sep (sep ++ w) = true.
Proof. apply startswith_iff. eauto. Qed.

Lemma split_from_pieces (s0 : ascii) (sep' : str) :
  forall (x cur : str) (skip : nat) (piece : str),
    (0 < skip -> cur = []) ->
    (forall u w, cur = u ++ w -> w <> [] ->
                 startswith (s0 :: sep') (w ++ x) = false) ->
    In piece (split_from (s0 :: sep') x cur skip) ->
    ~ contains (s0 :: sep') piece.
Proof.
  set (sep := s0 :: sep').
  assert (Hcur : forall x cur piece,
             (forall u w, cur = u ++ w -> w <> [] -> startswith sep (w ++ x) = false) ->
             piece = cur -> ~ contains sep piece).
  { intros x cur piece Hinv -> (u & w & Hc).
    assert (Hf := Hinv u (sep ++ w) Hc ltac:(discriminate)).
    rewrite <- app_assoc, startswith_app in Hf. discriminate. }
  assert (Hnil : forall x u w, @nil ascii = u ++ w -> w <> [] ->
                               startswith sep (w ++ x) = false).
  { intros x u w H Hw. symmetry in H. apply app_eq_nil in H as [_ ->].
    contradiction. }
  induction x as [|c r IH]; intros cur skip piece Hskip Hinv Hin.
  - simpl in Hin. destruct Hin as [<-|[]]. eapply Hcur; eauto.
  - cbn [split_from] in Hin. destruct skip as [|k].
    + destruct (startswith sep (c :: r)) eqn:E.
      * destruct Hin as [<-|Hin]; [eapply Hcur; eauto|].
        apply (IH [] (length sep - 1) piece);
          [reflexivity | apply Hnil | exact Hin].
      * apply (IH (cur ++ [c]) 0 piece); [lia | | exact Hin].
        intros u w Hc Hw.
        destruct (exists_last Hw) as (w0 & c' & ->).
        rewrite app_assoc in Hc. apply app_inj_tail in Hc as [-> <-].
        rewrite <- app_assoc. cbn [app].
        destruct w0 as [|d w0]; [exact E|].
        apply (Hinv u (d :: w0)); [reflexivity | discriminate].
    + rewrite (Hskip ltac:(lia)) in Hin.
      apply (IH [] k piece); [reflexivity | apply Hnil | exact Hin].
Qed.

Lemma split_pieces (x piece : str) :
  In piece (split (lit " and ") x) -> ~ contains (lit " and ") piece.
Proof.
  unfold split. change (lit " and ") with (" "%char :: lit "and ").
  apply split_from_pieces; [lia|].
  intros u w H Hw. symmetry in H. apply app_eq_nil in H as [_ ->]. contradiction.
Qed.

(** X6: every author of a record is a non-empty name without white space
    at either end in which the separator [ and ] does not occur; a record
    never lists an empty author. *)
Theorem authors_are_nonempty_trimmed_names (e : BibEntry) :
  Forall (fun a => a <> [] /\ strip a = a /\ ~ contains (lit " and ") a)
         (pub_authors e).
Proof.
  unfold pub_authors. destruct (nonempty _); [|constructor].
  apply Forall_forall. intros a Ha.
  apply filter_In in Ha as [Ha Hne].
  apply in_map_iff in Ha as (piece & <- & Hp).
  split; [|split].
  - intros E. rewrite E in Hne. discriminate.
  - apply strip_idempotent.
  - intros Hc. apply contains_strip in Hc. exact (@split_pieces _ _ Hp Hc).
Qed.

(** ** The year of a record *)

Lemma digit_value_range (c : ascii) :
  is_digit c = true -> (0 <=? digit_value c)%Z && (digit_value c <=? 9)%Z = true.
Proof.
  destruct c as [[|] [|] [|] [|] [|] [|] [|] [|]]; vm_compute; congruence.
Qed.

Lemma pub_year_range (e : BibEntry) :
  pub_year e = VNone \/ exists z, pub_year e = VInt z /\ (0 <= z <= 9999)%Z.
Proof.
  rewrite pub_year_first_run4.
  destruct (first_run4 _) as [m|] eqn:E; [|now left].
  apply first_run4_digits in E as (d1 & d2 & d3 & d4 & -> & H1 & H2 & H3 & H4).
  rewrite int_of_four_digits by assumption.
  right. eexists. split; [reflexivity|]. unfold value4.
  apply digit_value_range in H1, H2, H3, H4.
  apply andb_true_iff in H1 as [? ?]. apply andb_true_iff in H2 as [? ?].
  apply andb_true_iff in H3 as [? ?]. apply andb_true_iff in H4 as [? ?].
  lia.
Qed.

(** X7: the [year] of a record, when it has one, is an integer from 0 to
    9999. *)
Theorem year_is_between_0_and_9999 (e : BibEntry) :
  match dict_get (entry_to_publication e) (lit "year") with
  | Some (VInt z) => (0 <= z <= 9999)%Z
  | Some _ => False
  | None => True
  end.
Proof.
  destruct (entry_to_publication_lookup e) as (_ & _ & _ & Hy & _).
  cbv zeta in Hy. rewrite Hy.
  destruct (pub_year_range e) as [->|(z & -> & Hz)]; auto.
Qed.

(** X8: the keys of a record are those of the literal in the source in
    its order (title, authors, year, venue, type, links), some of the
    optional ones left out: the order of the keys does not depend on the
    entry. *)
Theorem record_keys_keep_their_order (e : BibEntry) :
  subseq (map fst (entry_to_publication e)) record_keys = true /\
  NoDup (map fst (entry_to_publication e)).
Proof.
  unfold entry_to_publication.
  destruct (pub_year_cases e) as [Hy|[z Hy]]; rewrite Hy;
    generalize (pub_title e) (entry_type e); intros title type;
    destruct (pub_authors e) as [|a authors];
    destruct (pub_venue e) as [|c venue];
    destruct (pub_links e) as [|l links];
    (split; [reflexivity|]);
    cbv [pop_if dict_get dict_pop falsy is_none str_eqb ceq lit list_ascii_of_string
         Ascii.eqb Bool.eqb andb map fst];
    repeat (constructor; [simpl; intuition discriminate|]); constructor.
Qed.

(** ** Sorting twice *)

Lemma sort_decorated_of_sorted {A : Type} (l : list (sortkey * A)) :
  StronglySorted key_le l -> sort_decorated l = l.
Proof.
  induction 1 as [|x r Hs IH Hall]; simpl; auto.
  rewrite IH. destruct r as [|y r']; simpl; auto.
  inversion Hall as [|? ? Hxy _]; subst. unfold key_le in Hxy.
  now rewrite Hxy.
Qed.

Lemma decorate_map_snd (l : list (sortkey * pub)) :
  Forall (fun kp => sort_key (snd kp) = Ok (fst kp)) l ->
  decorate (map snd l) = Ok l.
Proof.
  induction 1 as [|[k p] l Hk Hl IH]; simpl; auto.
  simpl in Hk. rewrite Hk. simpl. rewrite IH. reflexivity.
Qed.

(** X9: sorting the records of the projection again changes nothing, and
    the sort neither drops nor adds a record. *)
Theorem sorting_twice_changes_nothing (es : list BibEntry) :
  exists sorted,
    sort_pubs (map entry_to_publication es) = Ok sorted /\
    sort_pubs sorted = Ok sorted /\
    length sorted = length es.
Proof.
  unfold sort_pubs at 1. rewrite decorate_projected. cbn [bind].
  set (l := map (fun p => (key_of p, p)) (map entry_to_publication es)).
  exists (map snd (sort_decorated l)). split; [reflexivity|]. split.
  - unfold sort_pubs. rewrite decorate_map_snd.
    + cbn [bind]. now rewrite sort_decorated_of_sorted by apply sort_decorated_sorted.
    + eapply Permutation_Forall; [apply sort_decorated_perm|].
      unfold l. apply Forall_map. apply Forall_map. apply Forall_forall.
      intros e _. simpl. apply sort_key_projected.
  - rewrite length_map.
    rewrite <- (Permutation_length (sort_decorated_perm l)).
    unfold l. now rewrite !length_map.
Qed.

(** ** The errors of main *)




(** ** The position _parse_value returns *)

Ltac by_IH_bounds IH :=
  eapply spec_weaken; [apply IH | simpl; intros; lia | simpl; intros; lia].

Lemma skip_spaces_bounds (k : nat) (text : str) (i : nat) :
  spec (fun i' => i <= i' <= Nat.max i (length text)) (k <= length text - i)
       (skip_spaces k text i).
Proof.
  revert i; induction k as [|k IH]; intros i; simpl; [lia|].
  loop_step IH. destruct (isspace ch); simpl; [by_IH_bounds IH | lia].
Qed.

Lemma scan_braces_bounds (k : nat) (text : str) (i : nat) (depth : Z) :
  spec (fun i' => i <= i' <= Nat.max i (length text)) (k <= length text - i)
       (scan_braces k text i depth).
Proof.
  revert i depth; induction k as [|k IH]; intros i depth; simpl; [lia|].
  loop_step IH.
  destruct (ceq ch LBRACE); [by_IH_bounds IH|].
  destruct (ceq ch RBRACE); [|by_IH_bounds IH].
  destruct (depth - 1 =? 0)%Z; simpl; [lia | by_IH_bounds IH].
Qed.

Lemma scan_quoted_bounds (k : nat) (text : str) (start i : nat) (escaped : bool) :
  spec (fun r => i <= snd r <= Nat.max i (length text)) (k <= length text - i)
       (scan_quoted k text start i escaped).
Proof.
  revert i escaped; induction k as [|k IH]; intros i escaped; simpl; [lia|].
  destruct (Nat.ltb_spec i (length text)) as [Hlt|Hge]; simpl; [|lia].
  destruct (get_in_range text Hlt) as [ch Hch]; rewrite Hch; simpl.
  destruct escaped; [by_IH_bounds IH|].
  destruct (ceq ch BACKSLASH); [by_IH_bounds IH|].
  destruct (ceq ch DQUOTE); simpl; [lia | by_IH_bounds IH].
Qed.

Lemma scan_bareword_bounds (k : nat) (text : str) (i : nat) :
  spec (fun i' => i <= i' <= Nat.max i (length text)) (k <= length text - i)
       (scan_bareword k text i).
Proof.
  revert i; induction k as [|k IH]; intros i; simpl; [lia|].
  loop_step IH.
  destruct (negb (char_in ch [COMMA; LF; CR; RBRACE])); simpl; [by_IH_bounds IH | lia].
Qed.

Lemma _parse_value_bounds (fuel : nat) (text : str) (i : nat) :
  spec (fun r => i <= snd r <= Nat.max i (length text)) (fuel <= length text)
       (_parse_value fuel text i).
Proof.
  unfold _parse_value.
  eapply spec_bind with (P := fun i1 => i <= i1 <= Nat.max i (length text)).
  { eapply spec_weaken; [apply skip_spaces_bounds | auto | lia]. }
  intros i1 Hi1.
  destruct (Nat.leb_spec (length text) i1) as [Hge|Hlt]; simpl; [lia|].
  destruct (get_in_range text Hlt) as [ch Hch]; rewrite Hch; simpl.
  destruct (ceq ch LBRACE).
  { eapply spec_bind with (P := fun i2 => i1 <= i2 <= Nat.max i1 (length text)).
    - eapply spec_weaken; [apply scan_braces_bounds | auto | lia].
    - intros i2 Hi2. simpl. lia. }
  destruct (ceq ch DQUOTE).
  { eapply spec_weaken;
      [apply scan_quoted_bounds | intros [v i2] ?; simpl in *; lia | intros; lia]. }
  eapply spec_bind with (P := fun i2 => i1 <= i2 <= Nat.max i1 (length text)).
  - eapply spec_weaken; [apply scan_bareword_bounds | auto | lia].
  - intros i2 Hi2. simpl. lia.
Qed.

(** X11: [_parse_value] never moves backwards and never past the end of
    the text: with fuel above the length of the text it returns a value
    and a position between the start position and the end of the text (the
    start position itself when that is at or behind the end, and then the
    value is empty). *)
Theorem _parse_value_stays_in_the_text (fuel : nat) (text : str) (i : nat) :
  length text < fuel ->
  exists value i',
    _parse_value fuel text i = Ok (value, i') /\
    i <= i' <= Nat.max i (length text) /\
    (length text <= i -> value = [] /\ i' = i).
Proof.
  intros Hf.
  destruct (@spec_ok _ _ _ _ (_parse_value_bounds fuel text i) ltac:(lia))
    as ([value i'] & H & Hb).
  exists value, i'. split; [exact H|]. split; [exact Hb|].
  intros Hi. unfold _parse_value in H.
  destruct fuel as [|k]; [lia|]. simpl in H.
  replace (i <? length text) with false in H
    by (symmetry; apply Nat.ltb_ge; exact Hi).
  simpl in H.
  replace (length text <=? i) with true in H
    by (symmetry; apply Nat.leb_le; exact Hi).
  injection H as <- <-. auto.
Qed.

Lemma _parse_value_stays_in_the_text_witness :
  exists value i',
    _parse_value 30 bad_field_block 7 = Ok (value, i') /\
    7 <= i' <= Nat.max 7 (length bad_field_block) /\
    (length bad_field_block <= 7 -> value = [] /\ i' = 7).
Proof.
  apply _parse_value_stays_in_the_text. apply Nat.ltb_lt. reflexivity.
Defined.

(** ** The loops on a text from a position on *)

Lemma ltb_shift (n i m : nat) : (n + i <? n + m) = (i <? m).
Proof.
  destruct (Nat.ltb_spec i m), (Nat.ltb_spec (n + i) (n + m)); auto; lia.
Qed.

Lemma skip_separators_app_shift (k : nat) (a b : str) (j : nat) :
  skip_separators k (a ++ b) (length a + j)
  = (r <- skip_separators k b j;; Ok (length a + r)).
Proof.
  revert j; induction k as [|k IH]; intros j; simpl; auto.
  rewrite length_app, get_app_shift, ltb_shift.
  destruct (j <? length b); simpl; auto.
  destruct (get b j) as [ch| |]; simpl; auto.
  replace (length a + j + 1) with (length a + (j + 1)) by lia.
  destruct (char_in ch _); [apply IH | reflexivity].
Qed.

Lemma skip_spaces_app_shift (k : nat) (a b : str) (i : nat) :
  skip_spaces k (a ++ b) (length a + i)
  = (r <- skip_spaces k b i;; Ok (length a + r)).
Proof.
  revert i; induction k as [|k IH]; intros i; simpl; auto.
  rewrite length_app, get_app_shift, ltb_shift.
  destruct (i <? length b); simpl; auto.
  destruct (get b i) as [ch| |]; simpl; auto.
  replace (length a + i + 1) with (length a + (i + 1)) by lia.
  destruct (isspace ch); [apply IH | reflexivity].
Qed.

Lemma scan_braces_app_shift (k : nat) (a b : str) (i : nat) (depth : Z) :
  scan_braces k (a ++ b) (length a + i) depth
  = (r <- scan_braces k b i depth;; Ok (length a + r)).
Proof.
  revert i depth; induction k as [|k IH]; intros i depth; simpl; auto.
  rewrite length_app, get_app_shift, ltb_shift.
  destruct (i <? length b); simpl; auto.
  destruct (get b i) as [ch| |]; simpl; auto.
  replace (length a + i + 1) with (length a + (i + 1)) by lia.
  destruct (ceq ch LBRACE); [apply IH|].
  destruct (ceq ch RBRACE); [|apply IH].
  destruct (depth - 1 =? 0)%Z; [reflexivity | apply IH].
Qed.

Lemma scan_quoted_app_shift (k : nat) (a b : str) (start i : nat) (escaped : bool) :
  scan_quoted k (a ++ b) (length a + start) (length a + i) escaped
  = (r <- scan_quoted k b start i escaped;; Ok (fst r, length a + snd r)).
Proof.
  revert i escaped; induction k as [|k IH]; intros i escaped; simpl; auto.
  rewrite length_app, get_app_shift, ltb_shift, slice_app_shift.
  destruct (i <? length b); simpl; auto.
  destruct (get b i) as [ch| |]; simpl; auto.
  replace (length a + i + 1) with (length a + (i + 1)) by lia.
  destruct escaped; [apply IH|].
  destruct (ceq ch BACKSLASH); [apply IH|].
  destruct (ceq ch DQUOTE); [reflexivity | apply IH].
Qed.

Lemma scan_bareword_app_shift (k : nat) (a b : str) (i : nat) :
  scan_bareword k (a ++ b) (length a + i)
  = (r <- scan_bareword k b i;; Ok (length a + r)).
Proof.
  revert i; induction k as [|k IH]; intros i; simpl; auto.
  rewrite length_app, get_app_shift, ltb_shift.
  destruct (i <? length b); simpl; auto.
  destruct (get b i) as [ch| |]; simpl; auto.
  replace (length a + i + 1) with (length a + (i + 1)) by lia.
  destruct (negb (char_in ch _)); [apply IH | reflexivity].
Qed.

Lemma _parse_value_app_shift (k : nat) (a b : str) (i : nat) :
  _parse_value k (a ++ b) (length a + i)
  = (r <- _parse_value k b i;; Ok (fst r, length a + snd r)).
Proof.
  unfold _parse_value. rewrite skip_spaces_app_shift.
  destruct (skip_spaces k b i) as [i1| |]; simpl; auto.
  rewrite length_app, get_app_shift.
  replace (length a + length b <=? length a + i1) with (length b <=? i1)
    by (destruct (Nat.leb_spec (length b) i1),
          (Nat.leb_spec (length a + length b) (length a + i1)); auto; lia).
  destruct (length b <=? i1); simpl; auto.
  destruct (get b i1) as [ch| |]; simpl; auto.
  destruct (ceq ch LBRACE).
  { rewrite scan_braces_app_shift.
    destruct (scan_braces k b i1 0) as [i2| |]; simpl; auto.
    now rewrite slice_app_shift. }
  destruct (ceq ch DQUOTE).
  { replace (length a + i1 + 1) with (length a + (i1 + 1)) by lia.
    apply scan_quoted_app_shift. }
  rewrite scan_bareword_app_shift.
  destruct (scan_bareword k b i1) as [i2| |]; simpl; auto.
  now rewrite slice_app_shift.
Qed.

(** ** The loops over a stretch of text without braces *)

Lemma bind_ok_id {A : Type} (m : result A) : (r <- m;; Ok r) = m.
Proof. destruct m; reflexivity. Qed.

Lemma not_brace_ceq (c : ascii) :
  not_brace c = true -> ceq c LBRACE = false /\ ceq c RBRACE = false.
Proof.
  unfold not_brace. intros H. apply negb_true_iff, orb_false_iff in H. exact H.
Qed.

Lemma scan_braces_flat (body rest : str) (k : nat) (depth : Z) :
  forallb not_brace body = true ->
  scan_braces (length body + k) (body ++ rest) 0 depth
  = (r <- scan_braces k rest 0 depth;; Ok (length body + r)).
Proof.
  induction body as [|c body IH]; intros H.
  - simpl. now rewrite bind_ok_id.
  - simpl in H. apply andb_true_iff in H as [Hc Hb].
    apply not_brace_ceq in Hc as [Hl Hr].
    cbn [length Nat.add app scan_braces].
    unfold get. cbn [nth_error bind]. rewrite Hl, Hr.
    change (c :: body ++ rest) with ([c] ++ (body ++ rest)).
    change (0 + 1) with (length [c] + 0).
    rewrite scan_braces_app_shift, (IH Hb).
    destruct (scan_braces k rest 0 depth); reflexivity.
Qed.

Lemma scan_braces_group (body rest : str) (k : nat) :
  forallb not_brace body = true ->
  length body + 2 <= k ->
  scan_braces k (LBRACE :: body ++ RBRACE :: rest) 0 0 = Ok (length body + 2).
Proof.
  intros Hb Hk.
  apply scan_braces_mono with (k := S (length body + 1)); [lia|].
  cbn [scan_braces length]. unfold get. cbn [nth_error bind Nat.ltb Nat.leb].
  change (ceq LBRACE LBRACE) with true. cbv iota.
  change (LBRACE :: body ++ RBRACE :: rest) with ([LBRACE] ++ (body ++ RBRACE :: rest)).
  change (0 + 1) with (length [LBRACE] + 0).
  rewrite scan_braces_app_shift.
  rewrite scan_braces_flat by exact Hb.
  simpl. f_equal. lia.
Qed.




Lemma get_app_here (a rest : str) (c : ascii) : get (a ++ c :: rest) (length a) = Ok c.
Proof.
  unfold get. rewrite nth_error_app2 by lia. now rewrite Nat.sub_diag.
Qed.

Lemma ltb_app_here (a rest : str) (c : ascii) :
  (length a <? length (a ++ c :: rest)) = true.
Proof. apply Nat.ltb_lt. rewrite length_app. simpl. lia. Qed.



(** ** Names, separators and trimming on known text *)

Lemma take_while_app_stop (p : ascii -> bool) (l rest : str) (c : ascii) :
  forallb p l = true -> p c = false -> take_while p (l ++ c :: rest) = l.
Proof.
  intros Hl Hc. induction l as [|d l IH]; simpl.
  - now rewrite Hc.
  - simpl in Hl. apply andb_true_iff in Hl as [Hd Hl]. rewrite Hd.
    f_equal. now apply IH.
Qed.

Lemma skipn_app_here (a rest : str) : skipn (length a) (a ++ rest) = rest.
Proof.
  rewrite skipn_app, skipn_all, Nat.sub_diag. reflexivity.
Qed.

Lemma match_entry_type_exact (ty rest : str) :
  ty <> [] -> forallb is_alpha ty = true ->
  match_entry_type (ty ++ LBRACE :: rest) = Some (ty, length ty + 1).
Proof.
  intros Hne Hall. unfold match_entry_type.
  rewrite (take_while_app_stop is_alpha ty rest LBRACE Hall eq_refl).
  rewrite skipn_app_here.
  cbn [take_while]. change (isspace LBRACE) with false. cbv iota.
  change (length (@nil ascii)) with 0.
  destruct ty as [|t0 ty']; [contradiction|]. cbv iota.
  rewrite !Nat.add_0_r, skipn_app_here. reflexivity.
Qed.

Lemma match_field_name_exact (name rest : str) :
  name_shape name ->
  match_field_name (name ++ "="%char :: rest) = Some (name, length name + 1).
Proof.
  destruct name as [|c r]; [contradiction|]. intros [Hc Hr].
  unfold match_field_name. cbn [app]. rewrite Hc.
  rewrite (take_while_app_stop is_name_char r rest "="%char Hr eq_refl).
  change (c :: r ++ "="%char :: rest) with ((c :: r) ++ "="%char :: rest).
  rewrite skipn_app_here.
  cbn [take_while]. change (isspace "="%char) with false. cbv iota.
  change (length (@nil ascii)) with 0. rewrite Nat.add_0_r, skipn_app_here.
  reflexivity.
Qed.

Lemma pad_is_separator (c : ascii) :
  is_pad c = true -> char_in c [LF; CR; TAB; " "%char; COMMA] = true.
Proof.
  destruct c as [[|] [|] [|] [|] [|] [|] [|] [|]]; vm_compute; congruence.
Qed.

Lemma alpha_not_separator (c : ascii) :
  is_alpha c = true -> char_in c [LF; CR; TAB; " "%char; COMMA] = false.
Proof.
  destruct c as [[|] [|] [|] [|] [|] [|] [|] [|]]; vm_compute; congruence.
Qed.

Lemma skip_separators_run (pad rest : str) (c : ascii) (k : nat) :
  forallb is_pad pad = true ->
  char_in c [LF; CR; TAB; " "%char; COMMA] = false ->
  length pad + 1 <= k ->
  skip_separators k (pad ++ c :: rest) 0 = Ok (length pad).
Proof.
  intros Hp Hc Hk.
  apply skip_separators_mono with (k := length pad + 1); [lia|]. clear Hk.
  induction pad as [|p pad IH].
  - cbn [length Nat.add app skip_separators Nat.ltb Nat.leb].
    unfold get. cbn [nth_error bind]. now rewrite Hc.
  - simpl in Hp. apply andb_true_iff in Hp as [Hp Hpad].
    cbn [length Nat.add app skip_separators Nat.ltb Nat.leb].
    unfold get. cbn [nth_error bind]. rewrite (pad_is_separator p Hp).
    change (p :: pad ++ c :: rest) with ([p] ++ (pad ++ c :: rest)).
    change (0 + 1) with (length [p] + 0).
    rewrite skip_separators_app_shift, (IH Hpad). reflexivity.
Qed.

Lemma strip_id (x : str) : no_lead x -> no_lead (rev x) -> strip x = x.
Proof.
  intros H1 H2. unfold strip, lstrip, rstrip.
  rewrite (drop_while_id isspace x H1).
  rewrite (drop_while_id isspace (rev x) H2). apply rev_involutive.
Qed.

(** ** A value between its delimiters *)

Lemma wrapped_strip (o c : ascii) (body : str) :
  isspace o = false -> isspace c = false -> strip (o :: body ++ [c]) = o :: body ++ [c].
Proof.
  intros Ho Hc. apply strip_id; [exact Ho|].
  change (o :: body ++ [c]) with ((o :: body) ++ [c]).
  rewrite rev_app_distr. exact Hc.
Qed.

Lemma wrapped_rstrip_commas (o c : ascii) (body : str) :
  ceq COMMA c = false -> rstrip_commas (o :: body ++ [c]) = o :: body ++ [c].
Proof.
  intros Hc. unfold COMMA in Hc. unfold rstrip_commas.
  change (o :: body ++ [c]) with ((o :: body) ++ [c]).
  rewrite rev_app_distr. set (l := rev (o :: body)).
  change (rev [c] ++ l) with (c :: l). cbn [drop_while]. rewrite Hc.
  cbn [rev]. subst l. now rewrite rev_involutive.
Qed.

Lemma wrapped_strip_outer (o c : ascii) (body : str) :
  isspace o = false -> isspace c = false -> ceq COMMA c = false ->
  (ceq o LBRACE && ceq c RBRACE) || (ceq o DQUOTE && ceq c DQUOTE) = true ->
  _strip_outer_braces (o :: body ++ [c]) = Ok (strip body).
Proof.
  intros Ho Hc Hcomma Hd. unfold _strip_outer_braces.
  rewrite wrapped_strip, wrapped_rstrip_commas by assumption.
  replace (2 <=? length (o :: body ++ [c])) with true.
  2: { symmetry. apply Nat.leb_le. simpl. rewrite length_app. simpl. lia. }
  unfold get at 1. cbn [nth_error bind].
  replace (length (o :: body ++ [c]) - 1) with (length (o :: body)).
  2: { simpl. rewrite length_app. simpl. lia. }
  change (o :: body ++ [c]) with ((o :: body) ++ [c]).
  rewrite get_app_here. cbn [bind]. rewrite Hd.
  do 2 f_equal. unfold slice. cbn [app skipn length].
  replace (S (length body) - 1) with (length body) by lia.
  rewrite firstn_app, firstn_all, Nat.sub_diag. cbn [firstn]. apply app_nil_r.
Qed.

Lemma _parse_value_braced (body : str) (k : nat) :
  forallb not_brace body = true ->
  length body + 2 <= k ->
  _parse_value k (LBRACE :: body ++ [RBRACE]) 0
  = Ok (LBRACE :: body ++ [RBRACE], length body + 2).
Proof.
  intros Hb Hk. unfold _parse_value.
  destruct k as [|k]; [lia|].
  cbn [skip_spaces length Nat.ltb Nat.leb]. unfold get at 1. cbn [nth_error bind].
  change (isspace LBRACE) with false. cbv iota. cbn [bind Nat.leb].
  unfold get at 1. cbn [nth_error bind]. change (ceq LBRACE LBRACE) with true. cbv iota.
  rewrite scan_braces_group by (auto; lia). cbn [bind].
  unfold slice. cbn [skipn]. rewrite Nat.sub_0_r.
  rewrite firstn_all2 by (simpl; rewrite length_app; simpl; lia).
  now rewrite wrapped_strip.
Qed.


(** ** A value that is stored as it stands *)




(** ** The field loop on one field *)

Lemma field_loop_single (pad name V S : str) (k fuel : nat) :
  forallb is_pad pad = true ->
  name_shape name ->
  V <> [] ->
  _parse_value fuel V 0 = Ok (V, length V) ->
  _strip_outer_braces V = Ok S ->
  2 <= k -> length pad + 1 <= fuel ->
  field_loop k fuel (pad ++ name ++ "="%char :: V) 0 []
  = Ok [(lower name, _clean_tex S)].
Proof.
  intros Hpad Hname HV Hparse Hstrip Hk Hfuel.
  set (FT := pad ++ name ++ "="%char :: V).
  assert (Hlen : length FT = length pad + length name + 1 + length V).
  { unfold FT. rewrite !length_app. simpl. lia. }
  assert (Hex : exists n0 nrest, name = n0 :: nrest /\ is_alpha n0 = true).
  { destruct name as [|n0 nrest]; [contradiction|].
    exists n0, nrest. split; [reflexivity | apply Hname]. }
  destruct Hex as (n0 & nrest & En & Hn0).
  assert (Hpos : 1 <= length name) by (rewrite En; simpl; lia).
  assert (Hbody : field_body fuel FT 0 []
                  = Ok (FieldNext (length FT) [(lower name, _clean_tex S)])).
  { unfold field_body.
    assert (Hsep : skip_separators fuel FT 0 = Ok (length pad)).
    { unfold FT. rewrite En. cbn [app].
      apply skip_separators_run; auto. now apply alpha_not_separator. }
    rewrite Hsep. cbn [bind].
    replace (length FT <=? length pad) with false
      by (symmetry; apply Nat.leb_gt; lia).
    unfold FT at 1. rewrite skipn_app_here.
    rewrite match_field_name_exact by exact Hname.
    replace FT with ((pad ++ name ++ ["="%char]) ++ V)
      by (unfold FT; rewrite <- !app_assoc; reflexivity).
    replace (length pad + (length name + 1)) with (length (pad ++ name ++ ["="%char]) + 0)
      by (rewrite !length_app; simpl; lia).
    rewrite _parse_value_app_shift, Hparse. cbn [bind fst snd].
    destruct V as [|v0 V']; [contradiction|]. cbn [nonempty].
    rewrite Hstrip. cbn [bind dict_set].
    set (FT' := (pad ++ name ++ ["="%char]) ++ v0 :: V').
    set (j := length (pad ++ name ++ ["="%char]) + length (v0 :: V')).
    assert (Hj : j = length FT') by (unfold j, FT'; symmetry; apply length_app).
    assert (Hstop : skip_to_comma fuel FT' j = Ok j).
    { destruct fuel as [|f]; [lia|]. simpl.
      replace (j <? length FT') with false
        by (symmetry; apply Nat.ltb_ge; lia).
      reflexivity. }
    rewrite Hstop. cbn [bind].
    replace (j <? length FT') with false by (symmetry; apply Nat.ltb_ge; lia).
    cbn [bind]. now rewrite Hj. }
  destruct k as [|[|k]]; try lia.
  cbn [field_loop].
  replace (0 <? length FT) with true
    by (symmetry; apply Nat.ltb_lt; lia).
  rewrite Hbody. cbn [bind].
  now rewrite Nat.ltb_irrefl.
Qed.

(** ** A text of one line *)






Lemma forallb_impl (p q : ascii -> bool) (x : str) :
  (forall c, p c = true -> q c = true) -> forallb p x = true -> forallb q x = true.
Proof.
  intros H. rewrite !forallb_forall. auto.
Qed.




(** ** An entry with one field *)


Lemma pad_not_brace (c : ascii) : is_pad c = true -> not_brace c = true.
Proof.
  destruct c as [[|] [|] [|] [|] [|] [|] [|] [|]]; vm_compute; congruence.
Qed.

Lemma alpha_not_brace (c : ascii) : is_alpha c = true -> not_brace c = true.
Proof.
  destruct c as [[|] [|] [|] [|] [|] [|] [|] [|]]; vm_compute; congruence.
Qed.

Lemma name_char_not_brace (c : ascii) : is_name_char c = true -> not_brace c = true.
Proof.
  destruct c as [[|] [|] [|] [|] [|] [|] [|] [|]]; vm_compute; congruence.
Qed.

Lemma field_head_not_brace (pad name : str) :
  forallb is_pad pad = true -> name_shape name ->
  forallb not_brace (pad ++ name ++ ["="%char]) = true.
Proof.
  intros Hpad Hname. rewrite !forallb_app.
  rewrite (forallb_impl is_pad not_brace pad pad_not_brace Hpad).
  destruct name as [|c r]; [contradiction|]. destruct Hname as [Hc Hr].
  simpl. rewrite (alpha_not_brace c Hc).
  rewrite (forallb_impl is_name_char not_brace r name_char_not_brace Hr).
  reflexivity.
Qed.

Lemma braced_entry_eq (ty key pad name body : str) :
  braced_entry ty key pad name body
  = "@"%char :: ty ++ LBRACE :: key ++ COMMA
      :: (pad ++ name ++ "="%char :: (LBRACE :: body ++ [RBRACE])) ++ [RBRACE].
Proof.
  unfold braced_entry. do 5 f_equal.
  rewrite <- !app_assoc. cbn [app]. do 4 f_equal.
  now rewrite <- app_assoc.
Qed.









(** ** A later field replaces an earlier one *)

Lemma str_eqb_refl (k : str) : str_eqb k k = true.
Proof. now apply str_eqb_true. Qed.

Lemma dict_get_set_same {V : Type} (d : dict V) (k : str) (v : V) :
  dict_get (dict_set d k v) k = Some v.
Proof.
  induction d as [|[k0 v0] d IH]; simpl.
  - now rewrite str_eqb_refl.
  - destruct (str_eqb k0 k) eqn:E; simpl; now rewrite E.
Qed.

Lemma dict_get_set_other {V : Type} (d : dict V) (k k' : str) (v : V) :
  k' <> k -> dict_get (dict_set d k v) k' = dict_get d k'.
Proof.
  intros Hne. induction d as [|[k0 v0] d IH]; simpl.
  - destruct (str_eqb k k') eqn:E; auto.
    apply str_eqb_true in E. congruence.
  - destruct (str_eqb k0 k) eqn:E; simpl.
    + apply str_eqb_true in E. subst k0.
      destruct (str_eqb k k') eqn:E'; auto.
      apply str_eqb_true in E'. congruence.
    + destruct (str_eqb k0 k'); auto.
Qed.

(** ** The field loop on a text from a position on *)

Lemma skip_to_comma_app_shift (k : nat) (a b : str) (j : nat) :
  skip_to_comma k (a ++ b) (length a + j)
  = (r <- skip_to_comma k b j;; Ok (length a + r)).
Proof.
  revert j; induction k as [|k IH]; intros j; simpl; auto.
  rewrite length_app, get_app_shift, ltb_shift.
  destruct (j <? length b); simpl; auto.
  destruct (get b j) as [ch| |]; simpl; auto.
  replace (length a + j + 1) with (length a + (j + 1)) by lia.
  destruct (negb (char_in ch _)); [|reflexivity].
  destruct (ceq ch LF); [reflexivity | apply IH].
Qed.

Lemma leb_shift (n i m : nat) : (n + m <=? n + i) = (m <=? i).
Proof.
  destruct (Nat.leb_spec m i), (Nat.leb_spec (n + m) (n + i)); auto; lia.
Qed.

Lemma field_body_app_shift (fuel : nat) (a b : str) (j : nat) (fields : dict str) :
  field_body fuel (a ++ b) (length a + j) fields
  = (st <- field_body fuel b j fields;;
     Ok (match st with
         | FieldBreak => FieldBreak
         | FieldNext j' fields' => FieldNext (length a + j') fields'
         end)).
Proof.
  unfold field_body. rewrite skip_separators_app_shift.
  destruct (skip_separators fuel b j) as [j1| |]; simpl; auto.
  rewrite length_app, leb_shift, skipn_app_shift.
  destruct (length b <=? j1); simpl; auto.
  destruct (match_field_name (skipn j1 b)) as [[g mend]|]; simpl; auto.
  replace (length a + j1 + mend) with (length a + (j1 + mend)) by lia.
  rewrite _parse_value_app_shift.
  destruct (_parse_value fuel b (j1 + mend)) as [[value j3]| |]; simpl; auto.
  destruct (if nonempty value then _ else _) as [fields'| |]; simpl; auto.
  rewrite skip_to_comma_app_shift.
  destruct (skip_to_comma fuel b j3) as [j4| |]; simpl; auto.
  rewrite ltb_shift, get_app_shift.
  destruct (j4 <? length b); simpl; auto.
  destruct (get b j4) as [ch| |]; simpl; auto.
  destruct (ceq ch COMMA); simpl; do 2 f_equal; lia.
Qed.

Lemma field_loop_app_shift (k fuel : nat) (a b : str) :
  forall (j : nat) (fields : dict str),
    field_loop k fuel (a ++ b) (length a + j) fields = field_loop k fuel b j fields.
Proof.
  induction k as [|k IH]; intros j fields; simpl; auto.
  rewrite length_app, ltb_shift.
  destruct (j <? length b); simpl; auto.
  rewrite field_body_app_shift.
  destruct (field_body fuel b j fields) as [[|j' fields']| |]; simpl; auto.
Qed.

(** ** One field and the fields behind it *)

Lemma _parse_value_braced_then (body rest : str) (k : nat) :
  forallb not_brace body = true ->
  length body + 2 <= k ->
  _parse_value k (LBRACE :: body ++ RBRACE :: rest) 0
  = Ok (LBRACE :: body ++ [RBRACE], length body + 2).
Proof.
  intros Hb Hk. unfold _parse_value.
  destruct k as [|k]; [lia|].
  cbn [skip_spaces length Nat.ltb Nat.leb]. unfold get at 1. cbn [nth_error bind].
  change (isspace LBRACE) with false. cbv iota. cbn [bind Nat.leb].
  unfold get at 1. cbn [nth_error bind]. change (ceq LBRACE LBRACE) with true. cbv iota.
  rewrite scan_braces_group by (auto; lia). cbn [bind].
  unfold slice. cbn [skipn]. rewrite Nat.sub_0_r.
  replace (LBRACE :: body ++ RBRACE :: rest) with ((LBRACE :: body ++ [RBRACE]) ++ rest)
    by (cbn [app]; now rewrite <- app_assoc).
  rewrite firstn_app.
  replace (length (LBRACE :: body ++ [RBRACE])) with (length body + 2)
    by (simpl; rewrite length_app; simpl; lia).
  rewrite Nat.sub_diag. cbn [firstn]. rewrite app_nil_r.
  rewrite firstn_all2 by (simpl; rewrite length_app; simpl; lia).
  now rewrite wrapped_strip.
Qed.

Lemma skip_to_comma_at_comma (a rest : str) (k : nat) :
  skip_to_comma (S k) (a ++ COMMA :: rest) (length a) = Ok (length a).
Proof.
  cbn [skip_to_comma]. rewrite ltb_app_here, get_app_here. reflexivity.
Qed.

Lemma field_loop_first (pad name V inner rest : str) (fields : dict str) (k fuel : nat) :
  forallb is_pad pad = true ->
  name_shape name ->
  V <> [] ->
  _parse_value fuel (V ++ COMMA :: rest) 0 = Ok (V, length V) ->
  _strip_outer_braces V = Ok inner ->
  length pad + 1 <= fuel ->
  field_loop (S k) fuel (pad ++ name ++ "="%char :: V ++ COMMA :: rest) 0 fields
  = field_loop k fuel rest 0 (dict_set fields (lower name) (_clean_tex inner)).
Proof.
  intros Hpad Hname HV Hparse Hstrip Hfuel.
  set (H0 := pad ++ name ++ ["="%char]).
  set (A := H0 ++ V ++ [COMMA]).
  assert (E0 : pad ++ name ++ "="%char :: V ++ COMMA :: rest = H0 ++ (V ++ COMMA :: rest)).
  { unfold H0. now rewrite <- !app_assoc. }
  assert (EA : H0 ++ (V ++ COMMA :: rest) = A ++ rest).
  { unfold A. rewrite <- !app_assoc. reflexivity. }
  assert (HlH : length H0 = length pad + length name + 1).
  { unfold H0. rewrite !length_app. simpl. lia. }
  assert (HlA : length A = length H0 + length V + 1).
  { unfold A. rewrite !length_app. simpl. lia. }
  assert (Hex : exists n0 nrest, name = n0 :: nrest /\ is_alpha n0 = true).
  { destruct name as [|n0 nrest]; [contradiction|].
    exists n0, nrest. split; [reflexivity | apply Hname]. }
  destruct Hex as (n0 & nrest & En & Hn0).
  assert (Hbody : field_body fuel (H0 ++ (V ++ COMMA :: rest)) 0 fields
                  = Ok (FieldNext (length A)
                          (dict_set fields (lower name) (_clean_tex inner)))).
  { unfold field_body.
    assert (Hsep : skip_separators fuel (H0 ++ (V ++ COMMA :: rest)) 0 = Ok (length pad)).
    { rewrite <- E0, En. cbn [app].
      apply skip_separators_run; auto. now apply alpha_not_separator. }
    rewrite Hsep. cbn [bind].
    replace (length (H0 ++ (V ++ COMMA :: rest)) <=? length pad) with false
      by (symmetry; apply Nat.leb_gt; rewrite length_app; lia).
    rewrite <- E0 at 1. rewrite skipn_app_here.
    rewrite match_field_name_exact by exact Hname.
    replace (length pad + (length name + 1)) with (length H0 + 0) by lia.
    rewrite _parse_value_app_shift, Hparse. cbn [bind fst snd].
    replace (nonempty V) with true by (destruct V; [contradiction | reflexivity]).
    rewrite Hstrip. cbn [bind].
    rewrite skip_to_comma_app_shift.
    destruct fuel as [|fuel']; [lia|].
    rewrite skip_to_comma_at_comma. cbn [bind].
    rewrite (length_app H0), ltb_shift, ltb_app_here, get_app_shift, get_app_here.
    cbn [bind].
    change (ceq COMMA COMMA) with true. cbv iota.
    do 2 f_equal. lia. }
  rewrite E0. cbn [field_loop].
  replace (0 <? length (H0 ++ (V ++ COMMA :: rest))) with true
    by (symmetry; apply Nat.ltb_lt; rewrite length_app; lia).
  rewrite Hbody. cbn [bind]. rewrite EA.
  replace (length A) with (length A + 0) by lia.
  apply field_loop_app_shift.
Qed.

Lemma field_loop_last (pad name V inner : str) (fields : dict str) (k fuel : nat) :
  forallb is_pad pad = true ->
  name_shape name ->
  V <> [] ->
  _parse_value fuel V 0 = Ok (V, length V) ->
  _strip_outer_braces V = Ok inner ->
  2 <= k -> length pad + 1 <= fuel ->
  field_loop k fuel (pad ++ name ++ "="%char :: V) 0 fields
  = Ok (dict_set fields (lower name) (_clean_tex inner)).
Proof.
  intros Hpad Hname HV Hparse Hstrip Hk Hfuel.
  set (FT := pad ++ name ++ "="%char :: V).
  assert (Hlen : length FT = length pad + length name + 1 + length V).
  { unfold FT. rewrite !length_app. simpl. lia. }
  assert (Hex : exists n0 nrest, name = n0 :: nrest /\ is_alpha n0 = true).
  { destruct name as [|n0 nrest]; [contradiction|].
    exists n0, nrest. split; [reflexivity | apply Hname]. }
  destruct Hex as (n0 & nrest & En & Hn0).
  assert (Hpos : 1 <= length name) by (rewrite En; simpl; lia).
  assert (Hbody : field_body fuel FT 0 fields
                  = Ok (FieldNext (length FT)
                          (dict_set fields (lower name) (_clean_tex inner)))).
  { unfold field_body.
    assert (Hsep : skip_separators fuel FT 0 = Ok (length pad)).
    { unfold FT. rewrite En. cbn [app].
      apply skip_separators_run; auto. now apply alpha_not_separator. }
    rewrite Hsep. cbn [bind].
    replace (length FT <=? length pad) with false
      by (symmetry; apply Nat.leb_gt; lia).
    unfold FT at 1. rewrite skipn_app_here.
    rewrite match_field_name_exact by exact Hname.
    replace FT with ((pad ++ name ++ ["="%char]) ++ V)
      by (unfold FT; rewrite <- !app_assoc; reflexivity).
    replace (length pad + (length name + 1)) with (length (pad ++ name ++ ["="%char]) + 0)
      by (rewrite !length_app; simpl; lia).
    rewrite _parse_value_app_shift, Hparse. cbn [bind fst snd].
    replace (nonempty V) with true by (destruct V; [contradiction | reflexivity]).
    rewrite Hstrip. cbn [bind].
    set (FT' := (pad ++ name ++ ["="%char]) ++ V).
    set (j := length (pad ++ name ++ ["="%char]) + length V).
    assert (Hj : j = length FT') by (unfold j, FT'; symmetry; apply length_app).
    assert (Hstop : skip_to_comma fuel FT' j = Ok j).
    { destruct fuel as [|f]; [lia|]. simpl.
      replace (j <? length FT') with false
        by (symmetry; apply Nat.ltb_ge; lia).
      reflexivity. }
    rewrite Hstop. cbn [bind].
    replace (j <? length FT') with false by (symmetry; apply Nat.ltb_ge; lia).
    cbn [bind]. now rewrite Hj. }
  destruct k as [|[|k]]; try lia.
  cbn [field_loop].
  replace (0 <? length FT) with true
    by (symmetry; apply Nat.ltb_lt; lia).
  rewrite Hbody. cbn [bind].
  now rewrite Nat.ltb_irrefl.
Qed.

Lemma skip_separators_all (x : str) :
  forall k, length x < k ->
            skip_separators k x 0 = Ok (length (take_while is_separator x)).
Proof.
  induction x as [|c x IH]; intros k Hk.
  - destruct k; [simpl in Hk; lia | reflexivity].
  - destruct k as [|k]; [lia|]. simpl in Hk.
    cbn [skip_separators length Nat.ltb Nat.leb take_while].
    unfold get. cbn [nth_error bind]. unfold is_separator at 1.
    destruct (char_in c _); [|reflexivity].
    change (c :: x) with ([c] ++ x). change (0 + 1) with (length [c] + 0).
    rewrite skip_separators_app_shift, IH by lia. reflexivity.
Qed.

Lemma skipn_take_while (p : ascii -> bool) (x : str) :
  skipn (length (take_while p x)) x = drop_while p x.
Proof.
  induction x as [|c x IH]; simpl; auto.
  destruct (p c); simpl; auto.
Qed.

Lemma field_loop_bad_name (junk : str) (fields : dict str) (k fuel : nat) :
  match_field_name (drop_while is_separator junk) = None ->
  length junk < fuel ->
  field_loop (S k) fuel junk 0 fields = Ok fields.
Proof.
  intros Hm Hf. cbn [field_loop].
  destruct (0 <? length junk); [|reflexivity].
  unfold field_body. rewrite skip_separators_all by lia. cbn [bind].
  destruct (length junk <=? _); [reflexivity|].
  rewrite skipn_take_while, Hm. reflexivity.
Qed.

(** ** The end of an entry whose braces are balanced *)

Lemma scan_entry_close (rest : str) (k : nat) :
  scan_entry (2 + k) (RBRACE :: rest) 0 1 = Ok 1.
Proof.
  cbn [Nat.add scan_entry length Nat.ltb Nat.leb andb Z.ltb Z.compare].
  unfold get. cbn [nth_error bind].
  change (ceq RBRACE LBRACE) with false. change (ceq RBRACE RBRACE) with true.
  cbv iota. change (1 - 1)%Z with 0%Z. change (0 <? 0)%Z with false.
  now rewrite andb_false_r.
Qed.

Lemma scan_entry_open (seg rest : str) (k : nat) :
  forall depth depth',
    (0 < depth)%Z -> stays_open seg depth = Some depth' ->
    scan_entry (length seg + k) (seg ++ rest) 0 depth
    = (r <- scan_entry k rest 0 depth';; Ok (length seg + r)).
Proof.
  induction seg as [|c seg IH]; intros depth depth' Hd H.
  - simpl in H. injection H as <-. simpl. now rewrite bind_ok_id.
  - cbn [stays_open] in H.
    cbn [length Nat.add app scan_entry].
    replace (0 <? depth)%Z with true by (symmetry; now apply Z.ltb_lt).
    unfold get. cbn [nth_error bind Nat.ltb Nat.leb andb].
    change (c :: seg ++ rest) with ([c] ++ (seg ++ rest)).
    change (0 + 1) with (length [c] + 0).
    rewrite !scan_entry_app_shift.
    destruct (ceq c LBRACE).
    { destruct (0 <? depth + 1)%Z eqn:E; [|discriminate].
      apply Z.ltb_lt in E. rewrite (IH _ _ E H).
      destruct (scan_entry k rest 0 depth'); reflexivity. }
    destruct (ceq c RBRACE).
    { destruct (0 <? depth - 1)%Z eqn:E; [|discriminate].
      apply Z.ltb_lt in E. rewrite (IH _ _ E H).
      destruct (scan_entry k rest 0 depth'); reflexivity. }
    replace (0 <? depth)%Z with true in H by (symmetry; now apply Z.ltb_lt).
    rewrite (IH _ _ Hd H).
    destruct (scan_entry k rest 0 depth'); reflexivity.
Qed.

Lemma stays_open_app (a b : str) :
  forall depth,
    stays_open (a ++ b) depth
    = match stays_open a depth with
      | Some d => stays_open b d
      | None => None
      end.
Proof.
  induction a as [|c a IH]; intros depth; simpl; auto.
  destruct (0 <? _)%Z; auto.
Qed.

Lemma stays_open_flat (seg : str) (depth : Z) :
  forallb not_brace seg = true -> (0 < depth)%Z -> stays_open seg depth = Some depth.
Proof.
  intros H Hd. induction seg as [|c seg IH]; simpl; auto.
  simpl in H. apply andb_true_iff in H as [Hc Hs].
  apply not_brace_ceq in Hc as [Hl Hr]. rewrite Hl, Hr.
  replace (0 <? depth)%Z with true by (symmetry; now apply Z.ltb_lt).
  now apply IH.
Qed.

Lemma stays_open_group (body : str) :
  forallb not_brace body = true -> stays_open (LBRACE :: body ++ [RBRACE]) 1 = Some 1%Z.
Proof.
  intros H. cbn [stays_open]. change (ceq LBRACE LBRACE) with true. cbv iota.
  change (0 <? 1 + 1)%Z with true. cbv iota.
  rewrite stays_open_app, stays_open_flat by (auto; lia).
  reflexivity.
Qed.

Lemma scan_entry_balanced (seg rest : str) (k : nat) :
  balanced seg ->
  length seg + 2 <= k ->
  scan_entry k (seg ++ RBRACE :: rest) 0 1 = Ok (length seg + 1).
Proof.
  intros Hs Hk.
  apply scan_entry_mono with (k := length seg + (2 + 0)); [lia|].
  rewrite (@scan_entry_open seg (RBRACE :: rest) (2 + 0) 1 1) by (auto; lia).
  now rewrite scan_entry_close.
Qed.

(** ** An entry and the text behind it *)

Lemma find_at_after (c : ascii) (lead tail : str) :
  ~ In c lead -> find c (lead ++ c :: tail) 0 = Some (length lead).
Proof.
  intros H. unfold find. cbn [skipn].
  rewrite find_in_first by (now apply find_in_absent). reflexivity.
Qed.

Lemma main_loop_entry_then (lead ty key FT rest : str) (fields : dict str) (k fuel : nat) :
  ~ In "@"%char lead ->
  ty <> [] -> forallb is_alpha ty = true ->
  ~ In COMMA key ->
  scan_entry fuel (FT ++ RBRACE :: rest) 0 1 = Ok (length FT + 1) ->
  field_loop fuel fuel FT 0 [] = Ok fields ->
  main_loop (S k) fuel
    (lead ++ ("@"%char :: ty ++ LBRACE :: key ++ COMMA :: FT ++ [RBRACE]) ++ rest) 0 []
  = (new <- main_loop k fuel rest 0 [];;
     Ok (mkBibEntry (lower ty) (strip key) fields :: new)).
Proof.
  intros Hlead Hty Halpha Hkey Hscan Hfields.
  set (P0 := lead ++ ["@"%char]).
  set (P1 := P0 ++ ty ++ [LBRACE]).
  set (P2 := P1 ++ key ++ [COMMA]).
  set (X := lead ++ ("@"%char :: ty ++ LBRACE :: key ++ COMMA :: FT ++ [RBRACE]) ++ rest).
  assert (X0 : X = lead ++ "@"%char
                     :: (ty ++ LBRACE :: key ++ COMMA :: FT ++ RBRACE :: rest)).
  { unfold X. cbn [app]. do 2 f_equal. rewrite <- !app_assoc. cbn [app]. do 2 f_equal.
    rewrite <- !app_assoc. cbn [app]. do 2 f_equal. now rewrite <- app_assoc. }
  assert (XP0 : X = P0 ++ (ty ++ LBRACE :: key ++ COMMA :: FT ++ RBRACE :: rest)).
  { rewrite X0. unfold P0. now rewrite <- app_assoc. }
  assert (XP1 : X = P1 ++ (key ++ COMMA :: FT ++ RBRACE :: rest)).
  { rewrite XP0. unfold P1. now rewrite <- !app_assoc. }
  assert (XP2 : X = P2 ++ (FT ++ RBRACE :: rest)).
  { rewrite XP1. unfold P2. now rewrite <- !app_assoc. }
  assert (XE : X = (P2 ++ FT ++ [RBRACE]) ++ rest).
  { rewrite XP2. now rewrite <- !app_assoc. }
  assert (HlP0 : length P0 = length lead + 1).
  { unfold P0. rewrite length_app. simpl. lia. }
  assert (HlP1 : length P1 = length P0 + length ty + 1).
  { unfold P1. rewrite !length_app. simpl. lia. }
  assert (HlP2 : length P2 = length P1 + length key + 1).
  { unfold P2. rewrite !length_app. simpl. lia. }
  assert (HlE : length (P2 ++ FT ++ [RBRACE]) = length P2 + (length FT + 1)).
  { rewrite !length_app. simpl. lia. }
  assert (HlX : 0 < length X).
  { rewrite XP0, length_app. lia. }
  clearbody X.
  assert (Hbody : main_body fuel X 0 []
                  = Ok (MainNext (length (P2 ++ FT ++ [RBRACE]))
                          [mkBibEntry (lower ty) (strip key) fields])).
  { unfold main_body.
    replace (find "@"%char X 0) with (Some (length lead))
      by (rewrite X0; symmetry; now apply find_at_after).
    replace (skipn (length lead + 1) X)
      with (ty ++ LBRACE :: key ++ COMMA :: FT ++ RBRACE :: rest).
    2: { rewrite XP0. replace (length lead + 1) with (length P0 + 0) by lia.
         now rewrite skipn_app_shift. }
    rewrite match_entry_type_exact by assumption.
    replace (length lead + 1 + (length ty + 1)) with (length P1 + 0) by lia.
    replace (find COMMA X (length P1 + 0)) with (Some (length P1 + length key)).
    2: { rewrite XP1, find_app_shift. unfold find. cbn [skipn].
         rewrite find_in_first by (now apply find_in_absent). reflexivity. }
    replace (slice X (length P1 + 0) (length P1 + length key)) with key.
    2: { rewrite XP1, slice_app_shift. unfold slice. cbn [skipn].
         rewrite Nat.sub_0_r, firstn_app, firstn_all, Nat.sub_diag.
         cbn [firstn]. now rewrite app_nil_r. }
    replace (length P1 + length key + 1) with (length P2 + 0) by lia.
    replace (scan_entry fuel X (length P2 + 0) 1)
      with (@Ok nat (length P2 + (length FT + 1))).
    2: { rewrite XP2, scan_entry_app_shift, Hscan. reflexivity. }
    cbn [bind].
    replace (slice X (length P2 + 0) (length P2 + (length FT + 1) - 1)) with FT.
    2: { replace (length P2 + (length FT + 1) - 1) with (length P2 + length FT) by lia.
         rewrite XP2, slice_app_shift. unfold slice. cbn [skipn].
         rewrite Nat.sub_0_r, firstn_app, firstn_all, Nat.sub_diag.
         cbn [firstn]. now rewrite app_nil_r. }
    rewrite Hfields. cbn [bind app]. now rewrite HlE. }
  cbn [main_loop].
  replace (0 <? length X) with true by (symmetry; now apply Nat.ltb_lt).
  rewrite Hbody. cbn [bind]. rewrite XE.
  pose proof (@main_loop_app_shift k fuel (P2 ++ FT ++ [RBRACE]) rest 0
                [mkBibEntry (lower ty) (strip key) fields]) as E.
  rewrite Nat.add_0_r in E. rewrite E. reflexivity.
Qed.

Lemma main_loop_total (k fuel : nat) (raw : str) :
  length raw < fuel -> length raw < k ->
  exists es, main_loop k fuel raw 0 [] = Ok es.
Proof.
  intros Hf Hk.
  destruct (@spec_ok _ _ (fuel <= length raw \/ k <= length raw - 0) _
              (@main_loop_spec k fuel raw 0 [] (Forall_nil _))) as (es & H & _);
    [lia | eauto].
Qed.

Lemma main_loop_any_fuel (k fuel : nat) (raw : str) :
  length raw < fuel -> length raw < k ->
  main_loop k fuel raw 0 [] = main_loop (S k) fuel raw 0 [].
Proof.
  intros Hf Hk. destruct (main_loop_total raw Hf Hk) as (es & H).
  rewrite H. symmetry. eapply main_loop_mono; [| |exact H]; lia.
Qed.

Lemma entry_then_rest (lead ty key FT rest : str) (fields : dict str) (fuel : nat) :
  ~ In "@"%char lead ->
  ty <> [] -> forallb is_alpha ty = true ->
  ~ In COMMA key ->
  balanced FT ->
  field_loop fuel fuel FT 0 [] = Ok fields ->
  length (lead ++ ("@"%char :: ty ++ LBRACE :: key ++ COMMA :: FT ++ [RBRACE]) ++ rest)
  < fuel ->
  main_loop fuel fuel
    (lead ++ ("@"%char :: ty ++ LBRACE :: key ++ COMMA :: FT ++ [RBRACE]) ++ rest) 0 []
  = (new <- main_loop fuel fuel rest 0 [];;
     Ok (mkBibEntry (lower ty) (strip key) fields :: new)).
Proof.
  intros Hlead Hty Halpha Hkey Hbal Hfields Hfuel.
  do 4 (rewrite !length_app in Hfuel; cbn [length] in Hfuel).
  destruct fuel as [|k]; [lia|].
  rewrite (@main_loop_entry_then lead ty key FT rest fields k (S k)); auto.
  - now rewrite main_loop_any_fuel by lia.
  - apply scan_entry_balanced; [exact Hbal | lia].
Qed.

Lemma truncated_entry_eq (ty key pad name body junk : str) :
  truncated_entry ty key pad name body junk
  = "@"%char :: ty ++ LBRACE :: key ++ COMMA
      :: (pad ++ name ++ "="%char :: (LBRACE :: body ++ [RBRACE]) ++ COMMA :: junk)
      ++ [RBRACE].
Proof.
  unfold truncated_entry. do 5 f_equal.
  rewrite <- !app_assoc. cbn [app]. do 4 f_equal.
  rewrite <- !app_assoc. reflexivity.
Qed.

Lemma field_head_open (pad name : str) :
  forallb is_pad pad = true -> name_shape name ->
  stays_open (pad ++ name ++ ["="%char]) 1 = Some 1%Z.
Proof.
  intros Hpad Hname. apply stays_open_flat; [|lia]. now apply field_head_not_brace.
Qed.

Lemma braced_entry_then_rest (lead ty key pad name body rest : str) (fuel : nat) :
  ~ In "@"%char lead ->
  ty <> [] -> forallb is_alpha ty = true ->
  ~ In COMMA key ->
  forallb is_pad pad = true ->
  name_shape name ->
  forallb not_brace body = true ->
  length (lead ++ braced_entry ty key pad name body ++ rest) < fuel ->
  main_loop fuel fuel (lead ++ braced_entry ty key pad name body ++ rest) 0 []
  = (new <- main_loop fuel fuel rest 0 [];;
     Ok (mkBibEntry (lower ty) (strip key)
           [(lower name, _clean_tex (strip body))] :: new)).
Proof.
  intros Hlead Hty Halpha Hkey Hpad Hname Hbody Hfuel.
  rewrite braced_entry_eq in *.
  set (V := LBRACE :: body ++ [RBRACE]) in *.
  set (FT := pad ++ name ++ "="%char :: V) in *.
  assert (HV : length V = length body + 2).
  { unfold V. simpl. rewrite length_app. simpl. lia. }
  assert (HFT : length FT = length pad + length name + length body + 3).
  { unfold FT. rewrite !length_app. cbn [length]. rewrite HV. lia. }
  assert (Hlen : length FT + 4 <= fuel).
  { do 4 (rewrite !length_app in Hfuel; cbn [length] in Hfuel). lia. }
  apply entry_then_rest; auto.
  - unfold balanced, FT.
    replace (pad ++ name ++ "="%char :: V) with ((pad ++ name ++ ["="%char]) ++ V)
      by (now rewrite <- !app_assoc).
    rewrite stays_open_app, field_head_open by assumption.
    now apply stays_open_group.
  - unfold FT. apply field_loop_single with (k := fuel) (fuel := fuel); auto; try lia.
    + discriminate.
    + rewrite HV. apply _parse_value_braced; [exact Hbody | lia].
    + now apply wrapped_strip_outer.
Qed.

Lemma truncated_entry_then_rest (lead ty key pad name body junk rest : str) (fuel : nat) :
  ~ In "@"%char lead ->
  ty <> [] -> forallb is_alpha ty = true ->
  ~ In COMMA key ->
  forallb is_pad pad = true ->
  name_shape name ->
  forallb not_brace body = true ->
  balanced junk ->
  match_field_name (drop_while is_separator junk) = None ->
  length (lead ++ truncated_entry ty key pad name body junk ++ rest) < fuel ->
  main_loop fuel fuel (lead ++ truncated_entry ty key pad name body junk ++ rest) 0 []
  = (new <- main_loop fuel fuel rest 0 [];;
     Ok (mkBibEntry (lower ty) (strip key)
           [(lower name, _clean_tex (strip body))] :: new)).
Proof.
  intros Hlead Hty Halpha Hkey Hpad Hname Hbody Hjunk Hbad Hfuel.
  rewrite truncated_entry_eq in *.
  set (V := LBRACE :: body ++ [RBRACE]) in *.
  set (FT := pad ++ name ++ "="%char :: V ++ COMMA :: junk) in *.
  assert (HV : length V = length body + 2).
  { unfold V. simpl. rewrite length_app. simpl. lia. }
  assert (HFT : length FT = length pad + length name + length body + length junk + 4).
  { unfold FT. rewrite !length_app. cbn [length]. rewrite length_app, HV. simpl. lia. }
  assert (Hlen : length FT + 4 <= fuel).
  { do 4 (rewrite !length_app in Hfuel; cbn [length] in Hfuel). lia. }
  apply entry_then_rest; auto.
  - unfold balanced, FT.
    replace (pad ++ name ++ "="%char :: V ++ COMMA :: junk)
      with ((pad ++ name ++ ["="%char]) ++ V ++ COMMA :: junk)
      by (now rewrite <- !app_assoc).
    rewrite stays_open_app, field_head_open by assumption.
    rewrite stays_open_app. unfold V. rewrite stays_open_group by exact Hbody.
    exact Hjunk.
  - destruct fuel as [|[|k]]; try lia.
    unfold FT.
    rewrite (@field_loop_first pad name V (strip body) junk [] (S k) (S (S k)));
      auto; try lia.
    + apply field_loop_bad_name; [exact Hbad | lia].
    + discriminate.
    + rewrite HV. unfold V. cbn [app]. rewrite <- app_assoc. cbn [app].
      apply _parse_value_braced_then; [exact Hbody | lia].
    + now apply wrapped_strip_outer.
Qed.

Lemma bad_header_then_rest (pre rest : str) (fuel : nat) :
  find "@"%char pre 0 = None ->
  match_entry_type rest = None ->
  length (pre ++ "@"%char :: rest) < fuel ->
  main_loop fuel fuel (pre ++ "@"%char :: rest) 0 [] = main_loop fuel fuel rest 0 [].
Proof.
  intros Hpre Hm Hfuel.
  rewrite length_app in Hfuel. cbn [length] in Hfuel.
  destruct fuel as [|k]; [lia|].
  rewrite skipped_header by assumption.
  apply main_loop_any_fuel; lia.
Qed.

Lemma without_comma_stops (lead ty tail : str) (fuel : nat) :
  ~ In "@"%char lead ->
  ty <> [] -> forallb is_alpha ty = true ->
  ~ In COMMA tail ->
  0 < fuel ->
  main_loop fuel fuel (lead ++ "@"%char :: ty ++ LBRACE :: tail) 0 [] = Ok [].
Proof.
  intros Hlead Hty Halpha Htail Hfuel.
  destruct fuel as [|k]; [lia|].
  set (X := lead ++ "@"%char :: ty ++ LBRACE :: tail).
  set (P1 := lead ++ "@"%char :: ty ++ [LBRACE]).
  assert (XP1 : X = P1 ++ tail).
  { unfold X, P1. rewrite <- !app_assoc. cbn [app]. do 2 f_equal.
    now rewrite <- app_assoc. }
  assert (HlP1 : length P1 = length lead + 1 + (length ty + 1)).
  { unfold P1. rewrite !length_app. cbn [length]. rewrite length_app. simpl. lia. }
  cbn [main_loop].
  replace (0 <? length X) with true
    by (symmetry; apply Nat.ltb_lt; rewrite XP1, length_app; lia).
  unfold main_body.
  replace (find "@"%char X 0) with (Some (length lead))
    by (unfold X; symmetry; now apply find_at_after).
  replace (skipn (length lead + 1) X) with (ty ++ LBRACE :: tail).
  2: { unfold X. replace (lead ++ "@"%char :: ty ++ LBRACE :: tail)
         with ((lead ++ ["@"%char]) ++ ty ++ LBRACE :: tail)
         by (now rewrite <- app_assoc).
       replace (length lead + 1) with (length (lead ++ ["@"%char]) + 0)
         by (rewrite length_app; simpl; lia).
       now rewrite skipn_app_shift. }
  rewrite match_entry_type_exact by assumption.
  replace (find COMMA X (length lead + 1 + (length ty + 1))) with (@None nat).
  2: { rewrite XP1. replace (length lead + 1 + (length ty + 1)) with (length P1 + 0) by lia.
       rewrite find_app_shift. unfold find. cbn [skipn].
       now rewrite find_in_absent. }
  reflexivity.
Qed.

(** C6 (as the code has it): the pass raises nothing and always returns,
    and the scan from a position on depends on the text from there on
    only.  In the text that is scanned (the input without its comment
    lines): an [@] whose entry-type header does not parse is skipped
    alone, the result being that of the text behind it; a field that
    fails the name pattern ends the field list of its entry, the fields
    read so far being kept; an entry whose second field fails is produced
    with its first field, followed by the entries of the text behind its
    closing brace; a well-formed entry behind text without [@] is parsed,
    followed by the entries of the text behind it; in general an entry is
    its type, the key up to the first comma, whatever the key holds, and
    the fields the field loop reads in a block of balanced braces; when no
    comma is left the scan stops.  At three texts, a header that does not
    parse, a failing field and a missing last comma leave the well-formed
    entry beside them parsed. *)
Theorem malformed_entries_are_skipped_locally (raw : str) (fuel : nat) :
  (forall e, parse_bibtex fuel raw <> Raise e) /\
  (exists es, parse_bibtex (enough raw) raw = Ok es) /\
  parse_bibtex fuel raw = main_loop fuel fuel (drop_comment_lines raw) 0 [] /\
  (forall k a i entries,
      main_loop k fuel (a ++ raw) (length a + i) entries
      = (new <- main_loop k fuel raw i [];; Ok (entries ++ new))) /\
  (forall pre,
      find "@"%char pre 0 = None ->
      match_entry_type raw = None ->
      length (pre ++ "@"%char :: raw) < fuel ->
      main_loop fuel fuel (pre ++ "@"%char :: raw) 0 [] = main_loop fuel fuel raw 0 []) /\
  (forall k j j1 fields,
      j < length raw ->
      skip_separators fuel raw j = Ok j1 ->
      match_field_name (skipn j1 raw) = None ->
      field_loop (S k) fuel raw j fields = Ok fields) /\
  (forall lead ty key pad name body junk,
      ~ In "@"%char lead ->
      ty <> [] -> forallb is_alpha ty = true ->
      ~ In COMMA key ->
      forallb is_pad pad = true ->
      name_shape name ->
      forallb not_brace body = true ->
      balanced junk ->
      match_field_name (drop_while is_separator junk) = None ->
      length (lead ++ truncated_entry ty key pad name body junk ++ raw) < fuel ->
      main_loop fuel fuel (lead ++ truncated_entry ty key pad name body junk ++ raw) 0 []
      = (new <- main_loop fuel fuel raw 0 [];;
         Ok (mkBibEntry (lower ty) (strip key)
               [(lower name, _clean_tex (strip body))] :: new))) /\
  (forall lead ty key pad name body,
      ~ In "@"%char lead ->
      ty <> [] -> forallb is_alpha ty = true ->
      ~ In COMMA key ->
      forallb is_pad pad = true ->
      name_shape name ->
      forallb not_brace body = true ->
      length (lead ++ braced_entry ty key pad name body ++ raw) < fuel ->
      main_loop fuel fuel (lead ++ braced_entry ty key pad name body ++ raw) 0 []
      = (new <- main_loop fuel fuel raw 0 [];;
         Ok (mkBibEntry (lower ty) (strip key)
               [(lower name, _clean_tex (strip body))] :: new))) /\
  (forall lead ty key block fields,
      ~ In "@"%char lead ->
      ty <> [] -> forallb is_alpha ty = true ->
      ~ In COMMA key ->
      balanced block ->
      field_loop fuel fuel block 0 [] = Ok fields ->
      length (lead ++ ("@"%char :: ty ++ LBRACE :: key ++ COMMA :: block ++ [RBRACE]) ++ raw)
      < fuel ->
      main_loop fuel fuel
        (lead ++ ("@"%char :: ty ++ LBRACE :: key ++ COMMA :: block ++ [RBRACE]) ++ raw) 0 []
      = (new <- main_loop fuel fuel raw 0 [];;
         Ok (mkBibEntry (lower ty) (strip key) fields :: new))) /\
  (forall lead ty,
      ~ In "@"%char lead ->
      ty <> [] -> forallb is_alpha ty = true ->
      ~ In COMMA raw ->
      0 < fuel ->
      main_loop fuel fuel (lead ++ "@"%char :: ty ++ LBRACE :: raw) 0 [] = Ok []) /\
  parse_bibtex (enough bad_header_bib) bad_header_bib = Ok [book_entry] /\
  parse_bibtex (enough bad_field_bib) bad_field_bib = Ok [misc_entry; book_entry] /\
  parse_bibtex (enough no_comma_bib) no_comma_bib = Ok [book_entry].
Proof.
  split; [|split; [|split; [|split; [|split; [|split; [|split; [|split;
    [|split; [|split; [|split; [|split]]]]]]]]]]].
  - intros e. eapply spec_no_raise. apply parse_bibtex_spec.
  - destruct (parse_bibtex_enough raw) as (es & H & _). eauto.
  - reflexivity.
  - intros k a i entries. apply main_loop_app_shift.
  - intros pre. apply bad_header_then_rest.
  - intros k j j1 fields. apply failed_field_name.
  - intros lead ty key pad name body junk. apply truncated_entry_then_rest.
  - intros lead ty key pad name body. apply braced_entry_then_rest.
  - intros lead ty key block fields. apply entry_then_rest.
  - intros lead ty. apply without_comma_stops.
  - vm_compute. reflexivity.
  - vm_compute. reflexivity.
  - vm_compute. reflexivity.
Qed.

Lemma malformed_entries_are_skipped_locally_witness :
  main_loop 60 60 (lit "junk " ++ "@"%char :: after_bad_header) 0 []
  = main_loop 60 60 after_bad_header 0 [] /\
  field_loop 2 60 bad_field_block 11 [(lit "title", lit "T")]
  = Ok [(lit "title", lit "T")] /\
  main_loop 60 60
    ([] ++ truncated_entry (lit "misc") (lit "k") (lit " ") (lit "a") (lit "x")
             (lit " =oops, b={y}") ++ LF :: book_bib) 0 []
  = (new <- main_loop 60 60 (LF :: book_bib) 0 [];;
     Ok (mkBibEntry (lower (lit "misc")) (strip (lit "k"))
           [(lower (lit "a"), _clean_tex (strip (lit "x")))] :: new)) /\
  main_loop 60 60
    ([LF] ++ braced_entry (lit "book") (lit "b") (lit " ") (lit "title") (lit "T")
          ++ lit " @12{x}") 0 []
  = (new <- main_loop 60 60 (lit " @12{x}") 0 [];;
     Ok (mkBibEntry (lower (lit "book")) (strip (lit "b"))
           [(lower (lit "title"), _clean_tex (strip (lit "T")))] :: new)) /\
  main_loop 60 60 (lit "see " ++ "@"%char :: lit "article" ++ LBRACE :: lit "a}") 0 []
  = Ok [].
Proof.
  split; [|split; [|split; [|split]]].
  - apply (proj1 (proj2 (proj2 (proj2 (proj2
             (malformed_entries_are_skipped_locally after_bad_header 60)))))
             (lit "junk ")).
    + reflexivity.
    + reflexivity.
    + apply Nat.ltb_lt. reflexivity.
  - apply (proj1 (proj2 (proj2 (proj2 (proj2 (proj2
             (malformed_entries_are_skipped_locally bad_field_block 60))))))
             1 11 12 [(lit "title", lit "T")]).
    + apply Nat.ltb_lt. reflexivity.
    + reflexivity.
    + reflexivity.
  - apply (proj1 (proj2 (proj2 (proj2 (proj2 (proj2 (proj2
             (malformed_entries_are_skipped_locally (LF :: book_bib) 60)))))))
             [] (lit "misc") (lit "k") (lit " ") (lit "a") (lit "x")
             (lit " =oops, b={y}")).
    + intros [].
    + discriminate.
    + reflexivity.
    + intros H. simpl in H. repeat (destruct H as [H|H]; [discriminate H|]). exact H.
    + reflexivity.
    + split; reflexivity.
    + reflexivity.
    + reflexivity.
    + reflexivity.
    + apply Nat.ltb_lt. reflexivity.
  - apply (proj1 (proj2 (proj2 (proj2 (proj2 (proj2 (proj2 (proj2
             (malformed_entries_are_skipped_locally (lit " @12{x}") 60))))))))
             [LF] (lit "book") (lit "b") (lit " ") (lit "title") (lit "T")).
    + intros H. simpl in H. repeat (destruct H as [H|H]; [discriminate H|]). exact H.
    + discriminate.
    + reflexivity.
    + intros H. simpl in H. repeat (destruct H as [H|H]; [discriminate H|]). exact H.
    + reflexivity.
    + split; reflexivity.
    + reflexivity.
    + apply Nat.ltb_lt. reflexivity.
  - apply (proj1 (proj2 (proj2 (proj2 (proj2 (proj2 (proj2 (proj2 (proj2 (proj2
             (malformed_entries_are_skipped_locally (lit "a}") 60))))))))))
             (lit "see ") (lit "article")).
    + intros H. simpl in H. repeat (destruct H as [H|H]; [discriminate H|]). exact H.
    + discriminate.
    + reflexivity.
    + intros H. simpl in H. repeat (destruct H as [H|H]; [discriminate H|]). exact H.
    + apply Nat.ltb_lt. reflexivity.
Defined.

(** ** The same field name twice *)

Lemma two_fields_loop (pad1 name1 body1 pad2 name2 body2 : str) (fuel : nat) :
  forallb is_pad pad1 = true -> name_shape name1 -> forallb not_brace body1 = true ->
  forallb is_pad pad2 = true -> name_shape name2 -> forallb not_brace body2 = true ->
  length (two_fields pad1 name1 body1 pad2 name2 body2) < fuel ->
  field_loop fuel fuel (two_fields pad1 name1 body1 pad2 name2 body2) 0 []
  = Ok (dict_set [(lower name1, _clean_tex (strip body1))]
          (lower name2) (_clean_tex (strip body2))).
Proof.
  intros Hp1 Hn1 Hb1 Hp2 Hn2 Hb2 Hfuel.
  set (V1 := LBRACE :: body1 ++ [RBRACE]).
  set (V2 := LBRACE :: body2 ++ [RBRACE]).
  set (rest := pad2 ++ name2 ++ "="%char :: V2).
  assert (E : two_fields pad1 name1 body1 pad2 name2 body2
              = pad1 ++ name1 ++ "="%char :: V1 ++ COMMA :: rest).
  { unfold two_fields, V1, rest, V2. do 3 f_equal. cbn [app]. f_equal.
    now rewrite <- app_assoc. }
  assert (HV1 : length V1 = length body1 + 2).
  { unfold V1. simpl. rewrite length_app. simpl. lia. }
  assert (HV2 : length V2 = length body2 + 2).
  { unfold V2. simpl. rewrite length_app. simpl. lia. }
  assert (Hlen : length pad1 + length name1 + length body1
                 + length pad2 + length name2 + length body2 + 7 <= fuel).
  { rewrite E in Hfuel. unfold rest in Hfuel.
    do 3 (rewrite !length_app in Hfuel; cbn [length] in Hfuel).
    rewrite HV1, HV2 in Hfuel. lia. }
  rewrite E.
  destruct fuel as [|[|[|k]]]; try lia.
  rewrite (@field_loop_first pad1 name1 V1 (strip body1) rest [] (S (S k)) (S (S (S k))));
    auto; try lia.
  - unfold rest. apply field_loop_last; auto; try lia.
    + discriminate.
    + rewrite HV2. apply _parse_value_braced; [exact Hb2 | lia].
    + now apply wrapped_strip_outer.
  - discriminate.
  - rewrite HV1. unfold V1. cbn [app]. rewrite <- app_assoc. cbn [app].
    apply _parse_value_braced_then; [exact Hb1 | lia].
  - now apply wrapped_strip_outer.
Qed.

(** X14: a pass of the field loop that reads a non-empty value, at the
    name found behind the separators it skips, makes the cleaned value
    the value of the lower-cased name, in place of any value stored for
    that name before, and leaves the values of all other names as they
    were; a pass that reads an empty value leaves the field map
    untouched.  On a block of two fields in braces the field map is the
    second value alone when the two names are one name in lower case (the
    later field replaces the earlier one), and both values in the order of
    the block otherwise. *)
Theorem later_field_replaces_earlier (fuel : nat) :
  (forall ft j j' fields fields',
      field_body fuel ft j fields = Ok (FieldNext j' fields') ->
      exists j1 g mend value j3,
        skip_separators fuel ft j = Ok j1 /\
        match_field_name (skipn j1 ft) = Some (g, mend) /\
        _parse_value fuel ft (j1 + mend) = Ok (value, j3) /\
        ((value = [] /\ fields' = fields) \/
         (value <> [] /\
          exists stripped,
            _strip_outer_braces value = Ok stripped /\
            dict_get fields' (lower g) = Some (_clean_tex stripped) /\
            forall k, k <> lower g -> dict_get fields' k = dict_get fields k))) /\
  (forall pad1 name1 body1 pad2 name2 body2,
      forallb is_pad pad1 = true -> name_shape name1 -> forallb not_brace body1 = true ->
      forallb is_pad pad2 = true -> name_shape name2 -> forallb not_brace body2 = true ->
      length (two_fields pad1 name1 body1 pad2 name2 body2) < fuel ->
      (lower name1 = lower name2 ->
       field_loop fuel fuel (two_fields pad1 name1 body1 pad2 name2 body2) 0 []
       = Ok [(lower name2, _clean_tex (strip body2))]) /\
      (lower name1 <> lower name2 ->
       field_loop fuel fuel (two_fields pad1 name1 body1 pad2 name2 body2) 0 []
       = Ok [(lower name1, _clean_tex (strip body1));
             (lower name2, _clean_tex (strip body2))])).
Proof.
  split.
  - intros ft j j' fields fields' H.
    apply field_body_effect in H
      as (j1 & g & mend & value & j3 & Hs & Hm & Hv
          & [[-> ->]|[Hne (stripped & Hst & ->)]]).
    + exists j1, g, mend, [], j3.
      split; [exact Hs|]. split; [exact Hm|]. split; [exact Hv|].
      left. split; reflexivity.
    + exists j1, g, mend, value, j3.
      split; [exact Hs|]. split; [exact Hm|]. split; [exact Hv|].
      right. split; [exact Hne|]. exists stripped. split; [exact Hst|]. split.
      * apply dict_get_set_same.
      * intros k Hk. now apply dict_get_set_other.
  - intros pad1 name1 body1 pad2 name2 body2 Hp1 Hn1 Hb1 Hp2 Hn2 Hb2 Hfuel.
    rewrite (@two_fields_loop pad1 name1 body1 pad2 name2 body2 fuel
               Hp1 Hn1 Hb1 Hp2 Hn2 Hb2 Hfuel). cbn [dict_set].
    split.
    + intros E. rewrite E, str_eqb_refl. reflexivity.
    + intros E. destruct (str_eqb (lower name1) (lower name2)) eqn:Eq; [|reflexivity].
      apply str_eqb_true in Eq. contradiction.
Qed.

Lemma later_field_replaces_earlier_witness :
  (exists j1 g mend value j3,
      skip_separators 30 (lit "TITLE={New}") 0 = Ok j1 /\
      match_field_name (skipn j1 (lit "TITLE={New}")) = Some (g, mend) /\
      _parse_value 30 (lit "TITLE={New}") (j1 + mend) = Ok (value, j3) /\
      ((value = [] /\ [(lit "title", lit "New")] = [(lit "title", lit "Old")]) \/
       (value <> [] /\
        exists stripped,
          _strip_outer_braces value = Ok stripped /\
          dict_get [(lit "title", lit "New")] (lower g) = Some (_clean_tex stripped) /\
          forall k, k <> lower g ->
                    dict_get [(lit "title", lit "New")] k
                    = dict_get [(lit "title", lit "Old")] k))) /\
  field_loop 30 30
    (two_fields (lit " ") (lit "title") (lit "Old") (lit " ") (lit "TITLE") (lit "New")) 0 []
  = Ok [(lower (lit "TITLE"), _clean_tex (strip (lit "New")))].
Proof.
  split.
  - apply (proj1 (later_field_replaces_earlier 30) (lit "TITLE={New}") 0 11
             [(lit "title", lit "Old")] [(lit "title", lit "New")]).
    reflexivity.
  - apply (proj2 (later_field_replaces_earlier 30)
             (lit " ") (lit "title") (lit "Old") (lit " ") (lit "TITLE") (lit "New")).
    + reflexivity.
    + split; reflexivity.
    + reflexivity.
    + reflexivity.
    + split; reflexivity.
    + reflexivity.
    + apply Nat.ltb_lt. reflexivity.
    + reflexivity.
Defined.
